(** * The arXiv listing spider: a shallow embedding and its properties

    Source: [daily_arxiv/daily_arxiv/spiders/arxiv.py], class [ArxivSpider].

    The spider reads per-category listing pages, keeps a run-wide set of
    identifiers already seen, dispatches one detail request per surviving
    entry, resolves a revision tag on the detail page, buffers the resolved
    items and releases them in sorted batches.

    Modelling conventions.
    - A Python [str] is the list of its code points, each a number in [N].
      The literals of the source are ASCII; [u "..."] is such a literal.
    - The Unicode tables of the interpreter are not part of the source.
      On code points below 128 the character classes ([str.isspace] as
      used by [str.strip], [\w] as used by [\b], [\d]) and [str.lower] are
      written out; above, they are whatever the [runtime] in use says.
      The order in which a [set] is iterated is the runtime's as well.
      Every statement below holds for every runtime.
    - Python [int] is [Z]; [len] is a [nat].
    - [set] is stdpp's [gset]; a [dict] with a fixed key set is a record, the
      override table [CAT_PRIORITY] is a [gmap].
    - The page object tree (what the xpath/css selectors return) is given as
      data; the selectors' results are computed from that data.
    - [response.urljoin] and [response.follow] are methods of the
      response; each either returns or raises, and an exception ends the
      generator that called it.
    - [re.search] / [re.findall] are interpreted by a small backtracking
      matcher over exactly the constructs the source patterns use.
    - [list.sort] is a stable sort; it is modelled by stable insertion sort,
      which computes the same list as any other stable sort.
    - A generator callback is run until it returns or raises: its effect
      is the new spider state together with the list of values it yielded
      up to that point. *)

From Stdlib Require Import String Ascii List ZArith NArith Lia Bool Sorted Permutation.
From stdpp Require Import gmap.
Import ListNotations.
Set Warnings "-clear-no-such-hyp,-notation-for-abbreviation".
Open Scope list_scope.

(** ** [list.sort]: stable insertion sort for a boolean order *)

Section StableSort.
Context {A : Type}.
Variable le : A -> A -> bool.

(** [x] goes in front of the first element it is not greater than, so
    an element keeps its place before the equal ones that followed it. *)
Fixpoint insert (x : A) (l : list A) : list A :=
  match l with
  | [] => [x]
  | y :: l' => if le x y then x :: l else y :: insert x l'
  end.

Fixpoint isort (l : list A) : list A :=
  match l with
  | [] => []
  | x :: l' => insert x (isort l')
  end.
End StableSort.

(** The order obtained by comparing with [le1] and breaking its ties
    with [le2]. *)
Definition lex {A : Type} (le1 le2 : A -> A -> bool) (x y : A) : bool :=
  le1 x y && (negb (le1 y x) || le2 x y).

(** A boolean order that compares any two elements, and one that
    composes. *)
Definition total_b {A : Type} (le : A -> A -> bool) : Prop :=
  forall x y, le x y = true \/ le y x = true.

Definition trans_b {A : Type} (le : A -> A -> bool) : Prop :=
  forall x y z, le x y = true -> le y z = true -> le x z = true.

(** ** Text primitives of the Python runtime *)

Module Text.

(** A [str]: its code points. *)
Notation str := (list N) (only parsing).

(** [ord(a)] for an ASCII character, and an ASCII literal. *)
Definition ord (a : ascii) : N := N_of_ascii a.
Arguments ord _%_char.

Definition u (s : string) : str := map N_of_ascii (list_ascii_of_string s).
Arguments u _%_string.

Definition in_range (lo hi c : N) : bool := ((lo <=? c) && (c <=? hi))%N.

Definition is_ascii (c : N) : bool := (c <? 128)%N.

(** The ranges [0-9], [A-Z] and [a-z]. *)
Definition is_digit (c : N) : bool := in_range 48 57 c.
Definition is_upper (c : N) : bool := in_range 65 90 c.
Definition is_lower (c : N) : bool := in_range 97 122 c.

(** [chr(ord(c)).lower()] for an ASCII character. *)
Definition lower_char (c : N) : N := if is_upper c then (c + 32)%N else c.

(** What the interpreter decides outside ASCII: white space, word
    characters and decimal digits among the code points from 128 on,
    [str.lower] on a string that is not pure ASCII, and the place of each
    element in the iteration order of [set(l)]. *)
Record runtime : Type := Runtime {
  uni_space : N -> bool;
  uni_word : N -> bool;
  uni_decimal : N -> bool;
  uni_lower : str -> str;
  set_rank : list str -> str -> N
}.

Section Runtime.
Variable rt : runtime.

(** [str.isspace] on one character: below 128 these are TAB..CR, FS..US
    and the blank. *)
Definition is_space (c : N) : bool :=
  if is_ascii c then in_range 9 13 c || in_range 28 32 c else uni_space rt c.

(** [\w] *)
Definition is_word (c : N) : bool :=
  if is_ascii c then is_digit c || is_upper c || is_lower c || (c =? ord "_")%N
  else uni_word rt c.

(** [\d] *)
Definition is_decimal (c : N) : bool :=
  if is_ascii c then is_digit c else uni_decimal rt c.

(** [s.lower()] *)
Definition lower (s : str) : str :=
  if forallb is_ascii s then map lower_char s else uni_lower rt s.

Fixpoint lstrip (s : str) : str :=
  match s with
  | [] => []
  | c :: s' => if is_space c then lstrip s' else s
  end.

Fixpoint rstrip (s : str) : str :=
  match s with
  | [] => []
  | c :: s' =>
      match rstrip s' with
      | [] => if is_space c then [] else [c]
      | r => c :: r
      end
  end.

(** [s.strip()] *)
Definition strip (s : str) : str := rstrip (lstrip s).

(** [list(set(l))]: the distinct elements of [l], in the order in which
    the set built from [l] is iterated. *)
Definition list_of_set (l : list str) : list str :=
  isort (fun a b => (set_rank rt l a <=? set_rank rt l b)%N) (remove_dups l).

End Runtime.

(** Python truthiness of a string. *)
Definition nonempty (s : str) : bool :=
  match s with [] => false | _ :: _ => true end.

(** [s.split(sep)] for a one-character separator. *)
Fixpoint split (sep : N) (s : str) : list str :=
  match s with
  | [] => [[]]
  | c :: s' =>
      if (c =? sep)%N then [] :: split sep s'
      else match split sep s' with
           | h :: t => (c :: h) :: t
           | [] => [[c]]
           end
  end.

(** [sep.join(parts)] *)
Fixpoint join (sep : str) (parts : list str) : str :=
  match parts with
  | [] => []
  | [x] => x
  | x :: rest => x ++ sep ++ join sep rest
  end.

(** [s.startswith(p)] *)
Fixpoint starts_with (p s : str) : bool :=
  match p, s with
  | [], _ => true
  | _ :: _, [] => false
  | a :: p', b :: s' => (a =? b)%N && starts_with p' s'
  end.

Fixpoint replace_from (old new s : str) (skip : nat) : str :=
  match s with
  | [] => []
  | c :: s' =>
      match skip with
      | S k => replace_from old new s' k
      | O =>
          if starts_with old s
          then new ++ replace_from old new s' (length old - 1)
          else c :: replace_from old new s' 0
      end
  end.

(** [s.replace(old, new)] for a non-empty [old]. *)
Definition replace (old new s : str) : str := replace_from old new s 0.

(** [old in s] *)
Fixpoint contains (old s : str) : bool :=
  starts_with old s ||
  match s with
  | [] => false
  | _ :: s' => contains old s'
  end.

(** [a <= b] on strings: code point by code point. *)
Fixpoint str_leb (a b : str) : bool :=
  match a, b with
  | [], _ => true
  | _ :: _, [] => false
  | x :: a', y :: b' =>
      if (x <? y)%N then true
      else if (y <? x)%N then false
      else str_leb a' b'
  end.

End Text.

(** [l.sort(key=k)] with integer keys. *)
Definition sort_by_int {A : Type} (k : A -> Z) (l : list A) : list A :=
  isort (fun a b => (k a <=? k b)%Z) l.

(** [l.sort(key=k, reverse=True)] with string keys: descending, and equal
    keys keep their original order. *)
Definition sort_by_str_desc {A : Type} (k : A -> list N) (l : list A) : list A :=
  isort (fun a b => Text.str_leb (k b) (k a)) l.

(** ** The fragment of [re] used by the spider *)

Module Re.
Import Text.

Inductive atom : Type :=
| Chr (c : N)              (* a literal character *)
| Cls (p : N -> bool)      (* one character of a class *)
| Opt (c : N)              (* [c?], greedy *)
| Plus (p : N -> bool)     (* [class+], greedy *)
| Bnd                      (* [\b] *)
| Eos                      (* [$] *)
| Open                     (* opening parenthesis of group 1 *)
| Close.                   (* closing parenthesis of group 1 *)

Definition regex := list atom.

Definition lits (s : string) : regex := map Chr (u s).
Arguments lits _%_string.

(** [class{n}] *)
Definition rep (n : nat) (p : N -> bool) : regex := repeat (Cls p) n.

(** A successful match: the text of group 1 and the unread rest. *)
Definition result : Type := str * str.

Definition push (inside : bool) (c : N) (cap : str) : str :=
  if inside then cap ++ [c] else cap.

(** [$] holds at the end and just before a final line feed. *)
Definition at_end (s : str) : bool :=
  match s with
  | [] => true
  | [c] => (c =? 10)%N
  | _ => false
  end.

(** One or more characters of [p], longest run first, then the
    continuation [k]; a failing continuation gives one character back. *)
Fixpoint plus_loop (p : N -> bool)
    (k : option N -> str -> str -> option result)
    (inside : bool) (s cap : str) : option result :=
  match s with
  | [] => None
  | c :: s' =>
      if p c then
        match plus_loop p k inside s' (push inside c cap) with
        | Some m => Some m
        | None => k (Some c) s' (push inside c cap)
        end
      else None
  end.

Section Matcher.
Variable rt : runtime.

Definition word_before (prev : option N) : bool :=
  match prev with Some c => is_word rt c | None => false end.

Definition word_after (s : str) : bool :=
  match s with c :: _ => is_word rt c | [] => false end.

(** Match [r] at the current position.  [prev] is the character just
    before it, [cap] the text of group 1 collected so far. *)
Fixpoint run (r : regex) (inside : bool) (prev : option N)
    (s cap : str) : option result :=
  match r with
  | [] => Some (cap, s)
  | a :: r' =>
      match a with
      | Chr c =>
          match s with
          | d :: s' =>
              if (c =? d)%N then run r' inside (Some d) s' (push inside d cap)
              else None
          | [] => None
          end
      | Cls p =>
          match s with
          | d :: s' =>
              if p d then run r' inside (Some d) s' (push inside d cap)
              else None
          | [] => None
          end
      | Opt c =>
          let with_c :=
            match s with
            | d :: s' =>
                if (c =? d)%N then run r' inside (Some d) s' (push inside d cap)
                else None
            | [] => None
            end in
          match with_c with
          | Some m => Some m
          | None => run r' inside prev s cap
          end
      | Plus p =>
          plus_loop p (fun prev' s' cap' => run r' inside prev' s' cap') inside s cap
      | Bnd =>
          if xorb (word_before prev) (word_after s)
          then run r' inside prev s cap else None
      | Eos => if at_end s then run r' inside prev s cap else None
      | Open => run r' true prev s []
      | Close => run r' false prev s cap
      end
  end.

Definition match_here (r : regex) (prev : option N) (s : str)
  : option result := run r false prev s [].

(** Leftmost match at or after the current position. *)
Fixpoint search_at (r : regex) (prev : option N) (s : str)
  : option result :=
  match match_here r prev s with
  | Some m => Some m
  | None =>
      match s with
      | c :: s' => search_at r (Some c) s'
      | [] => None
      end
  end.

(** [re.search(r, s)]: group 1 of the leftmost match, if any. *)
Definition search (r : regex) (s : str) : option str :=
  fst <$> search_at r None s.

(** Python truthiness of [re.search(r, s)]. *)
Definition matches (r : regex) (s : str) : bool :=
  match search_at r None s with Some _ => true | None => false end.

Fixpoint findall_at (r : regex) (prev : option N) (s : str)
    (skip : nat) : list str :=
  match s with
  | [] =>
      match skip, match_here r prev [] with
      | O, Some (g, _) => [g]
      | _, _ => []
      end
  | c :: s' =>
      match skip with
      | S k => findall_at r (Some c) s' k
      | O =>
          match match_here r prev s with
          | Some (g, rest) =>
              g :: findall_at r (Some c) s' (length s - length rest - 1)
          | None => findall_at r (Some c) s' 0
          end
      end
  end.

(** [re.findall(r, s)] for a pattern with one group: the group texts of
    the successive non-overlapping matches, left to right. *)
Definition findall (r : regex) (s : str) : list str :=
  findall_at r None s 0.

End Matcher.
End Re.

(** ** The spider *)

Module Spider.
Import Text Re.

(** *** Patterns, as written in the source *)

(** [r"/list/([^/]+)/new"] *)
Definition re_list : regex :=
  lits "/list/" ++ [Open; Plus (fun c => negb (c =? ord "/")%N); Close] ++ lits "/new".

(** [r"\bnew submissions?\b"] *)
Definition re_new : regex := [Bnd] ++ lits "new submission" ++ [Opt (ord "s"); Bnd].

(** [r"\bcross-?lists?\b"] *)
Definition re_crosslist : regex :=
  [Bnd] ++ lits "cross" ++ [Opt (ord "-")] ++ lits "list" ++ [Opt (ord "s"); Bnd].

(** [r"\bcross submissions?\b"] *)
Definition re_cross_sub : regex :=
  [Bnd] ++ lits "cross submission" ++ [Opt (ord "s"); Bnd].

(** [r"\breplacements?\b"] *)
Definition re_repl : regex := [Bnd] ++ lits "replacement" ++ [Opt (ord "s"); Bnd].

(** [r"\breplacement submissions?\b"] *)
Definition re_repl_sub : regex :=
  [Bnd] ++ lits "replacement submission" ++ [Opt (ord "s"); Bnd].

(** [r"/abs/([0-9]{4}\.[0-9]{5})"] *)
Definition re_id : regex :=
  lits "/abs/" ++ [Open] ++ rep 4 is_digit ++ [Chr (ord ".")] ++ rep 5 is_digit
  ++ [Close].

(** [r"\(([a-z\-]+\.[A-Z]{2})\)"] *)
Definition re_code : regex :=
  [Chr (ord "("); Open; Plus (fun c => is_lower c || (c =? ord "-")%N); Chr (ord ".")]
  ++ rep 2 is_upper ++ [Close; Chr (ord ")")].

(** [r"/abs/\d{4}\.\d{5}(v\d+)$"] *)
Definition re_canonical (rt : runtime) : regex :=
  lits "/abs/" ++ rep 4 (is_decimal rt) ++ [Chr (ord ".")] ++ rep 5 (is_decimal rt)
  ++ [Open; Chr (ord "v"); Plus (is_decimal rt); Close; Eos].

(** [r"\b(v\d+)\b"] *)
Definition re_h1 (rt : runtime) : regex :=
  [Bnd; Open; Chr (ord "v"); Plus (is_decimal rt); Close; Bnd].

(** *** Data *)


(** [self.CAT_PRIORITY] *)
Definition CAT_PRIORITY : gmap str Z :=
  <[u "math.QA" := 0%Z]> (<[u "math.RT" := 1%Z]> ∅).

(** [self.CAT_PRIORITY.get(c, 99)] *)
Definition priority (c : str) : Z := default 99%Z (CAT_PRIORITY !! c).

(** The dictionary [meta_item] built in [parse]. *)
Record meta_item : Type := MetaItem {
  id : str;
  section : str;
  abs : str;
  pdf : str;
  categories : list str;
  cat_priority : Z;
  section_rank : Z
}.

(** The buffered dictionary: [dict(meta_item)] with ["version"] added. *)
Record item : Type := Item {
  meta : meta_item;
  version : str
}.

(** The yielded dictionary, after the two sort keys are popped. *)
Record record : Type := Record_ {
  r_id : str;
  r_section : str;
  r_abs : str;
  r_pdf : str;
  r_categories : list str;
  r_version : str
}.

(** The attributes of the spider object. *)
Record spider : Type := SpiderState {
  target_categories : gset str;
  start_urls : list str;
  seen_ids : gset str;
  _buffer : list item
}.

(** An [<a>] element with its [title] and [href] attributes. *)
Record anchor : Type := Anchor {
  a_title : option str;
  a_href : option str
}.

(** A [<dt>]: its anchors in document order.  A [<dd>]: the text nodes
    under [.list-subjects]. *)
Record dt_elem : Type := Dt { dt_anchors : list anchor }.
Record dd_elem : Type := Dd { dd_subjects : list str }.

(** The children of [div#dlpage] selected by the xpath: [<h3>] with its
    text nodes, [<dl>] with its [<dt>] and [<dd>] descendants. *)
Inductive block : Type :=
| H3 (texts : list str)
| DL (dts : list dt_elem) (dds : list dd_elem).

(** A listing response.  [urljoin h] is [None] when
    [response.urljoin(h)] raises.  [follow a] tells whether
    [response.follow(a, ...)] returns a request: the framework raises
    instead of building a request for a URL in which it finds no
    scheme. *)
Record response : Type := Response {
  url : str;
  urljoin : str -> option str;
  follow : str -> bool;
  dlpage : list block
}.

(** A detail response: the first [href] of [link[rel=canonical]] and the
    text nodes below the [<h1>] elements. *)
Record abs_response : Type := AbsResponse {
  canonical : option str;
  h1_texts : list str
}.

(** What [parse] produces for an entry that reaches the category test:
    the request it yields, or the line it logs. *)
Inductive effect : Type :=
| Follow (abs_url : str) (m : meta_item)
| LogDebug (arxiv_id : str) (paper_categories targets : gset str).

(** How the search for an entry's identifier ends: one of the first two
    [continue]s, an exception out of [response.urljoin], or the URL and
    the identifier. *)
Inductive lookup : Type :=
| Skipped
| Raised
| Found (abs_url arxiv_id : str).

(** The call out of which an exception leaves [parse]. *)
Inductive failure : Type :=
| In_urljoin
| In_follow.

(** A stretch of the scan: [seen_ids] after it, what it yielded or
    logged, and the exception that ended it, if one did. *)
Record scan : Type := Scan {
  seen_after : gset str;
  produced : list effect;
  raised : option failure
}.

Definition listing_url (cat : str) : str :=
  u "https://arxiv.org/list/" ++ cat ++ u "/new".

(** Truthiness of what a selector's [.get()] returned. *)
Definition truthy (o : option str) : bool :=
  match o with Some s => nonempty s | None => false end.

(** [paper_dt.css("a[title='Abstract']::attr(href)").get()] *)
Definition css_title_abstract (dt : dt_elem) : option str :=
  head (omap (fun a =>
          if bool_decide (a_title a = Some (u "Abstract")) then a_href a else None)
        (dt_anchors dt)).

(** [paper_dt.css("a[href*='/abs/']::attr(href)").get()] *)
Definition css_href_abs (dt : dt_elem) : option str :=
  head (omap (fun a =>
          match a_href a with
          | Some h => if contains (u "/abs/") h then Some h else None
          | None => None
          end)
        (dt_anchors dt)).

(** The link of an entry after both attempts; [None] is the first
    [continue]. *)
Definition entry_href (dt : dt_elem) : option str :=
  let abs_href := css_title_abstract dt in
  let abs_href := if truthy abs_href then abs_href else css_href_abs dt in
  if truthy abs_href then abs_href else None.

Definition with_seen (sp : spider) (seen : gset str) : spider :=
  {| target_categories := target_categories sp;
     start_urls := start_urls sp;
     seen_ids := seen;
     _buffer := _buffer sp |}.

Definition with_buffer (sp : spider) (buf : list item) : spider :=
  {| target_categories := target_categories sp;
     start_urls := start_urls sp;
     seen_ids := seen_ids sp;
     _buffer := buf |}.

(** The requests among the effects of [parse]. *)
Definition requests (out : list effect) : list meta_item :=
  omap (fun e => match e with Follow _ m => Some m | LogDebug _ _ _ => None end) out.

(** The three [items.sort] calls, in the order of the source. *)
Definition sort_items (items : list item) : list item :=
  let items := sort_by_str_desc (fun x => id (meta x)) items in
  let items := sort_by_int (fun x => section_rank (meta x)) items in
  sort_by_int (fun x => cat_priority (meta x)) items.

(** The two [pop]s. *)
Definition strip_keys (it : item) : record :=
  {| r_id := id (meta it);
     r_section := section (meta it);
     r_abs := abs (meta it);
     r_pdf := pdf (meta it);
     r_categories := categories (meta it);
     r_version := version it |}.

(** The test [len(self._buffer) >= len(self.seen_ids)]. *)
Definition release_due (buf : list item) (seen : gset str) : bool :=
  (size seen <=? length buf)%nat.

Section Callbacks.
Variable rt : runtime.

(** *** [__init__] *)

(** [[c.strip() for c in categories.split(",") if c.strip()]] *)
Definition parse_categories (categories : str) : list str :=
  map (strip rt)
      (List.filter (fun c => nonempty (strip rt c)) (split (ord ",") categories)).

(** [env] is the value of the environment variable [CATEGORIES], if set. *)
Definition init (env : option str) : spider :=
  let categories := default (u "cs.CV") env in
  let cats := parse_categories categories in
  let cats := sort_by_int priority cats in
  {| target_categories := list_to_set cats;
     start_urls := map listing_url cats;
     seen_ids := ∅;
     _buffer := [] |}.

(** *** [parse] *)

(** The identifier of an entry. *)
Definition entry_id (resp : response) (dt : dt_elem) : lookup :=
  match entry_href dt with
  | None => Skipped
  | Some abs_href =>
      match urljoin resp abs_href with
      | None => Raised
      | Some abs_url =>
          match search rt re_id abs_url with
          | None => Skipped
          | Some arxiv_id => Found abs_url arxiv_id
          end
      end
  end.

(** The pair [(current_section_text, current_section_rank)] set by an
    [<h3>]. *)
Definition heading_section (texts : list str) : str * Z :=
  let heading := strip rt (join [] texts) in
  let heading_lower := lower rt heading in
  if matches rt re_new heading_lower then (u "new", 0%Z)
  else if matches rt re_crosslist heading_lower
          || matches rt re_cross_sub heading_lower
  then (u "cross", 1%Z)
  else if matches rt re_repl heading_lower || matches rt re_repl_sub heading_lower
  then (u "repl", 2%Z)
  else (u "other", 3%Z).

(** [" ".join(t.strip() for t in subj_parts if t.strip())] *)
Definition subjects_text_of (dd : dd_elem) : str :=
  join (u " ")
    (map (strip rt) (List.filter (fun t => nonempty (strip rt t)) (dd_subjects dd))).

(** [re.findall(code_regex, subjects_text)] *)
Definition categories_in_paper (subjects_text : str) : list str :=
  findall rt re_code subjects_text.

(** [set(categories_in_paper)] *)
Definition paper_categories_of (subjects_text : str) : gset str :=
  list_to_set (categories_in_paper subjects_text).

(** The condition of the [if] that guards the request. *)
Definition wanted (targets : gset str) (subjects_text : str) : bool :=
  bool_decide (paper_categories_of subjects_text ∩ targets ≠ ∅)
  || negb (nonempty subjects_text).

(** The body of the inner loop for one [(paper_dt, paper_dd)] pair. *)
Definition parse_entry (targets : gset str) (resp : response)
    (prio : Z) (sec : str * Z) (seen : gset str)
    (e : dt_elem * dd_elem) : scan :=
  match entry_id resp e.1 with
  | Skipped => Scan seen [] None
  | Raised => Scan seen [] (Some In_urljoin)
  | Found abs_url arxiv_id =>
      if bool_decide (arxiv_id ∈ seen) then Scan seen [] None
      else
        let seen := seen ∪ {[arxiv_id]} in
        let subjects_text := subjects_text_of e.2 in
        let paper_categories := paper_categories_of subjects_text in
        if wanted targets subjects_text then
          let meta_item :=
            {| id := arxiv_id;
               section := sec.1;
               abs := abs_url;
               pdf := replace (u "/abs/") (u "/pdf/") abs_url;
               categories :=
                 if nonempty subjects_text
                 then list_of_set rt (categories_in_paper subjects_text)
                 else [];
               cat_priority := prio;
               section_rank := sec.2 |} in
          if follow resp abs_url
          then Scan seen [Follow abs_url meta_item] None
          else Scan seen [] (Some In_follow)
        else Scan seen [LogDebug arxiv_id paper_categories targets] None
  end.

(** [for paper_dt, paper_dd in zip(dts, dds)]; an exception leaves the
    loop with what was done before it. *)
Fixpoint parse_entries (targets : gset str) (resp : response)
    (prio : Z) (sec : str * Z) (seen : gset str)
    (es : list (dt_elem * dd_elem)) : scan :=
  match es with
  | [] => Scan seen [] None
  | e :: es' =>
      let r1 := parse_entry targets resp prio sec seen e in
      if raised r1 is Some _ then r1
      else
        let r2 := parse_entries targets resp prio sec (seen_after r1) es' in
        Scan (seen_after r2) (produced r1 ++ produced r2) (raised r2)
  end.

(** [for section in response.xpath(...)], with the section state [sec]. *)
Fixpoint parse_blocks (targets : gset str) (resp : response)
    (prio : Z) (sec : str * Z) (seen : gset str)
    (bs : list block) : scan :=
  match bs with
  | [] => Scan seen [] None
  | H3 texts :: bs' =>
      parse_blocks targets resp prio (heading_section texts) seen bs'
  | DL dts dds :: bs' =>
      let r1 := parse_entries targets resp prio sec seen (zip dts dds) in
      if raised r1 is Some _ then r1
      else
        let r2 := parse_blocks targets resp prio sec (seen_after r1) bs' in
        Scan (seen_after r2) (produced r1 ++ produced r2) (raised r2)
  end.

Definition source_cat (resp : response) : str :=
  default [] (search rt re_list (url resp)).

(** The whole loop of [parse] on a page. *)
Definition scan_page (sp : spider) (resp : response) : scan :=
  let cat_priority := priority (source_cat resp) in
  parse_blocks (target_categories sp) resp cat_priority (u "other", 3%Z)
    (seen_ids sp) (dlpage resp).

(** [parse]: the spider afterwards and what was yielded or logged,
    whether the generator returned or raised. *)
Definition parse (sp : spider) (resp : response) : spider * list effect :=
  let r := scan_page sp resp in
  (with_seen sp (seen_after r), produced r).

(** The exception [parse] ends with, if it does. *)
Definition parse_raises (sp : spider) (resp : response) : option failure :=
  raised (scan_page sp resp).

(** *** [parse_abs] *)

Definition resolve_version (resp : abs_response) : str :=
  let version := u "v1" in
  let version :=
    match canonical resp with
    | Some c =>
        if nonempty c then
          match search rt (re_canonical rt) c with
          | Some g => g
          | None => version
          end
        else version
    | None => version
    end in
  if bool_decide (version = u "v1") then
    let h1 := join (u " ") (h1_texts resp) in
    match search rt (re_h1 rt) h1 with
    | Some g => g
    | None => version
    end
  else version.

Definition parse_abs (sp : spider) (resp : abs_response) (m : meta_item)
  : spider * list record :=
  let it := {| meta := m; version := resolve_version resp |} in
  let buf := _buffer sp ++ [it] in
  if release_due buf (seen_ids sp)
  then (with_buffer sp [], map strip_keys (sort_items buf))
  else (with_buffer sp buf, []).

End Callbacks.

(** *** A crawl

    The engine is outside the source.  It is represented by the list of
    callbacks it makes: a listing response handed to [parse], or the
    response to the [k]-th request still waiting, handed to [parse_abs]
    with the [meta_item] the request carries.  Every order of answers is
    such a list. *)

Inductive event : Type :=
| Listing (resp : response)
| Detail (k : nat) (resp : abs_response).

(** The spider, the requests not yet answered, and two histories: every
    request made so far and every item yielded so far. *)
Record crawl : Type := Crawl {
  the_spider : spider;
  waiting : list meta_item;
  dispatched : list meta_item;
  emitted : list record
}.

Definition start (sp : spider) : crawl :=
  {| the_spider := sp; waiting := []; dispatched := []; emitted := [] |}.

Definition step (rt : runtime) (c : crawl) (ev : event) : crawl :=
  match ev with
  | Listing resp =>
      let '(sp, out) := parse rt (the_spider c) resp in
      {| the_spider := sp;
         waiting := waiting c ++ requests out;
         dispatched := dispatched c ++ requests out;
         emitted := emitted c |}
  | Detail k resp =>
      match waiting c !! k with
      | None => c
      | Some m =>
          let '(sp, out) := parse_abs rt (the_spider c) resp m in
          {| the_spider := sp;
             waiting := delete k (waiting c);
             dispatched := dispatched c;
             emitted := emitted c ++ out |}
      end
  end.

Definition crawl_from (rt : runtime) (c : crawl) (evs : list event) : crawl :=
  fold_left (step rt) evs c.

(** *** The engine's requests

    The engine belongs to the framework, not to the source.  Of it the
    source fixes two things, the order of [start_urls] and the cap
    [CONCURRENT_REQUESTS] of [custom_settings], and the docstring of
    [parse] relies on the two for the order in which the pages are
    handled.  The engine is taken to do what these settings ask and
    nothing more: it takes the start URLs in their order, sends a request
    only while fewer than [CONCURRENT_REQUESTS] are in progress, and hands
    each answer to the callback of its request.  Which request is sent
    when a slot is free, and when an answer comes, is left open.  What the
    engine does on the spider's side is a crawl as above. *)

Inductive request : Type :=
| Start_url (url : str)
| Detail_of (m : meta_item).

#[global] Instance meta_item_eq_dec : EqDecision meta_item.
Proof. solve_decision. Defined.

#[global] Instance request_eq_dec : EqDecision request.
Proof. solve_decision. Defined.












End Spider.

(** ** Definitions used to state the properties *)

Import Text Spider.

(** The three comparisons behind the three sorts. *)
Definition le_id_desc (a b : item) : bool := str_leb (id (meta b)) (id (meta a)).
Definition le_section (a b : item) : bool :=
  (section_rank (meta a) <=? section_rank (meta b))%Z.
Definition le_category (a b : item) : bool :=
  (cat_priority (meta a) <=? cat_priority (meta b))%Z.

(** The key tuple of the specification as one comparison: category
    priority, then section rank, then identifier, descending. *)
Definition key_leb : item -> item -> bool :=
  lex le_category (lex le_section le_id_desc).

(** One stable sort by the key tuple. *)
Definition sort_by_tuple (items : list item) : list item := isort key_leb items.

(** The same comparison spelt out on the keys. *)
Definition key_le (a b : item) : Prop :=
  (cat_priority (meta a) < cat_priority (meta b))%Z \/
  (cat_priority (meta a) = cat_priority (meta b) /\
   ((section_rank (meta a) < section_rank (meta b))%Z \/
    (section_rank (meta a) = section_rank (meta b) /\
     str_leb (id (meta b)) (id (meta a)) = true))).

(** Two items with the same key tuple. *)
Definition same_key (x y : item) : bool := key_leb x y && key_leb y x.

(** What one callback yields as items. *)
Definition batch_of (rt : runtime) (c : crawl) (ev : event) : list record :=
  match ev with
  | Listing _ => []
  | Detail k resp =>
      match waiting c !! k with
      | Some m => (parse_abs rt (the_spider c) resp m).2
      | None => []
      end
  end.

(** The batches yielded along a crawl, one per callback, in time order. *)
Fixpoint releases (rt : runtime) (c : crawl) (evs : list event)
  : list (list record) :=
  match evs with
  | [] => []
  | ev :: evs' => batch_of rt c ev :: releases rt (step rt c ev) evs'
  end.

(** An entry with no usable link, or whose link, joined to the page URL,
    has no identifier of the expected shape. *)
Definition malformed (rt : runtime) (resp : response) (dt : dt_elem) : Prop :=
  entry_href dt = None \/
  exists h abs_url,
    entry_href dt = Some h /\ urljoin resp h = Some abs_url
    /\ Re.search rt re_id abs_url = None.

(** An entry on whose link [response.urljoin] raises. *)
Definition unjoinable (resp : response) (dt : dt_elem) : Prop :=
  exists h, entry_href dt = Some h /\ urljoin resp h = None.

(** The [meta_item] that [parse] builds for an entry. *)
Definition stub_of (rt : runtime) (prio : Z) (sec : str * Z)
    (abs_url arxiv_id : str) (dd : dd_elem) : meta_item :=
  {| id := arxiv_id;
     section := sec.1;
     abs := abs_url;
     pdf := replace (u "/abs/") (u "/pdf/") abs_url;
     categories :=
       if nonempty (subjects_text_of rt dd)
       then list_of_set rt (categories_in_paper rt (subjects_text_of rt dd))
       else [];
     cat_priority := prio;
     section_rank := sec.2 |}.

(** The character a position is preceded by: the last one of [s], or
    [prev] when [s] is empty. *)
Fixpoint last_of (prev : option N) (s : str) : option N :=
  match s with
  | [] => prev
  | c :: s' => last_of (Some c) s'
  end.

(** [v] occurs in [s] with no word character directly before or after. *)
Definition whole_phrase (rt : runtime) (v s : str) : Prop :=
  exists pre post,
    s = pre ++ v ++ post
    /\ Re.word_before rt (last_of None pre) = false
    /\ Re.word_after rt post = false.

Definition mentions (rt : runtime) (phrases : list str) (s : str) : Prop :=
  exists v, In v phrases /\ whole_phrase rt v s.

Definition new_phrases : list str := [u "new submissions"; u "new submission"].
Definition cross_phrases : list str :=
  [u "cross-lists"; u "cross-list"; u "crosslists"; u "crosslist";
   u "cross submissions"; u "cross submission"].
Definition repl_phrases : list str :=
  [u "replacements"; u "replacement";
   u "replacement submissions"; u "replacement submission"].

(** The heading text the patterns are applied to. *)
Definition heading_lower (rt : runtime) (texts : list str) : str :=
  lower rt (strip rt (join [] texts)).

(** A pattern made of literal and optional characters only, and the
    finitely many strings it spells. *)
Definition plain (a : Re.atom) : Prop :=
  match a with Re.Chr _ | Re.Opt _ => True | _ => False end.

Fixpoint variants (r : Re.regex) : list str :=
  match r with
  | [] => [[]]
  | Re.Chr c :: r' => map (cons c) (variants r')
  | Re.Opt c :: r' => map (cons c) (variants r') ++ variants r'
  | _ :: r' => variants r'
  end.

(** A spelling that begins and ends with a word character. *)
Definition word_bounded (rt : runtime) (v : str) : Prop :=
  Re.word_after rt v = true /\ Re.word_before rt (last_of None v) = true.

(** The entries of list blocks, in document order. *)
Definition block_entries (bs : list block) : list (dt_elem * dd_elem) :=
  flat_map (fun b => match b with
                     | H3 _ => []
                     | DL dts dds => zip dts dds
                     end) bs.

Definition page_entries (resp : response) : list (dt_elem * dd_elem) :=
  block_entries (dlpage resp).

(** Whether an exception leaves the scan at the entry [e] when [seen]
    are the identifiers recorded: its link cannot be joined, or its
    identifier is new, it passes the category test, and no request can
    be built for its link. *)
Definition stops_at (rt : runtime) (targets : gset str) (resp : response)
    (seen : gset str) (e : dt_elem * dd_elem) : bool :=
  match entry_id rt resp e.1 with
  | Skipped => false
  | Raised => true
  | Found abs_url arxiv_id =>
      negb (bool_decide (arxiv_id ∈ seen))
      && wanted rt targets (subjects_text_of rt e.2)
      && negb (follow resp abs_url)
  end.

(** The identifiers a scan reads from these entries when it starts with
    [seen] recorded, in document order: those of the entries up to the
    one at which an exception leaves the scan, if any does. *)
Fixpoint entry_ids (rt : runtime) (targets : gset str) (resp : response)
    (seen : gset str) (es : list (dt_elem * dd_elem)) : list str :=
  match es with
  | [] => []
  | e :: es' =>
      match entry_id rt resp e.1 with
      | Skipped => entry_ids rt targets resp seen es'
      | Raised => []
      | Found _ i =>
          i :: (if stops_at rt targets resp seen e then []
                else entry_ids rt targets resp (seen ∪ {[i]}) es')
      end
  end.

(** The category test as a proposition, which [wanted] decides: the
    declared codes meet the target set, or there is no subject text. *)
Definition passes_category_test (rt : runtime) (targets : gset str)
    (dd : dd_elem) : Prop :=
  paper_categories_of rt (subjects_text_of rt dd) ∩ targets ≠ ∅
  \/ subjects_text_of rt dd = [].

(** The identifiers [parse] reads from a listing, in document order. *)
Definition listed (rt : runtime) (sp : spider) (resp : response) : list str :=
  entry_ids rt (target_categories sp) resp (seen_ids sp) (page_entries resp).

(** An entry with an identifier for whose link [response.follow] raises. *)
Definition unfollowable (rt : runtime) (resp : response) (dt : dt_elem) : Prop :=
  exists abs_url arxiv_id,
    entry_id rt resp dt = Found abs_url arxiv_id /\ follow resp abs_url = false.

(** One stretch of the scan followed by another, unless the first one
    raised. *)
Definition and_then (r1 r2 : scan) : scan :=
  if raised r1 is Some _ then r1
  else Scan (seen_after r2) (produced r1 ++ produced r2) (raised r2).

(** What a stretch of the scan guarantees: the set only grows, the
    requests have distinct identifiers that were new and are now in the
    set, every identifier read is in the set, and the set grew at least
    by the number of requests. *)
Definition scan_ok (prio : Z) (keep : meta_item -> Prop) (ids : list str)
    (seen : gset str) (r : scan) : Prop :=
  seen ⊆ seen_after r
  /\ NoDup (map id (requests (produced r)))
  /\ (forall m, m ∈ requests (produced r) ->
        (id m ∉ seen) /\ id m ∈ seen_after r /\ id m ∈ ids
        /\ cat_priority m = prio /\ keep m)
  /\ (forall i, i ∈ ids -> i ∈ seen_after r)
  /\ size seen + length (requests (produced r)) <= size (seen_after r).

(** The identifiers of the requests not yet answered, of the buffered
    items and of the records already yielded. *)
Definition in_flight (c : crawl) : list str :=
  map id (waiting c)
  ++ map (fun it => id (meta it)) (_buffer (the_spider c))
  ++ map r_id (emitted c).

(** The invariant of a crawl. *)
Definition crawl_ok (c : crawl) : Prop :=
  NoDup (map id (dispatched c))
  /\ (forall m, m ∈ dispatched c -> id m ∈ seen_ids (the_spider c))
  /\ Permutation (in_flight c) (map id (dispatched c))
  /\ length (dispatched c) <= size (seen_ids (the_spider c)).

Definition is_detail (ev : event) : Prop :=
  match ev with Detail _ _ => True | Listing _ => False end.


(** ** Further definitions used to state properties *)

(** Every character of [s] is in the class [p]. *)
Definition all_chars (p : N -> bool) (s : str) : bool := forallb p s.

(** What a group collects from the text [w] it runs over. *)
Definition takes (inside : bool) (w cap : str) : str :=
  if inside then cap ++ w else cap.

(** The shape [dddd.ddddd] of an identifier. *)
Definition is_arxiv_id (i : str) : Prop :=
  exists a b,
    i = a ++ u "." ++ b
    /\ length a = 4 /\ length b = 5
    /\ all_chars is_digit a = true /\ all_chars is_digit b = true.

(** The shape of a revision tag: [v] followed by characters of [\d]. *)
Definition is_revision_tag (rt : runtime) (v : str) : Prop :=
  exists ds,
    v = ord "v" :: ds /\ ds <> [] /\ all_chars (is_decimal rt) ds = true.

(** The identifier an effect of [parse] is about. *)
Definition effect_id (e : effect) : str :=
  match e with
  | Follow _ m => id m
  | LogDebug i _ _ => i
  end.

(** What a stretch of the scan does, exactly: the set becomes the old
    set with the identifiers read; the effects are about new
    identifiers, one effect each, in the order in which the identifiers
    are read; and every new identifier has its effect, but for the last
    one read when the request for it could not be built. *)
Definition scan_exact (ids : list str) (seen : gset str) (r : scan) : Prop :=
  seen_after r = seen ∪ list_to_set ids
  /\ NoDup (map effect_id (produced r))
  /\ (forall i, i ∈ map effect_id (produced r) -> i ∈ seen_after r /\ (i ∉ seen))
  /\ (forall i, i ∈ seen_after r -> i ∉ seen ->
        i ∈ map effect_id (produced r)
        \/ (raised r = Some In_follow /\ last ids = Some i))
  /\ (raised r = Some In_follow ->
      exists i, last ids = Some i /\ (i ∉ seen)
                /\ (i ∉ map effect_id (produced r)))
  /\ map effect_id (produced r) `sublist_of` ids.

(** The shape of a declared subject code: lower-case letters and
    hyphens, a dot, two capitals. *)
Definition is_code (g : str) : Prop :=
  exists w a b,
    g = w ++ [ord "."; a; b]
    /\ w <> []
    /\ all_chars (fun c => is_lower c || (c =? ord "-")%N) w = true
    /\ is_upper a = true /\ is_upper b = true.

(** The four values of the section state. *)
Definition section_states : list (str * Z) :=
  [(u "new", 0%Z); (u "cross", 1%Z); (u "repl", 2%Z); (u "other", 3%Z)].

(** What holds of every [meta_item] that [parse] hands to a request. *)
Definition stub_ok (targets : gset str) (m : meta_item) : Prop :=
  is_arxiv_id (id m)
  /\ (exists pre post, abs m = pre ++ u "/abs/" ++ id m ++ post)
  /\ pdf m = replace (u "/abs/") (u "/pdf/") (abs m)
  /\ (section m, section_rank m) ∈ section_states
  /\ NoDup (categories m)
  /\ Forall is_code (categories m)
  /\ (categories m = [] \/ exists c, c ∈ categories m /\ c ∈ targets)
  /\ (exists cat, cat_priority m = priority cat).

(** The same for a yielded record, whose sort keys are gone. *)
Definition record_ok (rt : runtime) (targets : gset str) (r : record) : Prop :=
  is_arxiv_id (r_id r)
  /\ (exists pre post, r_abs r = pre ++ u "/abs/" ++ r_id r ++ post)
  /\ r_pdf r = replace (u "/abs/") (u "/pdf/") (r_abs r)
  /\ r_section r ∈ [u "new"; u "cross"; u "repl"; u "other"]
  /\ NoDup (r_categories r)
  /\ Forall is_code (r_categories r)
  /\ (r_categories r = [] \/ exists c, c ∈ r_categories r /\ c ∈ targets)
  /\ is_revision_tag rt (r_version r).

(** A string that neither begins nor ends with white space. *)
Definition first_char (s : str) : option N :=
  match s with c :: _ => Some c | [] => None end.

Definition blank_edge (rt : runtime) (o : option N) : bool :=
  match o with Some c => is_space rt c | None => false end.

Definition trimmed (rt : runtime) (s : str) : Prop :=
  blank_edge rt (first_char s) = false /\ blank_edge rt (last_of None s) = false.

(** ** Sample pages *)

Module Sample.
Import Text.

(** A runtime in which nothing above 127 is white space, a word
    character or a digit, [lower] leaves other strings alone, and a set
    is iterated in the order of first insertion. *)
Definition plain_runtime : runtime :=
  {| uni_space := fun _ => false;
     uni_word := fun _ => false;
     uni_decimal := fun _ => false;
     uni_lower := fun s => s;
     set_rank := fun _ _ => 0%N |}.

(** A runtime that knows the white space of Unicode, the letters of
    Latin-1 with their lower case, and the Arabic-Indic digits. *)
Definition unicode_runtime : runtime :=
  {| uni_space := fun c =>
       bool_decide (c ∈ [133; 160; 5760; 8232; 8233; 8239; 8287; 12288]%N)
       || in_range 8192 8202 c;
     uni_word := fun c =>
       in_range 192 214 c || in_range 216 246 c || in_range 248 255 c
       || bool_decide (c ∈ [170; 181; 186]%N) || in_range 1632 1641 c;
     uni_decimal := fun c => in_range 1632 1641 c;
     uni_lower := map (fun c =>
       if in_range 192 214 c || in_range 216 222 c then (c + 32)%N
       else lower_char c);
     set_rank := fun _ _ => 0%N |}.

(** [response.urljoin] of the listing of [cat] served from
    [https://arxiv.org], on the kinds of link the samples use: a link
    that starts with [//] names a host, and a host with an opening
    bracket that is not closed makes [urljoin] raise; a link that starts
    with one slash is a path on the same host; a link with a scheme of
    its own, [mailto:] among them, stands for itself; any other is taken
    as a path relative to the listing.  Links with dot segments, a query
    or a fragment are not among the samples and are not resolved. *)
Definition join_arxiv (cat href : str) : option str :=
  if starts_with (u "//") href then
    if contains (u "[") href && negb (contains (u "]") href) then None
    else Some (u "https:" ++ href)
  else if starts_with (u "/") href then Some (u "https://arxiv.org" ++ href)
  else if contains (u "://") href || starts_with (u "mailto:") href then Some href
  else Some (u "https://arxiv.org/list/" ++ cat ++ u "/" ++ href).

(** [response.follow] as the framework has it: it builds a request for a
    URL in which [://] occurs, and for an [about:] or [data:] URL; for
    any other the constructor of the request raises. *)
Definition requestable (a : str) : bool :=
  contains (u "://") a || starts_with (u "about:") a || starts_with (u "data:") a.

(** A listing entry as arXiv renders it. *)
Definition entry (i subjects : string) : dt_elem * dd_elem :=
  (Dt [Anchor (Some (u "Abstract")) (Some (u "/abs/" ++ u i))],
   Dd [u "Subjects:"; u subjects]).

(** An entry whose [<dt>] carries no link at all. *)
Definition broken_entry : dt_elem * dd_elem :=
  (Dt [Anchor None None], Dd [u "Subjects:"; u "Quantum Algebra (math.QA)"]).

(** An entry whose link cannot be joined to the page URL. *)
Definition unjoinable_entry : dt_elem * dd_elem :=
  (Dt [Anchor (Some (u "Abstract")) (Some (u "//[/abs/2401.0000"))],
   Dd [u "Subjects:"; u "Quantum Algebra (math.QA)"]).

(** An entry whose link can be joined and holds an identifier, but for
    which no request can be built. *)
Definition mail_entry : dt_elem * dd_elem :=
  (Dt [Anchor (Some (u "Abstract")) (Some (u "mailto:list/abs/2401.00006"))],
   Dd [u "Subjects:"; u "Quantum Algebra (math.QA)"]).

Definition dl (es : list (dt_elem * dd_elem)) : block :=
  DL (map fst es) (map snd es).

Definition page (cat : string) (bs : list block) : response :=
  {| url := listing_url (u cat);
     urljoin := join_arxiv (u cat);
     follow := requestable;
     dlpage := bs |}.

(** A detail page with no canonical link and no heading. *)
Definition bare_abs : abs_response := {| canonical := None; h1_texts := [] |}.

Definition qa_rt (rt : runtime) : spider := init rt (Some (u "math.RT,math.QA")).

Definition page_qa : response :=
  page "math.QA"
    [H3 [u "New submissions (showing 1 of 1 entries)"];
     dl [entry "2401.00002" "Quantum Algebra (math.QA)"]].

Definition page_rt : response :=
  page "math.RT"
    [H3 [u "New submissions (showing 1 of 1 entries)"];
     dl [entry "2401.00001" "Representation Theory (math.RT)"]].

(** One category after the other, each request answered before the next
    listing arrives. *)
Definition one_by_one : list event :=
  [Listing page_qa; Detail 0 bare_abs; Listing page_rt; Detail 0 bare_abs].

(** A detail page whose canonical link names revision 1 and whose title
    happens to contain a revision-like word. *)
Definition abs_v1_titled : abs_response :=
  {| canonical := Some (u "https://arxiv.org/abs/2401.00001v1");
     h1_texts := [u "Title:"; u "Faster detection with Mask v2"] |}.

(** An identifier shown by both listings with a foreign subject. *)
Definition page_qa_foreign : response :=
  page "math.QA"
    [H3 [u "New submissions (showing 1 of 1 entries)"];
     dl [entry "2401.00009" "Computer Vision (cs.CV)"]].

Definition page_rt_foreign : response :=
  page "math.RT"
    [H3 [u "Cross submissions (showing 1 of 1 entries)"];
     dl [entry "2401.00009" "Computer Vision (cs.CV)"]].

(** Two target categories, one of them written without a dot. *)
Definition qa_mathph (rt : runtime) : spider := init rt (Some (u "math.QA,math-ph")).

Definition page_mathph : response :=
  page "math-ph"
    [H3 [u "New submissions (showing 2 of 2 entries)"];
     dl [entry "2401.00004" "Mathematical Physics (math-ph)";
         entry "2401.00003"
           "Mathematical Physics (math-ph); Quantum Algebra (math.QA)"]].

(** Both listings first, then the answers. *)
Definition listings_first : list event :=
  [Listing page_qa; Listing page_mathph; Detail 0 bare_abs; Detail 0 bare_abs].

(** A listing whose first entry has a link that cannot be joined. *)
Definition page_unjoinable : response :=
  page "math.QA"
    [H3 [u "New submissions (showing 2 of 2 entries)"];
     dl [unjoinable_entry; entry "2401.00002" "Quantum Algebra (math.QA)"]].

(** The same listing with a linkless entry in its place. *)
Definition page_linkless : response :=
  page "math.QA"
    [H3 [u "New submissions (showing 2 of 2 entries)"];
     dl [broken_entry; entry "2401.00002" "Quantum Algebra (math.QA)"]].

(** The second entry of [page_unjoinable], cross-listed under the other
    target category. *)
Definition page_rt_cross : response :=
  page "math.RT"
    [H3 [u "Cross submissions (showing 1 of 1 entries)"];
     dl [entry "2401.00002" "Quantum Algebra (math.QA)"]].

(** A listing whose first entry has a link no request can be built
    for. *)
Definition page_mail : response :=
  page "math.QA"
    [H3 [u "New submissions (showing 2 of 2 entries)"];
     dl [mail_entry; entry "2401.00002" "Quantum Algebra (math.QA)"]].

End Sample.

(** ** Facts about the stable sort *)

Section SortFacts.
Context {A : Type}.

Lemma insert_Permutation (le : A -> A -> bool) x l :
  Permutation (insert le x l) (x :: l).
Proof.
  induction l as [|y l IH]; simpl; [reflexivity|].
  destruct (le x y); [reflexivity|].
  rewrite IH. apply perm_swap.
Qed.

Lemma isort_Permutation (le : A -> A -> bool) l :
  Permutation (isort le l) l.
Proof.
  induction l as [|x l IH]; simpl; [reflexivity|].
  rewrite insert_Permutation. now constructor.
Qed.

Lemma isort_In (le : A -> A -> bool) l z : In z (isort le l) <-> In z l.
Proof.
  split; apply Permutation_in;
    [apply isort_Permutation | symmetry; apply isort_Permutation].
Qed.

Lemma isort_length (le : A -> A -> bool) l : length (isort le l) = length l.
Proof. apply Permutation_length, isort_Permutation. Qed.

(** [insert] only asks how the new element compares with the old ones. *)
Lemma insert_ext (le le' : A -> A -> bool) x l :
  (forall z, In z l -> le x z = le' x z) ->
  insert le x l = insert le' x l.
Proof.
  induction l as [|y l IH]; intros H; simpl; [reflexivity|].
  rewrite <- (H y) by (left; reflexivity).
  destruct (le x y); [reflexivity|].
  f_equal. apply IH. intros z Hz. apply H. now right.
Qed.

(** Two insertions commute when the elements are strictly ordered. *)
Lemma insert_comm (le : A -> A -> bool) a b l :
  trans_b le -> le a b = true -> le b a = false ->
  insert le a (insert le b l) = insert le b (insert le a l).
Proof.
  intros Htr Hab Hba.
  induction l as [|z l IH]; simpl.
  - now rewrite Hab, Hba.
  - destruct (le b z) eqn:Hbz.
    + rewrite (Htr _ _ _ Hab Hbz). simpl. now rewrite Hab, Hba, Hbz.
    + destruct (le a z) eqn:Haz; simpl.
      * now rewrite Haz, Hba, Hbz.
      * now rewrite Haz, Hbz, IH.
Qed.

Section Sorted.
Variable le : A -> A -> bool.
Hypothesis le_total : total_b le.
Hypothesis le_trans : trans_b le.

Lemma insert_sorted x l :
  StronglySorted (fun a b => le a b = true) l ->
  StronglySorted (fun a b => le a b = true) (insert le x l).
Proof.
  induction 1 as [|y l Hs IH Hall]; simpl.
  - repeat constructor.
  - destruct (le x y) eqn:Hxy.
    + constructor; [now constructor|].
      constructor; [exact Hxy|].
      eapply List.Forall_impl; [|exact Hall].
      intros z Hz. now apply le_trans with y.
    + constructor; [exact IH|].
      apply List.Forall_forall. intros z Hz.
      apply (Permutation_in _ (insert_Permutation le x l)) in Hz.
      destruct Hz as [<-|Hz].
      * destruct (le_total x y) as [H|H]; [congruence|exact H].
      * rewrite List.Forall_forall in Hall. auto.
Qed.

Lemma isort_sorted l : StronglySorted (fun a b => le a b = true) (isort le l).
Proof.
  induction l as [|x l IH]; simpl; [constructor|].
  now apply insert_sorted.
Qed.
End Sorted.

Section Lex.
Variables le1 le2 : A -> A -> bool.
Hypothesis le1_total : total_b le1.
Hypothesis le1_trans : trans_b le1.
Hypothesis le2_total : total_b le2.
Hypothesis le2_trans : trans_b le2.

Lemma lex_total : total_b (lex le1 le2).
Proof.
  intros x y. unfold lex.
  destruct (le1_total x y) as [H|H], (le2_total x y) as [H'|H'];
    rewrite ?H, ?H'; destruct (le1 x y), (le1 y x); simpl; auto; discriminate.
Qed.

Lemma lex_trans : trans_b (lex le1 le2).
Proof.
  intros x y z. unfold lex.
  rewrite !andb_true_iff, !orb_true_iff, !negb_true_iff.
  intros [Hxy Hxy'] [Hyz Hyz'].
  split; [now apply le1_trans with y|].
  destruct (le1 z x) eqn:Hzx; [right|now left].
  assert (Hyx : le1 y x = true) by now apply le1_trans with z.
  assert (Hzy : le1 z y = true) by now apply le1_trans with x.
  destruct Hxy' as [?|Hxy']; [congruence|].
  destruct Hyz' as [?|Hyz']; [congruence|].
  now apply le2_trans with y.
Qed.

(** Where [le2] already puts [x] first, [le1] and the combined order
    insert [x] at the same place. *)
Lemma insert_lex_below x l :
  (forall z, In z l -> le2 x z = true) ->
  insert le1 x l = insert (lex le1 le2) x l.
Proof.
  intros H. apply insert_ext. intros z Hz. unfold lex.
  rewrite (H z Hz), orb_true_r, andb_true_r. reflexivity.
Qed.

Lemma isort_insert_lex x m :
  StronglySorted (fun a b => le2 a b = true) m ->
  isort le1 (insert le2 x m) = insert (lex le1 le2) x (isort le1 m).
Proof.
  induction 1 as [|y m Hs IH Hall]; simpl; [reflexivity|].
  rewrite List.Forall_forall in Hall.
  destruct (le2 x y) eqn:Hxy; simpl.
  - apply insert_lex_below. intros z Hz.
    apply (Permutation_in _ (insert_Permutation le1 y (isort le1 m))) in Hz.
    destruct Hz as [<-|Hz]; [exact Hxy|].
    apply isort_In in Hz. apply le2_trans with y; auto.
  - assert (Hyx : le2 y x = true)
      by (destruct (le2_total x y); congruence).
    rewrite IH.
    rewrite (insert_lex_below y (insert (lex le1 le2) x (isort le1 m))).
    2:{ intros z Hz.
        apply (Permutation_in _ (insert_Permutation _ x (isort le1 m))) in Hz.
        destruct Hz as [<-|Hz]; [exact Hyx|].
        apply isort_In in Hz. auto. }
    rewrite (insert_lex_below y (isort le1 m)).
    2:{ intros z Hz. apply isort_In in Hz. auto. }
    assert (Hxy' : lex le1 le2 x y = le1 x y && negb (le1 y x)).
    { unfold lex. now rewrite Hxy, orb_false_r. }
    assert (Hyx' : lex le1 le2 y x = le1 y x).
    { unfold lex. now rewrite Hyx, orb_true_r, andb_true_r. }
    destruct (le1 y x) eqn:E.
    + apply insert_comm; [apply lex_trans|congruence|].
      rewrite Hxy'. apply andb_false_r.
    + symmetry. apply insert_comm; [apply lex_trans| |congruence].
      rewrite Hxy'. destruct (le1_total x y) as [->|?]; [reflexivity|congruence].
Qed.

(** Sorting by the minor key and then, stably, by the major key is
    sorting once by the combined order. *)
Lemma isort_lex l : isort le1 (isort le2 l) = isort (lex le1 le2) l.
Proof.
  induction l as [|x l IH]; simpl; [reflexivity|].
  rewrite isort_insert_lex by now apply isort_sorted.
  now rewrite IH.
Qed.
End Lex.
End SortFacts.

(** ** Order facts for the three sort keys *)

Lemma str_leb_total (a b : list N) : str_leb a b = true \/ str_leb b a = true.
Proof.
  revert b. induction a as [|x a IH]; intros [|y b]; simpl; auto.
  destruct (N.ltb_spec x y), (N.ltb_spec y x); auto; lia.
Qed.

Lemma str_leb_trans : trans_b str_leb.
Proof.
  intros a. induction a as [|x a IH]; intros [|y b] [|z c]; simpl;
    try congruence.
  destruct (N.ltb_spec x y), (N.ltb_spec y x), (N.ltb_spec y z),
    (N.ltb_spec z y), (N.ltb_spec x z), (N.ltb_spec z x);
    try congruence; try lia.
  apply IH.
Qed.

Section KeyOrders.
Context {A : Type}.

Lemma by_int_total (k : A -> Z) : total_b (fun a b => (k a <=? k b)%Z).
Proof. intros x y. rewrite !Z.leb_le. lia. Qed.

Lemma by_int_trans (k : A -> Z) : trans_b (fun a b => (k a <=? k b)%Z).
Proof. intros x y z. rewrite !Z.leb_le. lia. Qed.

Lemma by_str_desc_total (k : A -> list N) :
  total_b (fun a b => str_leb (k b) (k a)).
Proof. intros x y. destruct (str_leb_total (k x) (k y)); auto. Qed.

Lemma by_str_desc_trans (k : A -> list N) :
  trans_b (fun a b => str_leb (k b) (k a)).
Proof. intros x y z H1 H2. now apply str_leb_trans with (k y). Qed.
End KeyOrders.

(** ** The release order *)

(** A stable sort keeps the elements that compare equal to [x] in the
    order they had. *)
Lemma isort_stable {A : Type} (le : A -> A -> bool) (x : A) (l : list A) :
  trans_b le ->
  List.filter (fun z => le x z && le z x) (isort le l)
  = List.filter (fun z => le x z && le z x) l.
Proof.
  intros Htr. induction l as [|y l IH]; simpl; [reflexivity|].
  rewrite <- IH. generalize (isort le l) as m. clear IH.
  induction m as [|z m IHm]; simpl; [reflexivity|].
  destruct (le y z) eqn:Hyz; simpl; [reflexivity|].
  rewrite IHm.
  destruct (le x z && le z x) eqn:Hz; [|reflexivity].
  destruct (le x y && le y x) eqn:Hy; [|reflexivity].
  apply andb_true_iff in Hz as [Hxz _]. apply andb_true_iff in Hy as [_ Hyx].
  rewrite (Htr _ _ _ Hyx Hxz) in Hyz. discriminate.
Qed.

(** Sortedness, the elements and their order within each class of
    equal elements determine the result: every stable sort returns what
    [isort] returns. *)
Lemma stable_sort_unique {A : Type} (le : A -> A -> bool) (l1 l2 : list A) :
  total_b le -> trans_b le ->
  StronglySorted (fun a b => le a b = true) l1 ->
  StronglySorted (fun a b => le a b = true) l2 ->
  Permutation l1 l2 ->
  (forall x, List.filter (fun z => le x z && le z x) l1
             = List.filter (fun z => le x z && le z x) l2) ->
  l1 = l2.
Proof.
  intros Htot Htr Hs1. revert l2.
  induction Hs1 as [|a l1 Hs1 IH Ha]; intros l2 Hs2 Hp Hf.
  - now apply Permutation_nil in Hp.
  - destruct Hs2 as [|b l2 Hs2 Hb].
    { symmetry in Hp. now apply Permutation_nil in Hp. }
    assert (Hrefl : forall x, le x x = true)
      by (intros x; now destruct (Htot x x)).
    rewrite List.Forall_forall in Ha, Hb.
    assert (Hab : le a b = true).
    { assert (Hin : In b (a :: l1))
        by (apply (Permutation_in _ (Permutation_sym Hp)); now left).
      destruct Hin as [->|Hin]; auto. }
    assert (Hba : le b a = true).
    { assert (Hin : In a (b :: l2)) by (apply (Permutation_in _ Hp); now left).
      destruct Hin as [->|Hin]; auto. }
    assert (a = b) as <-.
    { specialize (Hf a). simpl in Hf. rewrite Hrefl, Hab, Hba in Hf.
      simpl in Hf. now injection Hf. }
    f_equal. apply IH; [exact Hs2|now apply Permutation_cons_inv in Hp|].
    intros x. specialize (Hf x). simpl in Hf.
    destruct (le x a && le a x); [now injection Hf|exact Hf].
Qed.

Lemma isort_is_the_stable_sort {A : Type} (le : A -> A -> bool) (l l' : list A) :
  total_b le -> trans_b le ->
  StronglySorted (fun a b => le a b = true) l' ->
  Permutation l' l ->
  (forall x, List.filter (fun z => le x z && le z x) l'
             = List.filter (fun z => le x z && le z x) l) ->
  l' = isort le l.
Proof.
  intros Htot Htr Hs Hp Hf.
  apply (stable_sort_unique le); auto.
  - now apply isort_sorted.
  - rewrite Hp. symmetry. apply isort_Permutation.
  - intros x. now rewrite isort_stable.
Qed.

Lemma le_section_order : total_b le_section /\ trans_b le_section.
Proof. split; [apply by_int_total | apply by_int_trans]. Qed.

Lemma le_category_order : total_b le_category /\ trans_b le_category.
Proof. split; [apply by_int_total | apply by_int_trans]. Qed.

Lemma le_id_desc_order : total_b le_id_desc /\ trans_b le_id_desc.
Proof.
  split; [apply (by_str_desc_total (fun x => id (meta x)))
         | apply (by_str_desc_trans (fun x => id (meta x)))].
Qed.

Lemma le_section_id_order :
  total_b (lex le_section le_id_desc) /\ trans_b (lex le_section le_id_desc).
Proof.
  destruct le_section_order, le_id_desc_order.
  split; [apply lex_total | apply lex_trans]; assumption.
Qed.

Lemma key_leb_order : total_b key_leb /\ trans_b key_leb.
Proof.
  destruct le_category_order, le_section_id_order.
  split; [apply lex_total | apply lex_trans]; assumption.
Qed.

Lemma key_leb_spec (a b : item) : key_leb a b = true <-> key_le a b.
Proof.
  unfold key_leb, key_le, lex, le_category, le_section, le_id_desc.
  rewrite !andb_true_iff, !orb_true_iff, !negb_true_iff, !andb_true_iff,
    !orb_true_iff, !negb_true_iff, !Z.leb_le, !Z.leb_gt.
  pose proof (Z.lt_trichotomy (cat_priority (meta a)) (cat_priority (meta b))).
  pose proof (Z.lt_trichotomy (section_rank (meta a)) (section_rank (meta b))).
  intuition lia.
Qed.

(** The three sorts of the source amount to one stable sort by the tuple. *)
Lemma sort_items_by_tuple (items : list item) :
  sort_items items = sort_by_tuple items.
Proof.
  destruct le_section_order, le_category_order, le_id_desc_order,
    le_section_id_order.
  unfold sort_items, sort_by_tuple, sort_by_int, sort_by_str_desc, key_leb.
  change (fun a b : item => str_leb (id (meta b)) (id (meta a))) with le_id_desc.
  change (fun a b : item => (section_rank (meta a) <=? section_rank (meta b))%Z)
    with le_section.
  change (fun a b : item => (cat_priority (meta a) <=? cat_priority (meta b))%Z)
    with le_category.
  rewrite (isort_lex le_section le_id_desc) by assumption.
  rewrite (isort_lex le_category (lex le_section le_id_desc)) by assumption.
  reflexivity.
Qed.

Lemma sort_items_sorted (items : list item) :
  StronglySorted key_le (sort_items items).
Proof.
  rewrite sort_items_by_tuple. unfold sort_by_tuple.
  destruct key_leb_order as [Ht Hr].
  pose proof (isort_sorted key_leb Ht Hr items) as H.
  induction H as [|x l Hs IH Hall]; constructor; [exact IH|].
  eapply List.Forall_impl; [|exact Hall].
  intros z Hz. now apply key_leb_spec.
Qed.

Lemma sort_items_Permutation (items : list item) :
  Permutation (sort_items items) items.
Proof. rewrite sort_items_by_tuple. apply isort_Permutation. Qed.

Lemma parse_abs_batch (rt : runtime) (sp : spider) (resp : abs_response) (m : meta_item) :
  let buf := _buffer sp ++ [Item m (resolve_version rt resp)] in
  parse_abs rt sp resp m =
    if release_due buf (seen_ids sp)
    then (with_buffer sp [], map strip_keys (sort_items buf))
    else (with_buffer sp buf, []).
Proof. reflexivity. Qed.

Lemma emitted_step (rt : runtime) (c : crawl) (ev : event) :
  emitted (step rt c ev) = emitted c ++ batch_of rt c ev.
Proof.
  destruct ev as [resp|k resp]; simpl.
  - destruct (parse rt (the_spider c) resp). simpl. now rewrite app_nil_r.
  - destruct (waiting c !! k) as [m|]; [|now rewrite app_nil_r].
    destruct (parse_abs rt (the_spider c) resp m). reflexivity.
Qed.

Lemma emitted_crawl (rt : runtime) (c : crawl) (evs : list event) :
  emitted (crawl_from rt c evs) = emitted c ++ concat (releases rt c evs).
Proof.
  revert c. induction evs as [|ev evs IH]; intros c; simpl.
  - now rewrite app_nil_r.
  - unfold crawl_from in *. simpl. rewrite IH, emitted_step.
    now rewrite <- app_assoc.
Qed.

Lemma batch_of_sorted (rt : runtime) (c : crawl) (ev : event) :
  batch_of rt c ev = [] \/
  exists buf, batch_of rt c ev = map strip_keys (sort_items buf).
Proof.
  destruct ev as [resp|k resp]; simpl; [now left|].
  destruct (waiting c !! k) as [m|]; [|now left].
  rewrite parse_abs_batch. simpl.
  destruct (release_due _ _); simpl; [right; eauto | now left].
Qed.

(** C1.  A release yields the buffer sorted by the key tuple (category
    priority ascending, then section rank ascending, then identifier
    descending): the three successive stable sorts of the source compute
    the one stable sort by that tuple, the result is a permutation of the
    buffer, is ordered by the tuple and keeps items with equal keys in
    buffer order.  What a crawl has emitted is the concatenation of its
    batches in time order, and a longer crawl only appends to it, so a
    record of an earlier release precedes every record of a later one. *)
Theorem release_order (rt : runtime) :
  (forall items : list item,
      sort_items items
      = sort_by_int (fun x => cat_priority (meta x))
          (sort_by_int (fun x => section_rank (meta x))
             (sort_by_str_desc (fun x => id (meta x)) items))
      /\ sort_items items = sort_by_tuple items
      /\ Permutation (sort_items items) items
      /\ StronglySorted key_le (sort_items items)
      /\ (forall x, List.filter (same_key x) (sort_items items)
                    = List.filter (same_key x) items))
  /\ (forall sp resp m,
        let buf := _buffer sp ++ [Item m (resolve_version rt resp)] in
        parse_abs rt sp resp m =
          if release_due buf (seen_ids sp)
          then (with_buffer sp [], map strip_keys (sort_items buf))
          else (with_buffer sp buf, []))
  /\ (forall c evs,
        emitted (crawl_from rt c evs) = emitted c ++ concat (releases rt c evs)
        /\ (forall evs', emitted (crawl_from rt c (evs ++ evs'))
                         = emitted (crawl_from rt c evs)
                           ++ concat (releases rt (crawl_from rt c evs) evs'))
        /\ Forall (fun batch =>
                     batch = [] \/
                     exists buf, batch = map strip_keys (sort_items buf))
             (releases rt c evs)).
Proof.
  split; [|split].
  - intros items. split; [reflexivity|].
    split; [apply sort_items_by_tuple|].
    split; [apply sort_items_Permutation|].
    split; [apply sort_items_sorted|].
    intros x. rewrite sort_items_by_tuple. unfold sort_by_tuple, same_key.
    apply isort_stable, key_leb_order.
  - intros. apply parse_abs_batch.
  - intros c evs. split; [apply emitted_crawl|]. split.
    { intros evs'. unfold crawl_from at 1. rewrite fold_left_app.
      apply emitted_crawl. }
    revert c. induction evs as [|ev evs IH]; intros c; simpl; constructor.
    + apply batch_of_sorted.
    + apply IH.
Qed.

(** ** The priority function and start-up *)

Lemma priority_cases (c : list N) :
  priority c =
    if decide (u "math.QA" = c) then 0%Z
    else if decide (u "math.RT" = c) then 1%Z else 99%Z.
Proof.
  unfold priority, CAT_PRIORITY.
  rewrite lookup_insert. case_decide; [reflexivity|].
  rewrite lookup_insert. case_decide; [reflexivity|].
  now rewrite lookup_empty.
Qed.

Lemma CAT_PRIORITY_lookup (c : list N) (r : Z) :
  CAT_PRIORITY !! c = Some r ->
  (c = u "math.QA" /\ r = 0%Z) \/ (c = u "math.RT" /\ r = 1%Z).
Proof.
  unfold CAT_PRIORITY.
  rewrite lookup_insert. case_decide as H1; [intros [= <-]; auto|].
  rewrite lookup_insert. case_decide as H2; [intros [= <-]; auto|].
  rewrite lookup_empty. discriminate.
Qed.

(** C9.  [priority] is a function on all strings: a code of the override
    table gets its configured rank, with math.QA strictly before math.RT,
    and every other code gets the one default rank 99, which is greater
    than every rank of the table. *)
Theorem priority_ranks :
  priority (u "math.QA") = 0%Z
  /\ priority (u "math.RT") = 1%Z
  /\ (priority (u "math.QA") < priority (u "math.RT"))%Z
  /\ (forall c r, CAT_PRIORITY !! c = Some r -> priority c = r /\ (r < 99)%Z)
  /\ (forall c, CAT_PRIORITY !! c = None -> priority c = 99%Z)
  /\ (forall c, exists r, priority c = r /\ (0 <= r <= 99)%Z).
Proof.
  split; [reflexivity|]. split; [reflexivity|]. split; [reflexivity|].
  split; [|split].
  - intros c r H. unfold priority. rewrite H. simpl. split; [reflexivity|].
    apply CAT_PRIORITY_lookup in H as [[_ ->]|[_ ->]]; lia.
  - intros c H. unfold priority. now rewrite H.
  - intros c. eexists; split; [reflexivity|].
    rewrite priority_cases. repeat case_decide; lia.
Qed.

Lemma init_unfold (rt : runtime) (env : option (list N)) :
  let cats := sort_by_int priority (parse_categories rt (default (u "cs.CV") env)) in
  init rt env = {| target_categories := list_to_set cats;
                   start_urls := map listing_url cats;
                   seen_ids := ∅;
                   _buffer := [] |}.
Proof. reflexivity. Qed.


(** ** Sets as lists *)

Lemma list_of_set_Permutation (rt : runtime) (l : list (list N)) :
  Permutation (list_of_set rt l) (remove_dups l).
Proof. apply isort_Permutation. Qed.

Lemma list_of_set_NoDup (rt : runtime) (l : list (list N)) :
  NoDup (list_of_set rt l).
Proof.
  rewrite list_of_set_Permutation. apply NoDup_remove_dups.
Qed.

Lemma list_of_set_elem (rt : runtime) (l : list (list N)) (c : list N) :
  c ∈ list_of_set rt l <-> c ∈ l.
Proof.
  now rewrite list_of_set_Permutation, elem_of_remove_dups.
Qed.

(** ** One listing entry *)

Section Entry.
Variables (rt : runtime) (targets : gset (list N)) (resp : response) (prio : Z)
          (sec : list N * Z).

Lemma parse_entry_skipped seen e :
  entry_id rt resp e.1 = Skipped ->
  parse_entry rt targets resp prio sec seen e = Scan seen [] None.
Proof. unfold parse_entry. now intros ->. Qed.

Lemma parse_entry_raised seen e :
  entry_id rt resp e.1 = Raised ->
  parse_entry rt targets resp prio sec seen e = Scan seen [] (Some In_urljoin).
Proof. unfold parse_entry. now intros ->. Qed.

Lemma parse_entry_seen seen e a i :
  entry_id rt resp e.1 = Found a i -> i ∈ seen ->
  parse_entry rt targets resp prio sec seen e = Scan seen [] None.
Proof.
  unfold parse_entry. intros -> Hi. now rewrite bool_decide_eq_true_2.
Qed.

Lemma parse_entry_wanted seen e a i :
  entry_id rt resp e.1 = Found a i -> i ∉ seen ->
  wanted rt targets (subjects_text_of rt e.2) = true ->
  follow resp a = true ->
  parse_entry rt targets resp prio sec seen e
  = Scan (seen ∪ {[i]}) [Follow a (stub_of rt prio sec a i e.2)] None.
Proof.
  unfold parse_entry. intros -> Hi Hw Hf.
  rewrite bool_decide_eq_false_2 by assumption. now rewrite Hw, Hf.
Qed.

(** The request cannot be built: the identifier is recorded and the
    exception leaves the loop. *)
Lemma parse_entry_unfollowed seen e a i :
  entry_id rt resp e.1 = Found a i -> i ∉ seen ->
  wanted rt targets (subjects_text_of rt e.2) = true ->
  follow resp a = false ->
  parse_entry rt targets resp prio sec seen e
  = Scan (seen ∪ {[i]}) [] (Some In_follow).
Proof.
  unfold parse_entry. intros -> Hi Hw Hf.
  rewrite bool_decide_eq_false_2 by assumption. now rewrite Hw, Hf.
Qed.

Lemma parse_entry_unwanted seen e a i :
  entry_id rt resp e.1 = Found a i -> i ∉ seen ->
  wanted rt targets (subjects_text_of rt e.2) = false ->
  parse_entry rt targets resp prio sec seen e
  = Scan (seen ∪ {[i]})
      [LogDebug i (paper_categories_of rt (subjects_text_of rt e.2)) targets] None.
Proof.
  unfold parse_entry. intros -> Hi Hw.
  rewrite bool_decide_eq_false_2 by assumption. now rewrite Hw.
Qed.

(** An iteration raises in [urljoin] exactly when the lookup does. *)
Lemma parse_entry_raises seen e :
  raised (parse_entry rt targets resp prio sec seen e) = Some In_urljoin
  <-> entry_id rt resp e.1 = Raised.
Proof.
  unfold parse_entry. destruct (entry_id rt resp e.1) as [| |a i]; simpl.
  - split; discriminate.
  - split; reflexivity.
  - destruct (bool_decide _); [simpl; split; discriminate|].
    destruct (wanted _ _ _); [|simpl; split; discriminate].
    destruct (follow resp a); simpl; split; discriminate.
Qed.

(** [stops_at] tells whether an iteration raises. *)
Lemma stops_at_raised seen e :
  stops_at rt targets resp seen e
  = if raised (parse_entry rt targets resp prio sec seen e) is Some _
    then true else false.
Proof.
  unfold stops_at, parse_entry.
  destruct (entry_id rt resp e.1) as [| |a i]; try reflexivity.
  destruct (bool_decide (i ∈ seen)); [reflexivity|].
  destruct (wanted _ _ _); [|reflexivity].
  now destruct (follow resp a).
Qed.

(** An iteration raises in [follow] exactly when the identifier is new,
    the entry passes the category test and no request can be built. *)
Lemma parse_entry_raises_follow seen e :
  raised (parse_entry rt targets resp prio sec seen e) = Some In_follow
  <-> exists a i,
        entry_id rt resp e.1 = Found a i /\ (i ∉ seen)
        /\ wanted rt targets (subjects_text_of rt e.2) = true
        /\ follow resp a = false.
Proof.
  unfold parse_entry. destruct (entry_id rt resp e.1) as [| |a i]; simpl.
  - split; [discriminate|]. intros (? & ? & ? & _). discriminate.
  - split; [discriminate|]. intros (? & ? & ? & _). discriminate.
  - case_bool_decide as Hi.
    { simpl. split; [discriminate|]. intros (? & ? & [= <- <-] & H & _). tauto. }
    destruct (wanted _ _ _) eqn:Hw.
    + destruct (follow resp a) eqn:Hf; simpl.
      * split; [discriminate|]. intros (? & ? & [= <- <-] & _ & _ & H). congruence.
      * split; [|reflexivity]. intros _. exists a, i. auto.
    + simpl. split; [discriminate|]. intros (? & ? & _ & _ & H & _). discriminate.
Qed.

Lemma malformed_entry_id dt : malformed rt resp dt <-> entry_id rt resp dt = Skipped.
Proof.
  unfold malformed, entry_id. split.
  - intros [->|(h & a & -> & -> & ->)]; reflexivity.
  - destruct (entry_href dt) as [h|]; [|now left].
    destruct (urljoin resp h) as [a|] eqn:J; [|discriminate].
    destruct (Re.search rt re_id a) eqn:E; [discriminate|].
    right. eauto.
Qed.

Lemma unjoinable_entry_id dt : unjoinable resp dt <-> entry_id rt resp dt = Raised.
Proof.
  unfold unjoinable, entry_id. split.
  - intros (h & -> & ->). reflexivity.
  - destruct (entry_href dt) as [h|]; [|discriminate].
    destruct (urljoin resp h) as [a|] eqn:J; [|eauto].
    destruct (Re.search rt re_id a); discriminate.
Qed.

Lemma nonempty_false (s : list N) : nonempty s = false <-> s = [].
Proof. destruct s; simpl; split; congruence. Qed.

Lemma wanted_spec text :
  wanted rt targets text = true <->
  paper_categories_of rt text ∩ targets ≠ ∅ \/ text = [].
Proof.
  unfold wanted. rewrite orb_true_iff, bool_decide_eq_true, negb_true_iff.
  now rewrite nonempty_false.
Qed.

Lemma wanted_false text :
  wanted rt targets text = false <->
  paper_categories_of rt text ∩ targets = ∅ /\ text <> [].
Proof.
  destruct (wanted rt targets text) eqn:Hw.
  - apply wanted_spec in Hw. split; [discriminate|]. intros [H1 H2].
    destruct Hw; congruence.
  - split; [intros _|reflexivity].
    split.
    + destruct (decide (paper_categories_of rt text ∩ targets = ∅)); [assumption|].
      assert (wanted rt targets text = true) by (apply wanted_spec; now left).
      congruence.
    + intros ->.
      assert (wanted rt targets [] = true) by (apply wanted_spec; now right).
      congruence.
Qed.

(** What one iteration does to [seen_ids] and to the requests. *)
Lemma parse_entry_requests seen e :
  let r := parse_entry rt targets resp prio sec seen e in
  seen ⊆ seen_after r
  /\ (forall m, In m (requests (produced r)) ->
        (id m ∉ seen) /\ id m ∈ seen_after r /\ seen_after r = seen ∪ {[id m]}
        /\ requests (produced r) = [m]
        /\ section m = sec.1 /\ section_rank m = sec.2 /\ cat_priority m = prio)
  /\ (forall a i, entry_id rt resp e.1 = Found a i -> i ∈ seen_after r).
Proof.
  destruct (entry_id rt resp e.1) as [| |a i] eqn:E.
  { rewrite (parse_entry_skipped _ _ E). simpl.
    split; [reflexivity|]. split; [intros m []|discriminate]. }
  { rewrite (parse_entry_raised _ _ E). simpl.
    split; [reflexivity|]. split; [intros m []|discriminate]. }
  destruct (decide (i ∈ seen)) as [Hi|Hi].
  { rewrite (parse_entry_seen _ _ _ _ E Hi). simpl.
    split; [reflexivity|]. split; [intros m []|]. now intros ? ? [= _ <-]. }
  destruct (wanted rt targets (subjects_text_of rt e.2)) eqn:Hw;
    [destruct (follow resp a) eqn:Hf|].
  - rewrite (parse_entry_wanted _ _ _ _ E Hi Hw Hf). simpl.
    split; [set_solver|]. split.
    + intros m [<-|[]]. simpl. repeat split; auto. set_solver.
    + intros ? ? [= _ <-]. set_solver.
  - rewrite (parse_entry_unfollowed _ _ _ _ E Hi Hw Hf). simpl.
    split; [set_solver|]. split; [intros m []|].
    intros ? ? [= _ <-]. set_solver.
  - rewrite (parse_entry_unwanted _ _ _ _ E Hi Hw). simpl.
    split; [set_solver|]. split; [intros m []|].
    intros ? ? [= _ <-]. set_solver.
Qed.

(** The inner loop on a longer list: the first part, and the rest only
    if the first part did not raise. *)
Lemma parse_entries_app seen es1 es2 :
  parse_entries rt targets resp prio sec seen (es1 ++ es2)
  = let r1 := parse_entries rt targets resp prio sec seen es1 in
    if raised r1 is Some _ then r1
    else
      let r2 := parse_entries rt targets resp prio sec (seen_after r1) es2 in
      Scan (seen_after r2) (produced r1 ++ produced r2) (raised r2).
Proof.
  revert seen. induction es1 as [|e es1 IH]; intros seen.
  - simpl. now destruct (parse_entries rt targets resp prio sec seen es2).
  - rewrite <- app_comm_cons. cbn [parse_entries]. cbv zeta.
    destruct (parse_entry rt targets resp prio sec seen e) as [s1 o1 [f1|]];
      cbn [raised seen_after produced]; [reflexivity|].
    rewrite IH. cbv zeta.
    destruct (parse_entries rt targets resp prio sec s1 es1) as [s2 o2 [f2|]];
      cbn [raised seen_after produced]; [reflexivity|].
    now rewrite app_assoc.
Qed.

End Entry.

(** ** The category test *)

Lemma join_nonempty (sep : list N) (l : list (list N)) :
  Forall (fun t => t <> []) l -> join sep l = [] -> l = [].
Proof.
  destruct l as [|x l]; [reflexivity|].
  intros H. apply Forall_cons in H as [Hx _].
  destruct x as [|c x]; [congruence|].
  destruct l; discriminate.
Qed.

(** The subject text is empty exactly when every text node under
    [.list-subjects] is blank, in particular when there is none. *)
Lemma subjects_text_empty (rt : runtime) (dd : dd_elem) :
  subjects_text_of rt dd = [] <-> Forall (fun t => strip rt t = []) (dd_subjects dd).
Proof.
  unfold subjects_text_of. split.
  - intros H. apply join_nonempty in H.
    + apply map_eq_nil in H.
      apply List.Forall_forall. intros t Ht.
      destruct (strip rt t) eqn:E; [reflexivity|].
      assert (Hin : In t (List.filter (fun t => nonempty (strip rt t)) (dd_subjects dd)))
        by (apply filter_In; split; [exact Ht | now rewrite E]).
      rewrite H in Hin. destruct Hin.
    + apply Forall_map. apply List.Forall_forall. intros t Ht.
      apply filter_In in Ht as [_ Ht]. simpl. now destruct (strip rt t).
  - intros H.
    assert (E : List.filter (fun t => nonempty (strip rt t)) (dd_subjects dd) = []).
    { induction H as [|t l Ht Hl IH]; [reflexivity|]. simpl. now rewrite Ht. }
    now rewrite E.
Qed.

(** C6, as the source has it.  An entry with an extractable identifier
    that was not admitted before, and for whose link a request can be
    built, is followed exactly when its declared codes meet the target
    set or its subject text is empty, which is the case when every text
    node found is blank; the request then carries the declared codes,
    each once, and the empty list when the subject text is empty;
    otherwise the iteration only logs at debug level.  The identifier is
    recorded in both cases. *)
Theorem category_gate
    (rt : runtime) (targets : gset (list N)) (resp : response) (prio : Z)
    (sec : list N * Z) (seen : gset (list N)) (e : dt_elem * dd_elem)
    (abs_url arxiv_id : list N) :
  entry_id rt resp e.1 = Found abs_url arxiv_id ->
  arxiv_id ∉ seen ->
  follow resp abs_url = true ->
  let text := subjects_text_of rt e.2 in
  let codes := paper_categories_of rt text in
  let r := parse_entry rt targets resp prio sec seen e in
  let stub := stub_of rt prio sec abs_url arxiv_id e.2 in
  ((exists m, produced r = [Follow abs_url m]) <->
     codes ∩ targets ≠ ∅ \/ text = [])
  /\ (text = [] <-> Forall (fun t => strip rt t = []) (dd_subjects e.2))
  /\ (codes ∩ targets ≠ ∅ \/ text = [] ->
        r = Scan (seen ∪ {[arxiv_id]}) [Follow abs_url stub] None)
  /\ (text = [] -> categories stub = [])
  /\ (text <> [] ->
        NoDup (categories stub) /\ forall c, c ∈ categories stub <-> c ∈ codes)
  /\ (~ (codes ∩ targets ≠ ∅ \/ text = []) ->
        r = Scan (seen ∪ {[arxiv_id]}) [LogDebug arxiv_id codes targets] None).
Proof.
  intros E Hi Hf text codes r stub.
  assert (Hyes : codes ∩ targets ≠ ∅ \/ text = [] ->
                 r = Scan (seen ∪ {[arxiv_id]}) [Follow abs_url stub] None).
  { intros H. apply wanted_spec in H.
    exact (parse_entry_wanted _ _ _ _ _ _ _ _ _ E Hi H Hf). }
  assert (Hno : ~ (codes ∩ targets ≠ ∅ \/ text = []) ->
                r = Scan (seen ∪ {[arxiv_id]}) [LogDebug arxiv_id codes targets] None).
  { intros H. apply (parse_entry_unwanted _ _ _ _ _ _ _ _ _ E Hi).
    destruct (wanted rt targets (subjects_text_of rt e.2)) eqn:Hw; [|reflexivity].
    exfalso. apply H. now apply wanted_spec. }
  split; [|split; [apply subjects_text_empty|
           split; [exact Hyes|split; [|split; [|exact Hno]]]]].
  - split.
    + intros [m Hm].
      destruct (wanted rt targets text) eqn:Hw; [now apply wanted_spec|].
      rewrite Hno in Hm; [discriminate|].
      intros H. apply wanted_spec in H. fold text in H. congruence.
    + intros H. rewrite (Hyes H). eauto.
  - intros H. unfold stub, stub_of. simpl. fold text. now rewrite H.
  - intros H. unfold stub, stub_of. simpl. fold text.
    destruct text as [|c t] eqn:Et; [congruence|]. simpl.
    split; [apply list_of_set_NoDup|].
    intros x. rewrite list_of_set_elem. unfold codes, paper_categories_of.
    now rewrite elem_of_list_to_set.
Qed.

(** The theorem at a sample entry with a declared target code. *)
Lemma category_gate_witness :
  let rt := Sample.plain_runtime in
  let e := Sample.entry "2401.00002" "Quantum Algebra (math.QA)" in
  entry_id rt Sample.page_qa e.1
    = Found (u "https://arxiv.org/abs/2401.00002") (u "2401.00002")
  /\ (u "2401.00002" ∉ (∅ : gset (list N)))
  /\ follow Sample.page_qa (u "https://arxiv.org/abs/2401.00002") = true
  /\ produced (parse_entry rt {[u "math.QA"]} Sample.page_qa 0 (u "new", 0%Z) ∅ e)
     = [Follow (u "https://arxiv.org/abs/2401.00002")
          (stub_of rt 0 (u "new", 0%Z) (u "https://arxiv.org/abs/2401.00002")
             (u "2401.00002") e.2)].
Proof.
  intros rt e.
  assert (E : entry_id rt Sample.page_qa e.1
              = Found (u "https://arxiv.org/abs/2401.00002") (u "2401.00002"))
    by (vm_compute; reflexivity).
  assert (Hi : u "2401.00002" ∉ (∅ : gset (list N))) by apply not_elem_of_empty.
  assert (Hf : follow Sample.page_qa (u "https://arxiv.org/abs/2401.00002") = true)
    by (vm_compute; reflexivity).
  split; [exact E|]. split; [exact Hi|]. split; [exact Hf|].
  rewrite (proj1 (proj2 (proj2 (category_gate rt {[u "math.QA"]} Sample.page_qa 0
                           (u "new", 0%Z) ∅ e _ _ E Hi Hf)))).
  - reflexivity.
  - left. vm_compute. discriminate.
Defined.

(** C6, counterexample to the claim as stated: an entry with an
    extractable identifier and a declared target code is not followed
    when its identifier was admitted before; nor is it when no request
    can be built for its link, as for a [mailto:] link, which [urljoin]
    returns as it is: the identifier is recorded and the exception ends
    the scan. *)
Lemma seen_entry_not_followed :
  let e := Sample.entry "2401.00002" "Quantum Algebra (math.QA)" in
  let targets : gset (list N) := {[u "math.QA"]} in
  let seen : gset (list N) := {[u "2401.00002"]} in
  let link := u "https://arxiv.org/abs/2401.00002" in
  let e' := Sample.mail_entry in
  let link' := u "mailto:list/abs/2401.00006" in
  ((forall rt, entry_id rt Sample.page_qa e.1 = Found link (u "2401.00002"))
   /\ (forall rt, paper_categories_of rt (subjects_text_of rt e.2) ∩ targets ≠ ∅)
   /\ (forall rt,
         parse_entry rt targets Sample.page_qa 0 (u "new", 0%Z) seen e
         = Scan seen [] None)
   /\ (forall rt,
         ~ ((exists m,
               produced (parse_entry rt targets Sample.page_qa 0 (u "new", 0%Z) seen e)
               = [Follow link m])
            <-> (paper_categories_of rt (subjects_text_of rt e.2) ∩ targets ≠ ∅
                 \/ subjects_text_of rt e.2 = []))))
  /\ ((forall rt, entry_id rt Sample.page_mail e'.1 = Found link' (u "2401.00006"))
      /\ (forall rt, paper_categories_of rt (subjects_text_of rt e'.2) ∩ targets ≠ ∅)
      /\ follow Sample.page_mail link' = false
      /\ (forall rt,
            parse_entry rt targets Sample.page_mail 0 (u "new", 0%Z) ∅ e'
            = Scan (∅ ∪ {[u "2401.00006"]}) [] (Some In_follow))
      /\ (forall rt,
            ~ ((exists m,
                  produced (parse_entry rt targets Sample.page_mail 0 (u "new", 0%Z) ∅ e')
                  = [Follow link' m])
               <-> (paper_categories_of rt (subjects_text_of rt e'.2) ∩ targets ≠ ∅
                    \/ subjects_text_of rt e'.2 = [])))).
Proof.
  intros e targets seen link e' link'.
  assert (E : forall rt, entry_id rt Sample.page_qa e.1 = Found link (u "2401.00002"))
    by (intros rt; vm_compute; reflexivity).
  assert (Hc : forall rt, paper_categories_of rt (subjects_text_of rt e.2) ∩ targets ≠ ∅)
    by (intros rt; vm_compute; discriminate).
  assert (Hp : forall rt, parse_entry rt targets Sample.page_qa 0 (u "new", 0%Z) seen e
                          = Scan seen [] None).
  { intros rt. apply (parse_entry_seen _ _ _ _ _ _ _ _ _ (E rt)).
    now apply elem_of_singleton. }
  assert (E' : forall rt, entry_id rt Sample.page_mail e'.1
                          = Found link' (u "2401.00006"))
    by (intros rt; vm_compute; reflexivity).
  assert (Hc' : forall rt,
            paper_categories_of rt (subjects_text_of rt e'.2) ∩ targets ≠ ∅)
    by (intros rt; vm_compute; discriminate).
  assert (Hf' : follow Sample.page_mail link' = false) by (vm_compute; reflexivity).
  assert (Hp' : forall rt,
            parse_entry rt targets Sample.page_mail 0 (u "new", 0%Z) ∅ e'
            = Scan (∅ ∪ {[u "2401.00006"]}) [] (Some In_follow)).
  { intros rt. apply (parse_entry_unfollowed _ _ _ _ _ _ _ _ _ (E' rt)).
    - apply not_elem_of_empty.
    - apply wanted_spec. left. apply Hc'.
    - exact Hf'. }
  split.
  - split; [exact E|]. split; [exact Hc|]. split; [exact Hp|].
    intros rt. rewrite Hp. simpl. intros [_ H].
    destruct H as [m Hm]; [left; apply Hc|discriminate].
  - split; [exact E'|]. split; [exact Hc'|]. split; [exact Hf'|]. split; [exact Hp'|].
    intros rt. rewrite Hp'. simpl. intros [_ H].
    destruct H as [m Hm]; [left; apply Hc'|discriminate].
Qed.

(** ** What the heading patterns accept *)

Ltac norm_append := cbn [app] in *.

Section MatcherFacts.
Import Re.
Variable rt : runtime.

Lemma search_at_spec (r : regex) (prev : option N) (s : list N) :
  is_Some (search_at rt r prev s) <->
  exists pre suf,
    s = pre ++ suf /\ is_Some (match_here rt r (last_of prev pre) suf).
Proof.
  revert prev. induction s as [|c s IH]; intros prev; simpl.
  - destruct (match_here rt r prev []) eqn:E.
    + split; [|eauto]. intros _. exists [], [].
      simpl. rewrite E. eauto.
    + split; [intros [? [=]]|].
      intros (pre & suf & Hs & Hm).
      destruct pre; [|discriminate].
      change ([] ++ suf) with suf in Hs. subst suf.
      change (last_of prev []) with prev in Hm.
      rewrite E in Hm. exact Hm.
  - destruct (match_here rt r prev (c :: s)) eqn:E.
    + split; [|eauto]. intros _. exists [], (c :: s).
      simpl. rewrite E. eauto.
    + rewrite IH. split.
      * intros (pre & suf & -> & Hm). exists (c :: pre), suf. auto.
      * intros (pre & suf & Hs & Hm). destruct pre as [|d pre].
        { change ([] ++ suf) with suf in Hs. subst suf. change (last_of prev []) with prev in Hm.
          rewrite E in Hm. destruct Hm as [? [=]]. }
        change ((d :: pre) ++ suf) with (d :: pre ++ suf) in Hs.
        injection Hs as -> ->. eauto.
Qed.

Lemma matches_spec (r : regex) (s : list N) :
  matches rt r s = true <->
  exists pre suf,
    s = pre ++ suf /\ is_Some (match_here rt r (last_of None pre) suf).
Proof.
  rewrite <- search_at_spec. unfold matches.
  destruct (search_at rt r None s); split; eauto; try discriminate.
  intros [? [=]].
Qed.

(** A plain pattern followed by [\b] matches exactly at its spellings. *)
Lemma run_plain (r : regex) :
  Forall plain r ->
  forall inside prev s cap,
    is_Some (run rt (r ++ [Bnd]) inside prev s cap) <->
    exists v post,
      In v (variants r) /\ s = v ++ post
      /\ xorb (word_before rt (last_of prev v)) (word_after rt post) = true.
Proof.
  induction 1 as [|a r Ha Hr IH]; intros inside prev s cap.
  - simpl. split.
    + destruct (xorb _ _) eqn:E; [|intros [? [=]]].
      intros _. exists [], s. auto.
    + intros (v & post & [<-|[]] & -> & Hb). norm_append.
      simpl in Hb. rewrite Hb. eauto.
  - destruct a as [c| |c| | | | |]; try contradiction; simpl.
    + destruct s as [|d s].
      { split; [intros [? [=]]|].
        intros (v & post & Hv & Hs & _).
        apply in_map_iff in Hv as (v' & <- & _). discriminate. }
      destruct (N.eqb_spec c d) as [<-|Hne].
      * rewrite IH. split.
        -- intros (v & post & Hv & -> & Hb).
           exists (c :: v), post. split; [now apply in_map|]. auto.
        -- intros (v & post & Hv & Hs & Hb).
           apply in_map_iff in Hv as (v' & <- & Hv').
           norm_append. injection Hs as ->. eauto.
      * split; [intros [? [=]]|].
        intros (v & post & Hv & Hs & _).
        apply in_map_iff in Hv as (v' & <- & _).
        norm_append. congruence.
    + assert (Hskip :
        is_Some (run rt (r ++ [Bnd]) inside prev s cap) <->
        exists v post, In v (variants r) /\ s = v ++ post
          /\ xorb (word_before rt (last_of prev v)) (word_after rt post) = true)
        by apply IH.
      assert (Htake :
        is_Some (match s with
                 | [] => None
                 | d :: s' =>
                     if (c =? d)%N
                     then run rt (r ++ [Bnd]) inside (Some d) s' (push inside d cap)
                     else None
                 end) <->
        exists v post, In v (map (cons c) (variants r)) /\ s = v ++ post
          /\ xorb (word_before rt (last_of prev v)) (word_after rt post) = true).
      { destruct s as [|d s].
        { split; [intros [? [=]]|].
          intros (v & post & Hv & Hs & _).
          apply in_map_iff in Hv as (v' & <- & _). discriminate. }
        destruct (N.eqb_spec c d) as [<-|Hne].
        * rewrite IH. split.
          -- intros (v & post & Hv & -> & Hb).
             exists (c :: v), post. split; [now apply in_map|]. auto.
          -- intros (v & post & Hv & Hs & Hb).
             apply in_map_iff in Hv as (v' & <- & Hv').
             norm_append. injection Hs as ->. eauto.
        * split; [intros [? [=]]|].
          intros (v & post & Hv & Hs & _).
          apply in_map_iff in Hv as (v' & <- & _).
        norm_append. congruence. }
      split.
      * intros Hm.
        destruct (match s with [] => None | d :: s' => _ end) eqn:E.
        -- destruct (proj1 Htake) as (v & post & Hv & Hb); [eauto|].
           exists v, post. split; [apply in_or_app; now left|exact Hb].
        -- destruct (proj1 Hskip Hm) as (v & post & Hv & Hb).
           exists v, post. split; [apply in_or_app; now right|exact Hb].
      * intros (v & post & Hv & Hb). apply in_app_or in Hv as [Hv|Hv].
        -- destruct (proj2 Htake) as [m ->]; eauto.
        -- destruct (match s with [] => None | d :: s' => _ end);
             [eauto|]. apply Hskip. eauto.
Qed.

(** [\b spelling \b] anywhere in the text. *)
Lemma matches_plain (r : regex) (s : list N) :
  Forall plain r ->
  matches rt (Bnd :: r ++ [Bnd]) s = true <->
  exists pre v post,
    In v (variants r) /\ s = pre ++ v ++ post
    /\ xorb (word_before rt (last_of None pre)) (word_after rt (v ++ post)) = true
    /\ xorb (word_before rt (last_of (last_of None pre) v)) (word_after rt post) = true.
Proof.
  intros Hr. rewrite matches_spec. split.
  - intros (pre & suf & -> & Hm). unfold match_here in Hm. simpl in Hm.
    destruct (xorb _ _) eqn:Hb; [|destruct Hm as [? [=]]].
    apply (run_plain r Hr) in Hm as (v & post & Hv & -> & Hb').
    exists pre, v, post. auto.
  - intros (pre & v & post & Hv & -> & Hb & Hb').
    exists pre, (v ++ post). split; [reflexivity|].
    unfold match_here. simpl. rewrite Hb.
    apply (run_plain r Hr). eauto.
Qed.
End MatcherFacts.

(** ** Section headings *)

Section Headings.
Import Text Re.
Variable rt : runtime.

Lemma word_after_append v post :
  word_after rt v = true -> word_after rt (v ++ post) = true.
Proof. destruct v; [discriminate|]. now norm_append. Qed.

Lemma last_of_nonempty prev v :
  word_after rt v = true -> last_of prev v = last_of None v.
Proof. destruct v; [discriminate|reflexivity]. Qed.

Lemma matches_phrases (r : regex) (s : list N) :
  Forall plain r -> Forall (word_bounded rt) (variants r) ->
  matches rt (Bnd :: r ++ [Bnd]) s = true <-> mentions rt (variants r) s.
Proof.
  intros Hr Hv. rewrite (matches_plain rt r s Hr).
  rewrite List.Forall_forall in Hv. unfold mentions, whole_phrase. split.
  - intros (pre & v & post & Hin & -> & Hb1 & Hb2).
    destruct (Hv v Hin) as [Hw1 Hw2].
    rewrite (word_after_append _ post Hw1) in Hb1.
    rewrite (last_of_nonempty _ v Hw1), Hw2 in Hb2.
    exists v. split; [exact Hin|]. exists pre, post.
    split; [reflexivity|].
    destruct (word_before rt (last_of None pre)), (word_after rt post);
      simpl in *; auto; discriminate.
  - intros (v & Hin & pre & post & -> & Hb1 & Hb2).
    destruct (Hv v Hin) as [Hw1 Hw2].
    exists pre, v, post. split; [exact Hin|]. split; [reflexivity|].
    rewrite (word_after_append _ post Hw1), (last_of_nonempty _ v Hw1).
    now rewrite Hb1, Hb2, Hw2.
Qed.

Ltac phrases_of r :=
  apply (matches_phrases r);
  [ repeat constructor
  | repeat (constructor; [split; reflexivity|]); constructor ].

Lemma mentions_app l1 l2 s :
  mentions rt (l1 ++ l2) s <-> mentions rt l1 s \/ mentions rt l2 s.
Proof.
  unfold mentions. split.
  - intros (v & Hv & H). apply in_app_or in Hv as [Hv|Hv]; eauto.
  - intros [(v & Hv & H)|(v & Hv & H)]; exists v;
      (split; [apply in_or_app; auto | exact H]).
Qed.

Lemma matches_new s : matches rt re_new s = true <-> mentions rt new_phrases s.
Proof. phrases_of (lits "new submission" ++ [Opt (ord "s")]). Qed.

Lemma matches_cross s :
  matches rt re_crosslist s || matches rt re_cross_sub s = true
  <-> mentions rt cross_phrases s.
Proof.
  change cross_phrases with
    (variants (lits "cross" ++ [Opt (ord "-")] ++ lits "list" ++ [Opt (ord "s")])
     ++ variants (lits "cross submission" ++ [Opt (ord "s")])).
  rewrite orb_true_iff, mentions_app.
  assert (H1 : matches rt re_crosslist s = true <->
               mentions rt (variants (lits "cross" ++ [Opt (ord "-")] ++ lits "list"
                                      ++ [Opt (ord "s")])) s)
    by phrases_of (lits "cross" ++ [Opt (ord "-")] ++ lits "list" ++ [Opt (ord "s")]).
  assert (H2 : matches rt re_cross_sub s = true <->
               mentions rt (variants (lits "cross submission" ++ [Opt (ord "s")])) s)
    by phrases_of (lits "cross submission" ++ [Opt (ord "s")]).
  tauto.
Qed.

Lemma matches_repl s :
  matches rt re_repl s || matches rt re_repl_sub s = true
  <-> mentions rt repl_phrases s.
Proof.
  change repl_phrases with
    (variants (lits "replacement" ++ [Opt (ord "s")])
     ++ variants (lits "replacement submission" ++ [Opt (ord "s")])).
  rewrite orb_true_iff, mentions_app.
  assert (H1 : matches rt re_repl s = true <->
               mentions rt (variants (lits "replacement" ++ [Opt (ord "s")])) s)
    by phrases_of (lits "replacement" ++ [Opt (ord "s")]).
  assert (H2 : matches rt re_repl_sub s = true <->
               mentions rt (variants (lits "replacement submission"
                                      ++ [Opt (ord "s")])) s)
    by phrases_of (lits "replacement submission" ++ [Opt (ord "s")]).
  tauto.
Qed.

Lemma heading_section_cases texts :
  let h := heading_lower rt texts in
  (mentions rt new_phrases h -> heading_section rt texts = (u "new", 0%Z))
  /\ (~ mentions rt new_phrases h -> mentions rt cross_phrases h ->
      heading_section rt texts = (u "cross", 1%Z))
  /\ (~ mentions rt new_phrases h -> ~ mentions rt cross_phrases h ->
      mentions rt repl_phrases h -> heading_section rt texts = (u "repl", 2%Z))
  /\ (~ mentions rt new_phrases h -> ~ mentions rt cross_phrases h ->
      ~ mentions rt repl_phrases h -> heading_section rt texts = (u "other", 3%Z)).
Proof.
  intros h. unfold heading_section. fold (heading_lower rt texts). fold h.
  rewrite <- (matches_new h), <- (matches_cross h), <- (matches_repl h).
  destruct (matches rt re_new h);
    destruct (matches rt re_crosslist h || matches rt re_cross_sub h);
    destruct (matches rt re_repl h || matches rt re_repl_sub h);
    intuition congruence.
Qed.

(** On ASCII text, lower-casing is character by character and keeps
    blanks blank, so it commutes with [strip]. *)
Lemma is_ascii_lower_char c : is_ascii c = true -> is_ascii (lower_char c) = true.
Proof.
  unfold is_ascii, lower_char, is_upper, in_range. intros H.
  apply N.ltb_lt in H.
  destruct (65 <=? c)%N eqn:E1; destruct (c <=? 90)%N eqn:E2; simpl;
    apply N.ltb_lt; try lia.
  apply N.leb_le in E2. lia.
Qed.

Lemma is_space_lower_char c :
  is_ascii c = true -> is_space rt (lower_char c) = is_space rt c.
Proof.
  intros H. unfold is_space. rewrite (is_ascii_lower_char c H), H.
  unfold lower_char, is_upper, in_range.
  destruct (65 <=? c)%N eqn:E1; destruct (c <=? 90)%N eqn:E2; simpl; try reflexivity.
  apply N.leb_le in E1, E2.
  assert (E : forall a b : N, (a <? b)%N = false -> (b <=? a)%N = true)
    by (intros a b Hab; apply N.leb_le; apply N.ltb_ge in Hab; exact Hab).
  repeat match goal with
  | |- context [(?a <=? ?b)%N] => destruct (N.leb_spec a b)
  end; simpl; try reflexivity; lia.
Qed.

Lemma lower_ascii s : forallb is_ascii s = true -> lower rt s = map lower_char s.
Proof. unfold lower. now intros ->. Qed.

Lemma lstrip_ascii s : forallb is_ascii s = true -> forallb is_ascii (lstrip rt s) = true.
Proof.
  induction s as [|c s IH]; simpl; [reflexivity|].
  intros H. destruct (is_space rt c); [apply IH|exact H].
  now apply andb_true_iff in H.
Qed.

Lemma rstrip_ascii s : forallb is_ascii s = true -> forallb is_ascii (rstrip rt s) = true.
Proof.
  induction s as [|c s IH]; simpl; [reflexivity|].
  intros H. apply andb_true_iff in H as [Hc Hs]. specialize (IH Hs).
  destruct (rstrip rt s); simpl.
  - destruct (is_space rt c); simpl; [reflexivity|]. now rewrite Hc.
  - simpl in IH. now rewrite Hc, IH.
Qed.

Lemma strip_ascii s : forallb is_ascii s = true -> forallb is_ascii (strip rt s) = true.
Proof. intros H. unfold strip. now apply rstrip_ascii, lstrip_ascii. Qed.

Lemma lower_lstrip s :
  forallb is_ascii s = true -> map lower_char (lstrip rt s) = lstrip rt (map lower_char s).
Proof.
  induction s as [|c s IH]; simpl; [reflexivity|].
  intros H. apply andb_true_iff in H as [Hc Hs].
  rewrite (is_space_lower_char c Hc). destruct (is_space rt c); [now apply IH|reflexivity].
Qed.

Lemma lower_rstrip s :
  forallb is_ascii s = true -> map lower_char (rstrip rt s) = rstrip rt (map lower_char s).
Proof.
  induction s as [|c s IH]; simpl; [reflexivity|].
  intros H. apply andb_true_iff in H as [Hc Hs].
  rewrite <- (IH Hs). destruct (rstrip rt s); simpl;
    rewrite ?(is_space_lower_char c Hc); [|reflexivity].
  now destruct (is_space rt c).
Qed.

Lemma lower_strip s :
  forallb is_ascii s = true ->
  lower rt (strip rt s) = strip rt (map lower_char s).
Proof.
  intros H. rewrite lower_ascii by now apply strip_ascii.
  unfold strip. rewrite lower_rstrip by now apply lstrip_ascii.
  now rewrite lower_lstrip.
Qed.

(** Two ASCII headings that differ only in the case of their letters
    set the same section. *)
Lemma heading_section_case_blind t1 t2 :
  forallb is_ascii (join [] t1) = true -> forallb is_ascii (join [] t2) = true ->
  map lower_char (join [] t1) = map lower_char (join [] t2) ->
  heading_section rt t1 = heading_section rt t2.
Proof.
  intros H1 H2 H. unfold heading_section.
  now rewrite (lower_strip _ H1), (lower_strip _ H2), H.
Qed.
End Headings.

(** ** The scan of a listing *)

Lemma requests_app (o1 o2 : list effect) :
  requests (o1 ++ o2) = requests o1 ++ requests o2.
Proof. apply omap_app. Qed.

Lemma parse_entries_cons (rt : runtime) targets resp prio sec seen e es :
  parse_entries rt targets resp prio sec seen (e :: es)
  = and_then (parse_entry rt targets resp prio sec seen e)
      (parse_entries rt targets resp prio sec
         (seen_after (parse_entry rt targets resp prio sec seen e)) es).
Proof. reflexivity. Qed.

Lemma parse_blocks_cons_DL (rt : runtime) targets resp prio sec seen dts dds bs :
  parse_blocks rt targets resp prio sec seen (DL dts dds :: bs)
  = and_then (parse_entries rt targets resp prio sec seen (zip dts dds))
      (parse_blocks rt targets resp prio sec
         (seen_after (parse_entries rt targets resp prio sec seen (zip dts dds))) bs).
Proof. reflexivity. Qed.

Section Scan.
Variables (rt : runtime) (targets : gset (list N)) (resp : response) (prio : Z).

Notation scan_ok := (scan_ok prio).

(** The identifiers read from one entry. *)
Lemma entry_ids_one seen e :
  entry_ids rt targets resp seen [e]
  = match entry_id rt resp e.1 with Found _ i => [i] | _ => [] end.
Proof.
  cbn [entry_ids]. destruct (entry_id rt resp e.1); try reflexivity.
  now destruct (stops_at rt targets resp seen e).
Qed.

(** The identifiers read from a longer list: those of the first entry,
    and those of the rest if the first iteration did not raise. *)
Lemma entry_ids_cons sec seen e es :
  entry_ids rt targets resp seen (e :: es)
  = entry_ids rt targets resp seen [e]
    ++ (if raised (parse_entry rt targets resp prio sec seen e) is Some _
        then []
        else entry_ids rt targets resp
               (seen_after (parse_entry rt targets resp prio sec seen e)) es).
Proof.
  rewrite entry_ids_one. cbn [entry_ids].
  rewrite (stops_at_raised rt targets resp prio sec).
  destruct (entry_id rt resp e.1) as [| |a i] eqn:E.
  - now rewrite (parse_entry_skipped _ _ _ _ _ _ _ E).
  - now rewrite (parse_entry_raised _ _ _ _ _ _ _ E).
  - destruct (decide (i ∈ seen)) as [Hi|Hi].
    { rewrite (parse_entry_seen _ _ _ _ _ _ _ _ _ E Hi). simpl.
      do 2 f_equal. set_solver. }
    destruct (wanted rt targets (subjects_text_of rt e.2)) eqn:Hw;
      [destruct (follow resp a) eqn:Hf|].
    + now rewrite (parse_entry_wanted _ _ _ _ _ _ _ _ _ E Hi Hw Hf).
    + now rewrite (parse_entry_unfollowed _ _ _ _ _ _ _ _ _ E Hi Hw Hf).
    + now rewrite (parse_entry_unwanted _ _ _ _ _ _ _ _ _ E Hi Hw).
Qed.

Lemma entry_ids_app sec seen es1 es2 :
  entry_ids rt targets resp seen (es1 ++ es2)
  = entry_ids rt targets resp seen es1
    ++ (if raised (parse_entries rt targets resp prio sec seen es1) is Some _
        then []
        else entry_ids rt targets resp
               (seen_after (parse_entries rt targets resp prio sec seen es1)) es2).
Proof.
  revert seen. induction es1 as [|e es1 IH]; intros seen; [reflexivity|].
  rewrite <- app_comm_cons, (entry_ids_cons sec), (entry_ids_cons sec seen e es1).
  rewrite parse_entries_cons. unfold and_then.
  destruct (parse_entry rt targets resp prio sec seen e) as [s1 o1 [f1|]];
    cbn [raised seen_after produced].
  { now rewrite !app_nil_r. }
  rewrite IH, <- app_assoc. now destruct (raised _).
Qed.

Lemma parse_entry_ok sec seen e :
  scan_ok (fun m => section m = sec.1 /\ section_rank m = sec.2)
    (entry_ids rt targets resp seen [e]) seen
    (parse_entry rt targets resp prio sec seen e).
Proof.
  rewrite entry_ids_one. unfold scan_ok.
  destruct (entry_id rt resp e.1) as [| |a i] eqn:E; simpl.
  { rewrite (parse_entry_skipped _ _ _ _ _ _ _ E). simpl.
    repeat split; try constructor; try lia; set_solver. }
  { rewrite (parse_entry_raised _ _ _ _ _ _ _ E). simpl.
    repeat split; try constructor; try lia; set_solver. }
  destruct (decide (i ∈ seen)) as [Hi|Hi].
  { rewrite (parse_entry_seen _ _ _ _ _ _ _ _ _ E Hi). simpl.
    repeat split; try constructor; try lia; set_solver. }
  destruct (wanted rt targets (subjects_text_of rt e.2)) eqn:Hw;
    [destruct (follow resp a) eqn:Hf|].
  - rewrite (parse_entry_wanted _ _ _ _ _ _ _ _ _ E Hi Hw Hf). simpl.
    split; [set_solver|]. split; [repeat constructor; set_solver|].
    split; [|split; [set_solver|]].
    + intros m Hm. apply list_elem_of_singleton in Hm as ->. simpl.
      repeat split; set_solver.
    + rewrite size_union by set_solver. rewrite size_singleton. lia.
  - rewrite (parse_entry_unfollowed _ _ _ _ _ _ _ _ _ E Hi Hw Hf). simpl.
    split; [set_solver|]. split; [constructor|].
    split; [set_solver|]. split; [set_solver|].
    rewrite size_union by set_solver. rewrite size_singleton. lia.
  - rewrite (parse_entry_unwanted _ _ _ _ _ _ _ _ _ E Hi Hw). simpl.
    split; [set_solver|]. split; [constructor|].
    split; [set_solver|]. split; [set_solver|].
    rewrite size_union by set_solver. rewrite size_singleton. lia.
Qed.

(** Two consecutive stretches of the scan. *)
Lemma scan_ok_app keep ids1 ids2 seen r1 r2 b :
  scan_ok keep ids1 seen r1 -> scan_ok keep ids2 (seen_after r1) r2 ->
  scan_ok keep (ids1 ++ ids2) seen
    (Scan (seen_after r2) (produced r1 ++ produced r2) b).
Proof.
  intros (Hs1 & Hn1 & Hm1 & Hi1 & Hz1) (Hs2 & Hn2 & Hm2 & Hi2 & Hz2).
  unfold scan_ok. simpl. rewrite requests_app, map_app, length_app.
  split; [set_solver|]. split.
  { apply NoDup_app. split; [exact Hn1|]. split; [|exact Hn2].
    intros i Hin1 Hin2.
    apply list_elem_of_fmap in Hin1 as (m1 & -> & Hm1').
    apply list_elem_of_fmap in Hin2 as (m2 & Heq & Hm2').
    destruct (Hm1 m1 Hm1') as (_ & Hin & _).
    destruct (Hm2 m2 Hm2') as (Hnot & _). rewrite <- Heq in Hnot. auto. }
  split; [|split; [|lia]].
  - intros m Hm. apply elem_of_app in Hm as [Hm|Hm].
    + destruct (Hm1 m Hm) as (? & ? & ? & ? & ?).
      repeat split; auto; set_solver.
    + destruct (Hm2 m Hm) as (? & ? & ? & ? & ?).
      repeat split; auto; set_solver.
  - intros i Hi. apply elem_of_app in Hi as [Hi|Hi]; [|auto].
    apply Hs2. auto.
Qed.

Lemma scan_ok_then keep ids1 ids2 seen r1 r2 :
  scan_ok keep ids1 seen r1 -> scan_ok keep ids2 (seen_after r1) r2 ->
  scan_ok keep (ids1 ++ (if raised r1 is Some _ then [] else ids2)) seen
    (and_then r1 r2).
Proof.
  intros H1 H2. unfold and_then. destruct (raised r1).
  - now rewrite app_nil_r.
  - now apply scan_ok_app.
Qed.

Lemma scan_ok_nil keep seen f : scan_ok keep [] seen (Scan seen [] f).
Proof.
  unfold scan_ok. simpl. repeat split; try constructor; try lia; set_solver.
Qed.

Lemma scan_ok_weaken (keep keep' : meta_item -> Prop) ids seen r :
  (forall m, keep m -> keep' m) ->
  scan_ok keep ids seen r -> scan_ok keep' ids seen r.
Proof.
  intros Hk (H1 & H2 & H3 & H4 & H5). repeat split; auto;
    destruct (H3 m) as (? & ? & ? & ? & ?); auto.
Qed.

Lemma parse_entries_ok sec seen es :
  scan_ok (fun m => section m = sec.1 /\ section_rank m = sec.2)
    (entry_ids rt targets resp seen es) seen
    (parse_entries rt targets resp prio sec seen es).
Proof.
  revert seen. induction es as [|e es IH]; intros seen.
  - apply scan_ok_nil.
  - rewrite parse_entries_cons, (entry_ids_cons sec).
    apply scan_ok_then; [apply parse_entry_ok | apply IH].
Qed.

Lemma block_entries_DL dts dds bs :
  block_entries (DL dts dds :: bs) = zip dts dds ++ block_entries bs.
Proof. reflexivity. Qed.

Lemma parse_blocks_ok sec seen bs :
  scan_ok (fun _ => True) (entry_ids rt targets resp seen (block_entries bs))
    seen (parse_blocks rt targets resp prio sec seen bs).
Proof.
  revert sec seen. induction bs as [|[texts|dts dds] bs IH]; intros sec seen.
  - apply scan_ok_nil.
  - simpl. apply IH.
  - rewrite parse_blocks_cons_DL, block_entries_DL, (entry_ids_app sec).
    apply scan_ok_then; [|apply IH].
    eapply scan_ok_weaken; [|apply parse_entries_ok]. auto.
Qed.
End Scan.

Lemma parse_unfold (rt : runtime) (sp : spider) (resp : response) :
  parse rt sp resp
  = let r := parse_blocks rt (target_categories sp) resp
               (priority (source_cat rt resp)) (u "other", 3%Z)
               (seen_ids sp) (dlpage resp) in
    (with_seen sp (seen_after r), produced r).
Proof. reflexivity. Qed.

Lemma parse_ok (rt : runtime) (sp : spider) (resp : response) :
  let r := parse rt sp resp in
  scan_ok (priority (source_cat rt resp)) (fun _ => True) (listed rt sp resp)
    (seen_ids sp) (Scan (seen_ids r.1) r.2 (parse_raises rt sp resp))
  /\ target_categories r.1 = target_categories sp
  /\ _buffer r.1 = _buffer sp.
Proof.
  rewrite parse_unfold. cbv zeta. simpl.
  split; [|split; reflexivity].
  pose proof (parse_blocks_ok rt (target_categories sp) resp
                (priority (source_cat rt resp)) (u "other", 3%Z) (seen_ids sp)
                (dlpage resp)) as H.
  exact H.
Qed.

(** C8.  The scan starts in the state (other, 3).  A heading block sets
    the state from its text, stripped and lower-cased: new with rank 0
    when it mentions "new submission(s)", else cross with rank 1 when it
    mentions "cross-list(s)", "crosslist(s)" or "cross submission(s)",
    else repl with rank 2 when it mentions "replacement(s)" or
    "replacement submission(s)", else other with rank 3; a phrase counts
    where no word character stands directly before or after it.  Only
    the lower-cased text matters, so two ASCII headings that differ in
    case alone set the same state.  A list block leaves the state as it
    is, and every request made from it carries the section and the rank
    of the state it was scanned in. *)
Theorem section_state (rt : runtime) :
  (forall sp resp,
      parse rt sp resp
      = let r := parse_blocks rt (target_categories sp) resp
                   (priority (source_cat rt resp)) (u "other", 3%Z)
                   (seen_ids sp) (dlpage resp) in
        (with_seen sp (seen_after r), produced r))
  /\ (forall targets resp prio sec seen texts bs,
        parse_blocks rt targets resp prio sec seen (H3 texts :: bs)
        = parse_blocks rt targets resp prio (heading_section rt texts) seen bs)
  /\ (forall texts,
        let h := heading_lower rt texts in
        (mentions rt new_phrases h -> heading_section rt texts = (u "new", 0%Z))
        /\ (~ mentions rt new_phrases h -> mentions rt cross_phrases h ->
            heading_section rt texts = (u "cross", 1%Z))
        /\ (~ mentions rt new_phrases h -> ~ mentions rt cross_phrases h ->
            mentions rt repl_phrases h -> heading_section rt texts = (u "repl", 2%Z))
        /\ (~ mentions rt new_phrases h -> ~ mentions rt cross_phrases h ->
            ~ mentions rt repl_phrases h ->
            heading_section rt texts = (u "other", 3%Z))
        /\ In (heading_section rt texts)
             [(u "new", 0%Z); (u "cross", 1%Z); (u "repl", 2%Z); (u "other", 3%Z)])
  /\ (forall t1 t2,
        heading_lower rt t1 = heading_lower rt t2 ->
        heading_section rt t1 = heading_section rt t2)
  /\ (forall t1 t2,
        forallb is_ascii (join [] t1) = true ->
        forallb is_ascii (join [] t2) = true ->
        map lower_char (join [] t1) = map lower_char (join [] t2) ->
        heading_section rt t1 = heading_section rt t2)
  /\ (forall targets resp prio sec seen dts dds bs,
        let r1 := parse_entries rt targets resp prio sec seen (zip dts dds) in
        parse_blocks rt targets resp prio sec seen (DL dts dds :: bs)
        = if raised r1 is Some _ then r1
          else
            let r2 := parse_blocks rt targets resp prio sec (seen_after r1) bs in
            Scan (seen_after r2) (produced r1 ++ produced r2) (raised r2))
  /\ (forall targets resp prio sec seen es m,
        m ∈ requests (produced (parse_entries rt targets resp prio sec seen es)) ->
        section m = sec.1 /\ section_rank m = sec.2).
Proof.
  split; [apply parse_unfold|]. split; [reflexivity|]. split.
  { intros texts h. pose proof (heading_section_cases rt texts) as H.
    fold h in H. destruct H as (H1 & H2 & H3 & H4).
    repeat (split; [assumption|]).
    unfold heading_section.
    repeat match goal with |- context [if ?b then _ else _] => destruct b end;
      simpl; auto. }
  split.
  { intros t1 t2 H. unfold heading_section, heading_lower in *. now rewrite H. }
  split; [apply heading_section_case_blind|].
  split; [reflexivity|].
  intros targets resp prio sec seen es m Hm.
  destruct (parse_entries_ok rt targets resp prio sec seen es) as (_ & _ & H & _).
  now destruct (H m Hm) as (_ & _ & _ & _ & ?).
Qed.

(** ** Admission comes before the category test *)

(** A scan that is not left by an exception records the identifier of
    every entry that has one. *)
Lemma parse_entries_reads (rt : runtime) targets resp prio sec seen es :
  raised (parse_entries rt targets resp prio sec seen es) = None ->
  forall e a i,
    e ∈ es -> entry_id rt resp e.1 = Found a i ->
    i ∈ seen_after (parse_entries rt targets resp prio sec seen es).
Proof.
  revert seen. induction es as [|e0 es IH]; intros seen Hr e a i Hin E.
  { inversion Hin. }
  rewrite parse_entries_cons in Hr |- *. unfold and_then in *.
  pose proof (parse_entries_ok rt targets resp prio sec
                (seen_after (parse_entry rt targets resp prio sec seen e0)) es)
    as (Hgrow & _).
  destruct (raised (parse_entry rt targets resp prio sec seen e0)) eqn:R1.
  { rewrite R1 in Hr. discriminate. }
  simpl in Hr |- *. apply elem_of_cons in Hin as [->|Hin].
  - apply Hgrow.
    destruct (parse_entry_requests rt targets resp prio sec seen e0) as (_ & _ & H).
    now apply (H a i).
  - now apply (IH _ Hr e a i).
Qed.

Lemma parse_blocks_reads (rt : runtime) targets resp prio sec seen bs :
  raised (parse_blocks rt targets resp prio sec seen bs) = None ->
  forall e a i,
    e ∈ block_entries bs -> entry_id rt resp e.1 = Found a i ->
    i ∈ seen_after (parse_blocks rt targets resp prio sec seen bs).
Proof.
  revert sec seen.
  induction bs as [|[texts|dts dds] bs IH]; intros sec seen Hr e a i Hin E.
  { inversion Hin. }
  { simpl in *. now apply (IH _ _ Hr e a i). }
  rewrite parse_blocks_cons_DL in Hr |- *. rewrite block_entries_DL in Hin.
  unfold and_then in *.
  pose proof (parse_blocks_ok rt targets resp prio sec
                (seen_after (parse_entries rt targets resp prio sec seen
                               (zip dts dds))) bs) as (Hgrow & _).
  destruct (raised (parse_entries rt targets resp prio sec seen (zip dts dds)))
    eqn:R1.
  { rewrite R1 in Hr. discriminate. }
  simpl in Hr |- *. apply elem_of_app in Hin as [Hin|Hin].
  - apply Hgrow. now apply (parse_entries_reads _ _ _ _ _ _ _ R1 e a i).
  - now apply (IH _ _ Hr e a i).
Qed.

(** C3.  An entry whose identifier has the expected shape, whose subject
    text is not empty and whose declared codes miss the target set is not
    followed, yet its identifier is in [seen_ids] afterwards: the set
    grows by one when the identifier is new while the requests do not, and
    any later entry with this identifier, in any listing, is dropped.  So
    after a [parse] that was not left by an exception, the identifier of
    every entry of the page that has one is in [seen_ids], whatever the
    category test said. *)
Theorem filtered_id_recorded
    (rt : runtime) (targets : gset (list N)) (resp : response) (prio : Z)
    (sec : list N * Z) (seen : gset (list N)) (e : dt_elem * dd_elem)
    (abs_url arxiv_id : list N) :
  entry_id rt resp e.1 = Found abs_url arxiv_id ->
  subjects_text_of rt e.2 <> [] ->
  paper_categories_of rt (subjects_text_of rt e.2) ∩ targets = ∅ ->
  let r := parse_entry rt targets resp prio sec seen e in
  arxiv_id ∈ seen_after r
  /\ requests (produced r) = []
  /\ raised r = None
  /\ (arxiv_id ∉ seen ->
      size (seen_after r) = S (size seen)
      /\ forall n, n <= size seen ->
                   n + length (requests (produced r)) < size (seen_after r))
  /\ (forall targets' resp' prio' sec' seen' e' abs_url',
        seen_after r ⊆ seen' ->
        entry_id rt resp' e'.1 = Found abs_url' arxiv_id ->
        parse_entry rt targets' resp' prio' sec' seen' e' = Scan seen' [] None)
  /\ (forall sp page e' a i,
        parse_raises rt sp page = None ->
        e' ∈ page_entries page -> entry_id rt page e'.1 = Found a i ->
        i ∈ seen_ids (parse rt sp page).1).
Proof.
  intros E Ht Hc r.
  assert (Hw : wanted rt targets (subjects_text_of rt e.2) = false)
    by (now apply wanted_false).
  assert (Hin : arxiv_id ∈ seen_after r).
  { eapply (parse_entry_requests rt targets resp prio sec seen e). exact E. }
  assert (Hreq : requests (produced r) = [] /\ raised r = None).
  { subst r. destruct (decide (arxiv_id ∈ seen)) as [Hi|Hi].
    - now rewrite (parse_entry_seen _ _ _ _ _ _ _ _ _ E Hi).
    - now rewrite (parse_entry_unwanted _ _ _ _ _ _ _ _ _ E Hi Hw). }
  destruct Hreq as [Hreq Hr].
  split; [exact Hin|]. split; [exact Hreq|]. split; [exact Hr|].
  split; [|split].
  - intros Hi. rewrite Hreq.
    assert (Hsz : size (seen_after r) = S (size seen)).
    { subst r. rewrite (parse_entry_unwanted _ _ _ _ _ _ _ _ _ E Hi Hw). simpl.
      rewrite size_union by set_solver. rewrite size_singleton. lia. }
    split; [exact Hsz|]. intros n Hn. simpl. lia.
  - intros targets' resp' prio' sec' seen' e' abs_url' Hsub E'.
    apply (parse_entry_seen _ _ _ _ _ _ _ _ _ E'). set_solver.
  - intros sp page e' a i Hno Hin' E'.
    exact (parse_blocks_reads rt (target_categories sp) page
             (priority (source_cat rt page)) (u "other", 3%Z) (seen_ids sp)
             (dlpage page) Hno e' a i Hin' E').
Qed.

(** The theorem at a sample entry with a foreign subject. *)
Lemma filtered_id_recorded_witness :
  let rt := Sample.plain_runtime in
  let e := Sample.entry "2401.00005" "Computer Vision (cs.CV)" in
  let r := parse_entry rt {[u "math.QA"]} Sample.page_qa 0 (u "new", 0%Z) ∅ e in
  entry_id rt Sample.page_qa e.1
    = Found (u "https://arxiv.org/abs/2401.00005") (u "2401.00005")
  /\ u "2401.00005" ∈ seen_after r /\ requests (produced r) = [].
Proof.
  intros rt e r.
  assert (E : entry_id rt Sample.page_qa e.1
              = Found (u "https://arxiv.org/abs/2401.00005") (u "2401.00005"))
    by (vm_compute; reflexivity).
  split; [exact E|].
  assert (Ht : subjects_text_of rt e.2 <> []) by (vm_compute; discriminate).
  assert (Hc : paper_categories_of rt (subjects_text_of rt e.2) ∩ {[u "math.QA"]} = ∅)
    by (vm_compute; reflexivity).
  pose proof (filtered_id_recorded rt {[u "math.QA"]} Sample.page_qa 0 (u "new", 0%Z)
                ∅ e _ _ E Ht Hc) as H.
  split; [exact (proj1 H) | exact (proj1 (proj2 H))].
Defined.

(** ** Crawls *)

Lemma crawl_from_app (rt : runtime) (c : crawl) (evs1 evs2 : list event) :
  crawl_from rt c (evs1 ++ evs2) = crawl_from rt (crawl_from rt c evs1) evs2.
Proof. apply fold_left_app. Qed.

Lemma crawl_from_cons (rt : runtime) (c : crawl) (ev : event) (evs : list event) :
  crawl_from rt c (ev :: evs) = crawl_from rt (step rt c ev) evs.
Proof. reflexivity. Qed.

Lemma step_listing (rt : runtime) (c : crawl) (resp : response) :
  step rt c (Listing resp)
  = let r := parse rt (the_spider c) resp in
    {| the_spider := r.1;
       waiting := waiting c ++ requests r.2;
       dispatched := dispatched c ++ requests r.2;
       emitted := emitted c |}.
Proof. simpl. now destruct (parse rt (the_spider c) resp). Qed.

Lemma step_detail (rt : runtime) (c : crawl) (k : nat) (resp : abs_response) (m : meta_item) :
  waiting c !! k = Some m ->
  step rt c (Detail k resp)
  = let r := parse_abs rt (the_spider c) resp m in
    {| the_spider := r.1;
       waiting := delete k (waiting c);
       dispatched := dispatched c;
       emitted := emitted c ++ r.2 |}.
Proof. intros H. simpl. rewrite H. now destruct (parse_abs rt _ _ _). Qed.

Lemma step_detail_idle (rt : runtime) (c : crawl) (k : nat) (resp : abs_response) :
  waiting c !! k = None -> step rt c (Detail k resp) = c.
Proof. intros H. simpl. now rewrite H. Qed.

Lemma map_r_id_strip (items : list item) :
  map r_id (map strip_keys items) = map (fun it => id (meta it)) items.
Proof. rewrite map_map. reflexivity. Qed.

Lemma seen_step (rt : runtime) (c : crawl) (ev : event) :
  seen_ids (the_spider c) ⊆ seen_ids (the_spider (step rt c ev)).
Proof.
  destruct ev as [resp|k resp].
  - rewrite step_listing. simpl.
    now destruct (parse_ok rt (the_spider c) resp) as [(H & _) _].
  - destruct (waiting c !! k) as [m|] eqn:E.
    + rewrite (step_detail rt _ _ _ _ E). simpl. rewrite parse_abs_batch.
      cbv zeta. now destruct (release_due _ _).
    + now rewrite (step_detail_idle rt _ _ _ E).
Qed.

Lemma seen_crawl (rt : runtime) (c : crawl) (evs : list event) :
  seen_ids (the_spider c) ⊆ seen_ids (the_spider (crawl_from rt c evs)).
Proof.
  revert c. induction evs as [|ev evs IH]; intros c; [reflexivity|].
  rewrite crawl_from_cons. etransitivity; [apply seen_step|apply IH].
Qed.

Lemma crawl_ok_start (sp : spider) : _buffer sp = [] -> crawl_ok (start sp).
Proof.
  intros H. unfold crawl_ok, in_flight. simpl. rewrite H. simpl.
  repeat split; try constructor; try lia. intros m Hm. inversion Hm.
Qed.

(** An answered request moves from the waiting list to the buffer ... *)
Lemma flight_buffered (w w' b e : list (list N)) (x : list N) :
  Permutation w (x :: w') ->
  Permutation (w' ++ (b ++ [x]) ++ e) (w ++ b ++ e).
Proof.
  intros ->. simpl. symmetry.
  replace (w' ++ (b ++ [x]) ++ e) with ((w' ++ b) ++ x :: e)
    by (now rewrite <- !app_assoc).
  apply Permutation_cons_app. now rewrite app_assoc.
Qed.

(** ... or, with the whole buffer, to the output. *)
Lemma flight_released (w w' b e s : list (list N)) (x : list N) :
  Permutation w (x :: w') -> Permutation s (b ++ [x]) ->
  Permutation (w' ++ [] ++ e ++ s) (w ++ b ++ e).
Proof.
  intros Hw ->. simpl. rewrite <- (flight_buffered w w' b e x Hw).
  apply Permutation_app_head, Permutation_app_comm.
Qed.

Lemma crawl_ok_step (rt : runtime) (c : crawl) (ev : event) :
  crawl_ok c -> crawl_ok (step rt c ev).
Proof.
  intros (Hnd & Hseen & Hperm & Hlen).
  destruct ev as [resp|k resp].
  - rewrite step_listing. cbv zeta.
    destruct (parse_ok rt (the_spider c) resp)
      as [(Hsub & Hnd' & Hreq & _ & Hsize) [_ Hbuf]].
    simpl in Hsub, Hnd', Hreq, Hsize.
    unfold crawl_ok, in_flight. simpl.
    rewrite !map_app, length_app. change (_buffer (parse rt (the_spider c) resp).1) with (_buffer (the_spider c)).
    split; [|split; [|split]].
    + apply NoDup_app. split; [exact Hnd|]. split; [|exact Hnd'].
      intros i Hi Hi'.
      apply list_elem_of_fmap in Hi as (m1 & -> & Hm1).
      apply list_elem_of_fmap in Hi' as (m2 & Heq & Hm2).
      destruct (Hreq m2 Hm2) as (Hnot & _). rewrite <- Heq in Hnot.
      apply Hnot, Hseen, Hm1.
    + intros m Hm. apply elem_of_app in Hm as [Hm|Hm].
      * apply Hsub, Hseen, Hm.
      * now destruct (Hreq m Hm) as (_ & ? & _).
    + rewrite <- Hperm. unfold in_flight.
      rewrite <- !app_assoc. apply Permutation_app_head.
      rewrite (Permutation_app_comm (map id (requests _))).
      now rewrite <- !app_assoc.
    + lia.
  - destruct (waiting c !! k) as [m|] eqn:E.
    2:{ rewrite (step_detail_idle rt _ _ _ E). now repeat split. }
    rewrite (step_detail rt _ _ _ _ E). cbv zeta.
    rewrite parse_abs_batch. cbv zeta.
    pose proof (Permutation_map id (delete_Permutation _ _ _ E)) as Hdel.
    unfold crawl_ok, in_flight in *.
    destruct (release_due _ _); simpl.
    + repeat split; auto.
      rewrite <- Hperm, map_app, map_r_id_strip.
      apply (flight_released _ _ _ _ _ (id m) Hdel).
      rewrite (Permutation_map _ (sort_items_Permutation _)).
      now rewrite map_app.
    + repeat split; auto.
      rewrite app_nil_r, <- Hperm, map_app.
      apply (flight_buffered _ _ _ _ (id m) Hdel).
Qed.

Lemma crawl_ok_crawl (rt : runtime) (c : crawl) (evs : list event) :
  crawl_ok c -> crawl_ok (crawl_from rt c evs).
Proof.
  revert c. induction evs as [|ev evs IH]; intros c H; [exact H|].
  rewrite crawl_from_cons. apply IH, crawl_ok_step, H.
Qed.

Lemma crawl_ok_init (rt : runtime) (env : option (list N)) (evs : list event) :
  crawl_ok (crawl_from rt (start (init rt env)) evs).
Proof. apply crawl_ok_crawl, crawl_ok_start. reflexivity. Qed.

(** With nothing waiting, further answers change nothing. *)
Lemma idle_details (rt : runtime) (c : crawl) (evs : list event) :
  waiting c = [] -> Forall is_detail evs -> crawl_from rt c evs = c.
Proof.
  intros Hw. induction 1 as [|ev evs Hev _ IH]; [reflexivity|].
  rewrite crawl_from_cons. destruct ev as [|k resp]; [contradiction|].
  rewrite step_detail_idle; [exact IH|]. now rewrite Hw.
Qed.

(** ** Reading a match backwards *)

Lemma last_of_cons (prev : option N) (w : list N) :
  w <> [] -> last_of prev w = last_of None w.
Proof. destruct w; [congruence|reflexivity]. Qed.

Lemma last_of_app (prev : option N) (a b : list N) :
  last_of prev (a ++ b) = last_of (last_of prev a) b.
Proof. revert prev. induction a as [|x a IH]; intros prev; simpl; auto. Qed.

Lemma takes_push (inside : bool) (c : N) (w cap : list N) :
  takes inside w (Re.push inside c cap) = takes inside (c :: w) cap.
Proof.
  unfold takes, Re.push. destruct inside; [|reflexivity].
  now rewrite <- app_assoc.
Qed.

Section Inversion.
Import Re.
Variables (rt : runtime) (r : regex) (inside : bool) (prev : option N)
          (s cap : list N) (res : result).

Lemma run_Chr c :
  run rt (Chr c :: r) inside prev s cap = Some res ->
  exists s', s = c :: s'
    /\ run rt r inside (Some c) s' (takes inside [c] cap) = Some res.
Proof.
  simpl. destruct s as [|d s']; [discriminate|].
  destruct (N.eqb_spec c d) as [<-|]; [|discriminate]. eauto.
Qed.

Lemma run_Cls p :
  run rt (Cls p :: r) inside prev s cap = Some res ->
  exists d s', s = d :: s' /\ p d = true
    /\ run rt r inside (Some d) s' (takes inside [d] cap) = Some res.
Proof.
  simpl. destruct s as [|d s']; [discriminate|].
  destruct (p d) eqn:E; [|discriminate]. eauto.
Qed.

Lemma run_Bnd :
  run rt (Bnd :: r) inside prev s cap = Some res ->
  xorb (word_before rt prev) (word_after rt s) = true
  /\ run rt r inside prev s cap = Some res.
Proof. simpl. destruct (xorb _ _); [auto|discriminate]. Qed.

Lemma run_Eos :
  run rt (Eos :: r) inside prev s cap = Some res ->
  at_end s = true /\ run rt r inside prev s cap = Some res.
Proof. simpl. destruct (at_end s); [auto|discriminate]. Qed.

Lemma run_Open :
  run rt (Open :: r) inside prev s cap = run rt r true prev s [].
Proof. reflexivity. Qed.

Lemma run_Close :
  run rt (Close :: r) inside prev s cap = run rt r false prev s cap.
Proof. reflexivity. Qed.

Lemma run_nil : run rt [] inside prev s cap = Some res -> res = (cap, s).
Proof. simpl. congruence. Qed.
End Inversion.

Lemma plus_loop_inv (p : N -> bool)
    (k : option N -> list N -> list N -> option Re.result)
    (inside : bool) (s cap : list N) (res : Re.result) :
  Re.plus_loop p k inside s cap = Some res ->
  exists w s',
    w <> [] /\ all_chars p w = true /\ s = w ++ s'
    /\ k (last_of None w) s' (takes inside w cap) = Some res.
Proof.
  revert cap. induction s as [|c s IH]; intros cap; simpl; [discriminate|].
  destruct (p c) eqn:Hc; [|discriminate].
  destruct (Re.plus_loop p k inside s (Re.push inside c cap)) eqn:E.
  - intros [= <-]. apply IH in E as (w & s' & Hw & Hall & -> & Hk).
    exists (c :: w), s'. split; [discriminate|].
    split; [simpl; now rewrite Hc|]. split; [reflexivity|].
    rewrite takes_push in Hk.
    change (last_of None (c :: w)) with (last_of (Some c) w).
    now rewrite (last_of_cons (Some c) w Hw).
  - intros Hk. exists [c], s.
    split; [discriminate|]. split; [simpl; now rewrite Hc|].
    split; [reflexivity|exact Hk].
Qed.

Lemma run_Plus (rt : runtime) (r : Re.regex) (inside : bool) (prev : option N)
    (s cap : list N) (res : Re.result) (p : N -> bool) :
  Re.run rt (Re.Plus p :: r) inside prev s cap = Some res ->
  exists w s',
    w <> [] /\ all_chars p w = true /\ s = w ++ s'
    /\ Re.run rt r inside (last_of None w) s' (takes inside w cap) = Some res.
Proof. simpl. apply plus_loop_inv. Qed.

(** A result of [search_at] is a match at some position. *)
Lemma search_at_inv (rt : runtime) (r : Re.regex) (prev : option N) (s : list N)
    (res : Re.result) :
  Re.search_at rt r prev s = Some res ->
  exists pre suf,
    s = pre ++ suf /\ Re.match_here rt r (last_of prev pre) suf = Some res.
Proof.
  revert prev. induction s as [|c s IH]; intros prev; simpl.
  - destruct (Re.match_here rt r prev []) eqn:E; [|discriminate].
    intros [= <-]. exists [], []. auto.
  - destruct (Re.match_here rt r prev (c :: s)) eqn:E.
    + intros [= <-]. exists [], (c :: s). auto.
    + intros H. apply IH in H as (pre & suf & -> & H).
      exists (c :: pre), suf. auto.
Qed.

Lemma search_inv (rt : runtime) (r : Re.regex) (s g : list N) :
  Re.search rt r s = Some g ->
  exists pre suf rest,
    s = pre ++ suf /\ Re.match_here rt r (last_of None pre) suf = Some (g, rest).
Proof.
  unfold Re.search. destruct (Re.search_at rt r None s) as [[g' rest]|] eqn:E;
    [|discriminate].
  intros [= <-]. apply search_at_inv in E as (pre & suf & -> & H). eauto.
Qed.

(** Every element of [findall] is the group of a match somewhere. *)
Lemma findall_at_inv (rt : runtime) (r : Re.regex) (prev : option N) (s : list N)
    (skip : nat) (g : list N) :
  In g (Re.findall_at rt r prev s skip) ->
  exists prev' suf rest, Re.match_here rt r prev' suf = Some (g, rest).
Proof.
  revert prev skip. induction s as [|c s IH]; intros prev skip; simpl.
  - destruct skip; [|intros []].
    destruct (Re.match_here rt r prev []) as [[g' rest]|] eqn:E;
      [|intros []].
    intros [<-|[]]. eauto.
  - destruct skip as [|k]; [|apply IH].
    destruct (Re.match_here rt r prev (c :: s)) as [[g' rest]|] eqn:E.
    + intros [<-|H]; [eauto|]. revert H. apply IH.
    + apply IH.
Qed.

Ltac inv_run H :=
  repeat first
    [ rewrite run_Open in H
    | rewrite run_Close in H
    | apply run_Chr in H as (? & -> & H)
    | apply run_Cls in H as (? & ? & -> & ? & H)
    | apply run_Bnd in H as (? & H)
    | apply run_Eos in H as (? & H)
    | apply run_Plus in H as (? & ? & ? & ? & -> & H) ];
  try apply run_nil in H.

Ltac atoms_of r H :=
  let r' := eval cbv [r Re.lits Re.rep List.app List.map List.repeat
                      u ord list_ascii_of_string N_of_ascii N_of_digits
                      N.add N.mul Pos.add Pos.mul Pos.succ] in r in
  change r with r' in H.

Ltac flat H := repeat (rewrite <- ?app_assoc in H; cbn [app] in H).
Ltac flat_goal := repeat (rewrite <- ?app_assoc; cbn [app]).

Lemma match_re_id (rt : runtime) (prev : option N) (suf g rest : list N) :
  Re.match_here rt re_id prev suf = Some (g, rest) ->
  suf = u "/abs/" ++ g ++ rest /\ is_arxiv_id g.
Proof.
  unfold Re.match_here. intros H. atoms_of re_id H. inv_run H.
  unfold takes in H. flat H. injection H as -> ->.
  split; [reflexivity|].
  eexists [_; _; _; _], [_; _; _; _; _].
  split; [reflexivity|]. simpl.
  repeat match goal with H : _ = true |- _ => rewrite H; clear H end. auto.
Qed.

Lemma match_re_h1 (rt : runtime) (prev : option N) (suf g rest : list N) :
  Re.match_here rt (re_h1 rt) prev suf = Some (g, rest) ->
  suf = g ++ rest /\ is_revision_tag rt g.
Proof.
  unfold Re.match_here. intros H. atoms_of re_h1 H. inv_run H.
  unfold takes in H. flat H. injection H as -> ->.
  split; [reflexivity|]. eexists. eauto.
Qed.

Lemma match_re_canonical (rt : runtime) (prev : option N) (suf g rest : list N) :
  Re.match_here rt (re_canonical rt) prev suf = Some (g, rest) ->
  is_revision_tag rt g /\ Re.at_end rest = true
  /\ exists a b,
       length a = 4 /\ length b = 5
       /\ all_chars (is_decimal rt) a = true /\ all_chars (is_decimal rt) b = true
       /\ suf = u "/abs/" ++ a ++ u "." ++ b ++ g ++ rest.
Proof.
  unfold Re.match_here. intros H. atoms_of re_canonical H. inv_run H.
  unfold takes in H. flat H. injection H as -> ->.
  split; [eexists; eauto|]. split; [assumption|].
  eexists [_; _; _; _], [_; _; _; _; _].
  split; [reflexivity|]. split; [reflexivity|].
  split; [|split]; [| |reflexivity]; simpl;
    repeat match goal with H : _ = true |- _ => rewrite H; clear H end; auto.
Qed.

Lemma match_re_code (rt : runtime) (prev : option N) (suf g rest : list N) :
  Re.match_here rt re_code prev suf = Some (g, rest) ->
  suf = u "(" ++ g ++ u ")" ++ rest /\ is_code g.
Proof.
  unfold Re.match_here. intros H. atoms_of re_code H. inv_run H.
  unfold takes in H. flat H. injection H as -> ->.
  split; [now flat_goal|]. unfold is_code. eauto 10.
Qed.

Lemma match_re_list (rt : runtime) (prev : option N) (suf g rest : list N) :
  Re.match_here rt re_list prev suf = Some (g, rest) ->
  suf = u "/list/" ++ g ++ u "/new" ++ rest
  /\ g <> []
  /\ all_chars (fun c => negb (c =? ord "/")%N) g = true.
Proof.
  unfold Re.match_here. intros H. atoms_of re_list H. inv_run H.
  unfold takes in H. flat H. injection H as -> ->.
  split; [now flat_goal|]. auto.
Qed.

(** ** The scan, exactly *)

Section ScanExact.
Variables (rt : runtime) (targets : gset (list N)) (resp : response) (prio : Z).

Lemma parse_entry_exact sec seen e :
  scan_exact (entry_ids rt targets resp seen [e]) seen
    (parse_entry rt targets resp prio sec seen e).
Proof.
  rewrite entry_ids_one. unfold scan_exact.
  destruct (entry_id rt resp e.1) as [| |a i] eqn:E; simpl.
  { rewrite (parse_entry_skipped _ _ _ _ _ _ _ E). simpl.
    split; [set_solver|]. split; [constructor|]. split; [set_solver|].
    split; [tauto|]. split; [discriminate|]. constructor. }
  { rewrite (parse_entry_raised _ _ _ _ _ _ _ E). simpl.
    split; [set_solver|]. split; [constructor|]. split; [set_solver|].
    split; [tauto|]. split; [discriminate|]. constructor. }
  destruct (decide (i ∈ seen)) as [Hi|Hi].
  { rewrite (parse_entry_seen _ _ _ _ _ _ _ _ _ E Hi). simpl.
    split; [set_solver|]. split; [constructor|]. split; [set_solver|].
    split; [tauto|]. split; [discriminate|]. apply sublist_nil_l. }
  destruct (wanted rt targets (subjects_text_of rt e.2)) eqn:Hw;
    [destruct (follow resp a) eqn:Hf|].
  - rewrite (parse_entry_wanted _ _ _ _ _ _ _ _ _ E Hi Hw Hf). simpl.
    split; [set_solver|]. split; [repeat constructor; set_solver|].
    split; [set_solver|]. split; [intros j Hj Hj'; left; set_solver|].
    split; [discriminate|]. reflexivity.
  - rewrite (parse_entry_unfollowed _ _ _ _ _ _ _ _ _ E Hi Hw Hf). simpl.
    split; [set_solver|]. split; [constructor|]. split; [set_solver|].
    split.
    { intros j Hj Hj'. right. split; [reflexivity|].
      f_equal. apply elem_of_union in Hj as [Hj|Hj]; [tauto|].
      now apply elem_of_singleton in Hj. }
    split; [|apply sublist_nil_l].
    intros _. exists i. split; [reflexivity|]. split; [exact Hi|]. set_solver.
  - rewrite (parse_entry_unwanted _ _ _ _ _ _ _ _ _ E Hi Hw). simpl.
    split; [set_solver|]. split; [repeat constructor; set_solver|].
    split; [set_solver|]. split; [intros j Hj Hj'; left; set_solver|].
    split; [discriminate|]. reflexivity.
Qed.

Lemma last_app_r {A : Type} (l1 l2 : list A) (x : A) :
  last l2 = Some x -> last (l1 ++ l2) = Some x.
Proof. intros H. rewrite last_app. now rewrite H. Qed.

Lemma scan_exact_app ids1 ids2 seen r1 r2 :
  raised r1 = None ->
  scan_exact ids1 seen r1 -> scan_exact ids2 (seen_after r1) r2 ->
  scan_exact (ids1 ++ ids2) seen
    (Scan (seen_after r2) (produced r1 ++ produced r2) (raised r2)).
Proof.
  intros Hr1 (Hs1 & Hn1 & Hi1 & Hj1 & Hf1 & Hl1) (Hs2 & Hn2 & Hi2 & Hj2 & Hf2 & Hl2).
  unfold scan_exact. simpl. rewrite map_app.
  assert (Hsub1 : seen ⊆ seen_after r1) by (rewrite Hs1; apply union_subseteq_l).
  assert (Hsub2 : seen_after r1 ⊆ seen_after r2)
    by (rewrite Hs2; apply union_subseteq_l).
  split; [now rewrite Hs2, Hs1, list_to_set_app_L, assoc_L by apply _|].
  split.
  { apply NoDup_app. split; [exact Hn1|]. split; [|exact Hn2].
    intros i H1 H2. apply Hi1 in H1 as [H1 _]. apply Hi2 in H2 as [_ H2]. auto. }
  split.
  { intros i Hi. apply elem_of_app in Hi as [Hi|Hi].
    - apply Hi1 in Hi as [H1 H2]. split; [now apply Hsub2|exact H2].
    - apply Hi2 in Hi as [H1 H2]. split; [exact H1|]. intros H. apply H2.
      now apply Hsub1. }
  split.
  { intros i Hi Hi'. destruct (decide (i ∈ seen_after r1)) as [Hin|Hin].
    - destruct (Hj1 i Hin Hi') as [H|[H _]]; [|congruence].
      left. apply elem_of_app. now left.
    - destruct (Hj2 i Hi Hin) as [H|[H1 H2]].
      + left. apply elem_of_app. now right.
      + right. split; [exact H1|]. now apply last_app_r. }
  split; [|now apply sublist_app].
  intros Hr2. destruct (Hf2 Hr2) as (i & H1 & H2 & H3).
  exists i. split; [now apply last_app_r|]. split.
  - intros H. apply H2. now apply Hsub1.
  - intros H. apply elem_of_app in H as [H|H]; [|tauto].
    apply Hi1 in H as [H _]. tauto.
Qed.

Lemma scan_exact_then ids1 ids2 seen r1 r2 :
  scan_exact ids1 seen r1 -> scan_exact ids2 (seen_after r1) r2 ->
  scan_exact (ids1 ++ (if raised r1 is Some _ then [] else ids2)) seen
    (and_then r1 r2).
Proof.
  intros H1 H2. unfold and_then. destruct (raised r1) eqn:R1.
  - now rewrite app_nil_r.
  - now apply scan_exact_app.
Qed.

Lemma scan_exact_nil seen : scan_exact [] seen (Scan seen [] None).
Proof.
  unfold scan_exact. simpl. split; [set_solver|]. split; [constructor|].
  split; [set_solver|]. split; [tauto|]. split; [discriminate|]. constructor.
Qed.

Lemma parse_entries_exact sec seen es :
  scan_exact (entry_ids rt targets resp seen es) seen
    (parse_entries rt targets resp prio sec seen es).
Proof.
  revert seen. induction es as [|e es IH]; intros seen.
  - apply scan_exact_nil.
  - rewrite parse_entries_cons, (entry_ids_cons rt targets resp prio sec).
    apply scan_exact_then; [apply parse_entry_exact | apply IH].
Qed.

Lemma parse_blocks_exact sec seen bs :
  scan_exact (entry_ids rt targets resp seen (block_entries bs)) seen
    (parse_blocks rt targets resp prio sec seen bs).
Proof.
  revert sec seen. induction bs as [|[texts|dts dds] bs IH]; intros sec seen.
  - apply scan_exact_nil.
  - simpl. apply IH.
  - rewrite parse_blocks_cons_DL, block_entries_DL,
      (entry_ids_app rt targets resp prio sec).
    apply scan_exact_then; [apply parse_entries_exact|apply IH].
Qed.
End ScanExact.

Lemma parse_exact (rt : runtime) (sp : spider) (resp : response) :
  scan_exact (listed rt sp resp) (seen_ids sp)
    (Scan (seen_ids (parse rt sp resp).1) (parse rt sp resp).2
       (parse_raises rt sp resp)).
Proof.
  rewrite parse_unfold. cbv zeta. simpl.
  exact (parse_blocks_exact rt (target_categories sp) resp
           (priority (source_cat rt resp)) (u "other", 3%Z) (seen_ids sp)
           (dlpage resp)).
Qed.

Lemma size_new_ids (seen seen' : gset (list N)) (l : list (list N)) :
  NoDup l -> (forall i, i ∈ l <-> i ∈ seen' /\ (i ∉ seen)) -> seen ⊆ seen' ->
  size seen' = size seen + length l.
Proof.
  intros Hnd Hl Hsub.
  assert (Heq : seen' = seen ∪ list_to_set l).
  { apply set_eq. intros i. rewrite elem_of_union, elem_of_list_to_set, Hl.
    specialize (Hsub i). destruct (decide (i ∈ seen)); tauto. }
  rewrite Heq, size_union.
  - now rewrite size_list_to_set.
  - intros i Hi Hi'. apply elem_of_list_to_set, Hl in Hi'. tauto.
Qed.

Lemma with_seen_same (sp : spider) : with_seen sp (seen_ids sp) = sp.
Proof. now destruct sp. Qed.

(** ** Where an effect comes from *)

(** The entries of the list blocks of a page, in document order. *)
Lemma parse_entry_origin (rt : runtime) targets resp prio sec seen e x :
  x ∈ produced (parse_entry rt targets resp prio sec seen e) ->
  exists a i,
    entry_id rt resp e.1 = Found a i /\ (i ∉ seen)
    /\ let text := subjects_text_of rt e.2 in
       let codes := paper_categories_of rt text in
       (x = Follow a (stub_of rt prio sec a i e.2)
        /\ (codes ∩ targets ≠ ∅ \/ text = []))
       \/ (x = LogDebug i codes targets
           /\ codes ∩ targets = ∅ /\ text <> []).
Proof.
  destruct (entry_id rt resp e.1) as [| |a i] eqn:E.
  { rewrite (parse_entry_skipped _ _ _ _ _ _ _ E). simpl. intros H. inversion H. }
  { rewrite (parse_entry_raised _ _ _ _ _ _ _ E). simpl. intros H. inversion H. }
  destruct (decide (i ∈ seen)) as [Hi|Hi].
  { rewrite (parse_entry_seen _ _ _ _ _ _ _ _ _ E Hi). simpl. intros H. inversion H. }
  destruct (wanted rt targets (subjects_text_of rt e.2)) eqn:Hw;
    [destruct (follow resp a) eqn:Hf|].
  - rewrite (parse_entry_wanted _ _ _ _ _ _ _ _ _ E Hi Hw Hf). simpl.
    intros H. apply list_elem_of_singleton in H as ->.
    exists a, i. split; [reflexivity|]. split; [exact Hi|].
    left. split; [reflexivity|]. now apply wanted_spec in Hw.
  - rewrite (parse_entry_unfollowed _ _ _ _ _ _ _ _ _ E Hi Hw Hf). simpl.
    intros H. inversion H.
  - rewrite (parse_entry_unwanted _ _ _ _ _ _ _ _ _ E Hi Hw). simpl.
    intros H. apply list_elem_of_singleton in H as ->.
    exists a, i. split; [reflexivity|]. split; [exact Hi|].
    right. split; [reflexivity|]. now apply wanted_false in Hw.
Qed.

(** ** One request per identifier *)

Lemma listed_seen (rt : runtime) (c : crawl) (evs1 evs2 : list event)
    (resp : response) (i : list N) :
  i ∈ listed rt (the_spider (crawl_from rt c evs1)) resp ->
  i ∈ seen_ids (the_spider (crawl_from rt c (evs1 ++ Listing resp :: evs2))).
Proof.
  intros Hi.
  rewrite crawl_from_app, crawl_from_cons. apply seen_crawl.
  rewrite step_listing. simpl.
  destruct (parse_ok rt (the_spider (crawl_from rt c evs1)) resp)
    as [(_ & _ & _ & H & _) _].
  now apply H.
Qed.

Lemma emitted_dispatched (c : crawl) :
  crawl_ok c ->
  NoDup (map r_id (emitted c))
  /\ (forall r, r ∈ emitted c -> r_id r ∈ map id (dispatched c)).
Proof.
  intros (Hnd & _ & Hperm & _). rewrite <- Hperm in Hnd.
  unfold in_flight in *. split.
  - apply NoDup_app in Hnd as (_ & _ & Hnd).
    now apply NoDup_app in Hnd as (_ & _ & Hnd).
  - intros r Hr. rewrite <- Hperm. rewrite !elem_of_app. right. right.
    now apply list_elem_of_fmap_2.
Qed.

(** The target set is fixed at start-up. *)
Lemma targets_step (rt : runtime) (c : crawl) (ev : event) :
  target_categories (the_spider (step rt c ev)) = target_categories (the_spider c).
Proof.
  destruct ev as [resp|k resp].
  - now rewrite step_listing.
  - destruct (waiting c !! k) as [m|] eqn:E.
    + rewrite (step_detail _ _ _ _ _ E). simpl. rewrite parse_abs_batch.
      cbv zeta. now destruct (release_due _ _).
    + now rewrite (step_detail_idle _ _ _ _ E).
Qed.

Lemma targets_crawl (rt : runtime) (c : crawl) (evs : list event) :
  target_categories (the_spider (crawl_from rt c evs))
  = target_categories (the_spider c).
Proof.
  revert c. induction evs as [|ev evs IH]; intros c; [reflexivity|].
  rewrite crawl_from_cons, IH. apply targets_step.
Qed.

(** A request of a crawl was either made already, or its identifier was
    not yet in [seen_ids]. *)
Lemma later_requests (rt : runtime) (c : crawl) (evs : list event) (m : meta_item) :
  m ∈ dispatched (crawl_from rt c evs) ->
  m ∈ dispatched c \/ (id m ∉ seen_ids (the_spider c)).
Proof.
  revert c. induction evs as [|ev evs IH]; intros c Hm; [now left|].
  rewrite crawl_from_cons in Hm. apply IH in Hm.
  pose proof (seen_step rt c ev) as Hsub.
  destruct Hm as [Hm|Hm]; [|right; set_solver].
  destruct ev as [resp|k resp].
  - rewrite step_listing in Hm. simpl in Hm.
    apply elem_of_app in Hm as [Hm|Hm]; [now left|right].
    destruct (parse_ok rt (the_spider c) resp) as [(_ & _ & Hreq & _) _].
    now destruct (Hreq m Hm) as (? & _).
  - destruct (waiting c !! k) as [m0|] eqn:E.
    + rewrite (step_detail _ _ _ _ _ E) in Hm. now left.
    + rewrite (step_detail_idle _ _ _ _ E) in Hm. now left.
Qed.

Lemma earlier_requests (rt : runtime) (c : crawl) (evs : list event) (m : meta_item) :
  m ∈ dispatched c -> m ∈ dispatched (crawl_from rt c evs).
Proof.
  revert c. induction evs as [|ev evs IH]; intros c Hd; [exact Hd|].
  rewrite crawl_from_cons. apply IH.
  destruct ev as [r|k r].
  - rewrite step_listing. simpl. apply elem_of_app. now left.
  - destruct (waiting c !! k) as [m0|] eqn:E.
    + now rewrite (step_detail _ _ _ _ _ E).
    + now rewrite (step_detail_idle _ _ _ _ E).
Qed.

(** Every effect of the scan comes from an entry of the page: a request
    from one that passed the category test, a debug line from one that
    failed it. *)
Lemma parse_entries_origin (rt : runtime) targets resp prio sec seen es x :
  x ∈ produced (parse_entries rt targets resp prio sec seen es) ->
  exists e a i,
    e ∈ es /\ entry_id rt resp e.1 = Found a i
    /\ ((x = Follow a (stub_of rt prio sec a i e.2)
         /\ passes_category_test rt targets e.2)
        \/ (x = LogDebug i (paper_categories_of rt (subjects_text_of rt e.2)) targets
            /\ ~ passes_category_test rt targets e.2)).
Proof.
  revert seen. induction es as [|e es IH]; intros seen.
  { simpl. intros H. inversion H. }
  rewrite parse_entries_cons. unfold and_then.
  assert (H1 : x ∈ produced (parse_entry rt targets resp prio sec seen e) ->
               exists e0 a i,
                 e0 ∈ e :: es /\ entry_id rt resp e0.1 = Found a i
                 /\ ((x = Follow a (stub_of rt prio sec a i e0.2)
                      /\ passes_category_test rt targets e0.2)
                     \/ (x = LogDebug i
                               (paper_categories_of rt (subjects_text_of rt e0.2))
                               targets
                         /\ ~ passes_category_test rt targets e0.2))).
  { intros H. apply parse_entry_origin in H as (a & i & E & _ & H).
    exists e, a, i. split; [left|]. split; [exact E|].
    unfold passes_category_test. cbv zeta in H.
    destruct H as [[-> H]|[-> [H H']]]; [left; auto|right].
    split; [reflexivity|]. intros [?|?]; congruence. }
  destruct (raised (parse_entry rt targets resp prio sec seen e)); [exact H1|].
  simpl. intros H. apply elem_of_app in H as [H|H]; [now apply H1|].
  apply IH in H as (e0 & a & i & Hin & H).
  exists e0, a, i. split; [now right|exact H].
Qed.

Lemma parse_blocks_origin (rt : runtime) targets resp prio sec seen bs x :
  x ∈ produced (parse_blocks rt targets resp prio sec seen bs) ->
  exists e sec' a i,
    e ∈ block_entries bs
    /\ entry_id rt resp e.1 = Found a i
    /\ ((x = Follow a (stub_of rt prio sec' a i e.2)
         /\ passes_category_test rt targets e.2)
        \/ (x = LogDebug i (paper_categories_of rt (subjects_text_of rt e.2)) targets
            /\ ~ passes_category_test rt targets e.2)).
Proof.
  revert sec seen. induction bs as [|[texts|dts dds] bs IH]; intros sec seen.
  { simpl. intros H. inversion H. }
  { simpl. apply IH. }
  rewrite parse_blocks_cons_DL, block_entries_DL. unfold and_then.
  assert (H1 : x ∈ produced (parse_entries rt targets resp prio sec seen (zip dts dds)) ->
               exists e sec' a i,
                 e ∈ zip dts dds ++ block_entries bs
                 /\ entry_id rt resp e.1 = Found a i
                 /\ ((x = Follow a (stub_of rt prio sec' a i e.2)
                      /\ passes_category_test rt targets e.2)
                     \/ (x = LogDebug i
                               (paper_categories_of rt (subjects_text_of rt e.2))
                               targets
                         /\ ~ passes_category_test rt targets e.2))).
  { intros H. apply parse_entries_origin in H as (e & a & i & Hin & H).
    exists e, sec, a, i. split; [apply elem_of_app; now left|exact H]. }
  destruct (raised (parse_entries rt targets resp prio sec seen (zip dts dds)));
    [exact H1|].
  simpl. intros H. apply elem_of_app in H as [H|H]; [now apply H1|].
  apply IH in H as (e & sec' & a & i & Hin & H).
  exists e, sec', a, i. split; [apply elem_of_app; now right|exact H].
Qed.

Lemma requests_elem (out : list effect) (m : meta_item) :
  m ∈ requests out <-> exists a, Follow a m ∈ out.
Proof.
  unfold requests. rewrite list_elem_of_omap. split.
  - intros ([a m'|] & Hin & H); [|discriminate]. injection H as ->. eauto.
  - intros (a & H). exists (Follow a m). auto.
Qed.

Lemma NoDup_fmap_same {A B : Type} (f : A -> B) (l : list A) (x y : A) :
  NoDup (map f l) -> x ∈ l -> y ∈ l -> f x = f y -> x = y.
Proof.
  induction l as [|z l IH]; simpl; intros Hnd Hx Hy Hf; [inversion Hx|].
  apply NoDup_cons in Hnd as [Hz Hnd].
  apply elem_of_cons in Hx as [->|Hx]; apply elem_of_cons in Hy as [->|Hy]; auto.
  - exfalso. apply Hz. rewrite Hf. now apply list_elem_of_fmap_2.
  - exfalso. apply Hz. rewrite <- Hf. now apply list_elem_of_fmap_2.
Qed.

(** C5, as the source has it.  An identifier is added to [seen_ids] the
    first time an entry shows it, and every later entry showing it is
    dropped.  In every crawl no two requests carry the same identifier,
    every requested identifier is in [seen_ids], and no two yielded
    records carry the same identifier.  A request made while a listing is
    parsed comes from an entry of that listing which passed the category
    test, carries the priority of that listing's category, and its
    identifier was read from no listing parsed earlier.  An identifier
    whose entry failed the category test is never requested, by this
    listing or any other: an identifier read from several listings is
    requested by the first that reads it, if its entry there passes the
    test, or not at all. *)
Theorem one_request_per_identifier
    (rt : runtime) (env : option (list N)) (evs : list event) :
  let c := crawl_from rt (start (init rt env)) evs in
  (forall targets resp prio sec seen e a i,
      entry_id rt resp e.1 = Found a i ->
      (i ∉ seen -> i ∈ seen_after (parse_entry rt targets resp prio sec seen e))
      /\ (i ∈ seen ->
          parse_entry rt targets resp prio sec seen e = Scan seen [] None))
  /\ NoDup (map id (dispatched c))
  /\ (forall m, m ∈ dispatched c -> id m ∈ seen_ids (the_spider c))
  /\ NoDup (map r_id (emitted c))
  /\ (forall r, r ∈ emitted c -> r_id r ∈ map id (dispatched c))
  /\ (forall evs1 resp evs2,
        evs = evs1 ++ Listing resp :: evs2 ->
        let c1 := crawl_from rt (start (init rt env)) evs1 in
        let effects := (parse rt (the_spider c1) resp).2 in
        let out := requests effects in
        (forall m, m ∈ out ->
           m ∈ dispatched c
           /\ cat_priority m = priority (source_cat rt resp)
           /\ id m ∈ listed rt (the_spider c1) resp
           /\ (id m ∉ seen_ids (the_spider c1))
           /\ exists e sec a,
                e ∈ page_entries resp
                /\ entry_id rt resp e.1 = Found a (id m)
                /\ m = stub_of rt (priority (source_cat rt resp)) sec a (id m) e.2
                /\ passes_category_test rt (target_categories (init rt env)) e.2)
        /\ (forall i codes targets,
              LogDebug i codes targets ∈ effects ->
              (exists e a,
                 e ∈ page_entries resp
                 /\ entry_id rt resp e.1 = Found a i
                 /\ ~ passes_category_test rt (target_categories (init rt env)) e.2)
              /\ (i ∉ seen_ids (the_spider c1))
              /\ i ∈ seen_ids (the_spider c)
              /\ forall m, m ∈ dispatched c -> id m <> i)
        /\ (forall evs0 resp0 evs' i,
              evs1 = evs0 ++ Listing resp0 :: evs' ->
              i ∈ listed rt
                    (the_spider (crawl_from rt (start (init rt env)) evs0)) resp0 ->
              i ∈ seen_ids (the_spider c1)
              /\ forall m, m ∈ out -> id m <> i)).
Proof.
  intros c. pose proof (crawl_ok_init rt env evs) as Hok. fold c in Hok.
  destruct (emitted_dispatched c Hok) as [He1 He2].
  destruct Hok as (Hnd & Hseen & _ & _).
  split.
  { intros targets resp prio sec seen e a i E. split.
    - intros _.
      destruct (parse_entry_requests rt targets resp prio sec seen e) as (_ & _ & H).
      now apply (H a i).
    - intros Hi. now apply (parse_entry_seen _ _ _ _ _ _ _ _ _ E). }
  repeat (split; [assumption|]).
  intros evs1 resp evs2 Hevs c1 effects out.
  destruct (parse_ok rt (the_spider c1) resp) as [(_ & _ & Hreq & _) _].
  simpl in Hreq. fold effects in Hreq. fold out in Hreq.
  pose proof (parse_exact rt (the_spider c1) resp) as (Hex1 & Hex2 & Hex3 & _).
  simpl in Hex1, Hex2, Hex3. fold effects in Hex2, Hex3.
  assert (Htg : target_categories (the_spider c1) = target_categories (init rt env))
    by apply targets_crawl.
  assert (Hc : c = crawl_from rt (step rt c1 (Listing resp)) evs2).
  { subst c. now rewrite Hevs, crawl_from_app, crawl_from_cons. }
  assert (Hd2 : dispatched (step rt c1 (Listing resp)) = dispatched c1 ++ out).
  { now rewrite step_listing. }
  assert (Horigin : forall x, x ∈ effects ->
            exists e sec' a i,
              e ∈ page_entries resp /\ entry_id rt resp e.1 = Found a i
              /\ ((x = Follow a (stub_of rt (priority (source_cat rt resp)) sec' a i e.2)
                   /\ passes_category_test rt (target_categories (init rt env)) e.2)
                  \/ (x = LogDebug i
                            (paper_categories_of rt (subjects_text_of rt e.2))
                            (target_categories (init rt env))
                      /\ ~ passes_category_test rt (target_categories (init rt env)) e.2))).
  { intros x Hx. subst effects. rewrite parse_unfold in Hx. cbv zeta in Hx.
    simpl in Hx. rewrite Htg in Hx. now apply parse_blocks_origin in Hx. }
  assert (Hout : forall m, m ∈ out ->
            m ∈ dispatched c /\ cat_priority m = priority (source_cat rt resp)
            /\ id m ∈ listed rt (the_spider c1) resp
            /\ (id m ∉ seen_ids (the_spider c1))).
  { intros m Hm. destruct (Hreq m Hm) as (H1 & _ & H3 & H4 & _).
    repeat split; auto.
    rewrite Hc. apply earlier_requests. rewrite Hd2. apply elem_of_app. now right. }
  split; [|split].
  - intros m Hm. destruct (Hout m Hm) as (? & ? & ? & ?).
    repeat (split; [assumption|]).
    apply requests_elem in Hm as (a0 & Hm).
    destruct (Horigin _ Hm) as (e & sec' & a & i & Hin & E & [[Hx Hp]|[Hx _]]);
      [|discriminate].
    injection Hx as -> ->. exists e, sec', a. simpl. auto.
  - intros i codes targets Hlog.
    assert (Hi : i ∈ seen_ids (parse rt (the_spider c1) resp).1
                 /\ (i ∉ seen_ids (the_spider c1))).
    { apply Hex3. change i with (effect_id (LogDebug i codes targets)).
      now apply list_elem_of_fmap_2. }
    destruct Hi as [Hi1 Hi2].
    split; [|split; [exact Hi2|split]].
    + destruct (Horigin _ Hlog) as (e & sec' & a & i' & Hin & E & [[Hx _]|[Hx Hp]]);
        [discriminate|].
      injection Hx as -> _ _. eauto.
    + rewrite Hc. apply seen_crawl. now rewrite step_listing.
    + intros m Hm Heq. rewrite Hc in Hm.
      apply later_requests in Hm as [Hm|Hm].
      * rewrite Hd2 in Hm. apply elem_of_app in Hm as [Hm|Hm].
        -- apply Hi2. rewrite <- Heq.
           destruct (crawl_ok_init rt env evs1) as (_ & Hs & _). now apply Hs.
        -- apply requests_elem in Hm as (a0 & Hm).
           assert (Hsame : Follow a0 m = LogDebug i codes targets).
           { apply (NoDup_fmap_same effect_id effects); auto. }
           discriminate.
      * apply Hm. rewrite Heq, step_listing. exact Hi1.
  - intros evs0 resp0 evs' i Hev Hi.
    assert (Hin : i ∈ seen_ids (the_spider c1)).
    { unfold c1. rewrite Hev. now apply listed_seen. }
    split; [exact Hin|].
    intros m Hm Heq. destruct (Hout m Hm) as (_ & _ & _ & Hnot).
    rewrite Heq in Hnot. contradiction.
Qed.

(** C5, counterexample to the claim as stated: an identifier shown by
    the listings of two target categories and yielded by neither; and an
    identifier shown by both listings that the scan of the first never
    reaches, because an entry in front of it has a link that cannot be
    joined, and that is requested by the second, with the priority and
    the section it has there. *)
Lemma listed_twice_never_emitted :
  let i := u "2401.00009" in
  let evs := [Listing Sample.page_qa_foreign; Listing Sample.page_rt_foreign] in
  let i' := u "2401.00002" in
  let evs' := [Listing Sample.page_unjoinable; Listing Sample.page_rt_cross] in
  (forall rt, u "math.QA" ∈ target_categories (Sample.qa_rt rt)
              /\ u "math.RT" ∈ target_categories (Sample.qa_rt rt))
  /\ (forall rt, In i (listed rt (Sample.qa_rt rt) Sample.page_qa_foreign)
                 /\ In i (listed rt (Sample.qa_rt rt) Sample.page_rt_foreign))
  /\ (forall rt,
        let c := crawl_from rt (start (Sample.qa_rt rt)) evs in
        waiting c = [] /\ _buffer (the_spider c) = [] /\ dispatched c = []
        /\ count_occ (List.list_eq_dec N.eq_dec) (map r_id (emitted c)) i = 0
        /\ forall more, Forall is_detail more ->
             count_occ (List.list_eq_dec N.eq_dec)
               (map r_id (emitted (crawl_from rt c more))) i <> 1)
  /\ (forall rt,
        Sample.entry "2401.00002" "Quantum Algebra (math.QA)"
          ∈ page_entries Sample.page_unjoinable
        /\ Sample.entry "2401.00002" "Quantum Algebra (math.QA)"
          ∈ page_entries Sample.page_rt_cross
        /\ passes_category_test rt (target_categories (Sample.qa_rt rt))
             (Sample.entry "2401.00002" "Quantum Algebra (math.QA)").2)
  /\ (forall rt,
        let c := crawl_from rt (start (Sample.qa_rt rt)) evs' in
        map id (dispatched c) = [i']
        /\ map cat_priority (dispatched c) = [priority (u "math.RT")]
        /\ map section (dispatched c) = [u "cross"]
        /\ priority (u "math.QA") <> priority (u "math.RT")).
Proof.
  intros i evs i' evs'.
  split; [intros rt; split; now vm_compute|].
  split; [intros rt; split; vm_compute; auto|].
  split.
  { intros rt c.
    assert (Hw : waiting c = []) by (vm_compute; reflexivity).
    assert (He : emitted c = []) by (vm_compute; reflexivity).
    split; [exact Hw|]. split; [vm_compute; reflexivity|].
    split; [vm_compute; reflexivity|].
    split; [now rewrite He|].
    intros more Hmore. rewrite (idle_details rt c more Hw Hmore), He. discriminate. }
  split.
  { intros rt. split; [|split].
    - apply list_elem_of_In. vm_compute. auto.
    - apply list_elem_of_In. vm_compute. auto.
    - left. vm_compute. discriminate. }
  intros rt c. repeat split; try (vm_compute; reflexivity). vm_compute. discriminate.
Qed.

(** ** The release threshold *)

Lemma in_flight_length (c : crawl) :
  crawl_ok c ->
  length (waiting c) + length (_buffer (the_spider c)) + length (emitted c)
  = length (dispatched c).
Proof.
  intros (_ & _ & Hperm & _). apply Permutation_length in Hperm.
  unfold in_flight in Hperm. rewrite !length_app, !length_map in Hperm. lia.
Qed.

(** The condition under which the test can no longer succeed: something
    was already yielded, or an identifier was recorded without a request. *)
Lemma stuck_step (rt : runtime) (c : crawl) (ev : event) :
  crawl_ok c ->
  emitted c <> [] \/ length (dispatched c) < size (seen_ids (the_spider c)) ->
  batch_of rt c ev = []
  /\ (emitted (step rt c ev) <> []
      \/ length (dispatched (step rt c ev)) < size (seen_ids (the_spider (step rt c ev)))).
Proof.
  intros Hok Hstuck. pose proof (in_flight_length c Hok) as Hlen.
  destruct Hok as (_ & _ & _ & Hle).
  destruct ev as [resp|k resp].
  - split; [reflexivity|]. rewrite step_listing. cbv zeta. simpl.
    destruct Hstuck as [He|Hlt]; [now left|right].
    destruct (parse_ok rt (the_spider c) resp) as [(_ & _ & _ & _ & Hsize) _].
    simpl in Hsize. rewrite length_app. lia.
  - destruct (waiting c !! k) as [m|] eqn:E.
    2:{ rewrite (step_detail_idle rt _ _ _ E). simpl. rewrite E. auto. }
    assert (Hw : 1 <= length (waiting c)).
    { apply lookup_lt_Some in E. lia. }
    assert (Hno : release_due
                    (_buffer (the_spider c) ++ [Item m (resolve_version rt resp)])
                    (seen_ids (the_spider c)) = false).
    { unfold release_due. apply Nat.leb_gt. rewrite length_app. simpl.
      destruct Hstuck as [He|Hlt]; [|lia].
      destruct (emitted c); [congruence|]. simpl in Hlen. lia. }
    rewrite (step_detail rt _ _ _ _ E). cbv zeta. simpl. rewrite E.
    rewrite parse_abs_batch. cbv zeta. rewrite Hno. simpl.
    split; [reflexivity|]. rewrite app_nil_r. exact Hstuck.
Qed.

Lemma stuck_crawl (rt : runtime) (c : crawl) (evs : list event) :
  crawl_ok c ->
  emitted c <> [] \/ length (dispatched c) < size (seen_ids (the_spider c)) ->
  emitted (crawl_from rt c evs) = emitted c.
Proof.
  revert c. induction evs as [|ev evs IH]; intros c Hok Hstuck; [reflexivity|].
  rewrite crawl_from_cons.
  destruct (stuck_step rt c ev Hok Hstuck) as [Hb Hstuck'].
  rewrite IH; [|now apply crawl_ok_step|exact Hstuck'].
  now rewrite emitted_step, Hb, app_nil_r.
Qed.

(** C2, where the claim fails.  The test after each append is the one
    claimed, but the last release does not follow from it.  In the first
    crawl the two listings are parsed one after the other, each request
    answered before the next listing arrives: after the last answer
    nothing is waiting, [seen_ids] holds two identifiers and the buffer
    one item, so the item of the second category stays in the buffer.  In
    the second crawl both listings are parsed before any answer; one
    identifier was rejected by the category test, so [seen_ids] holds
    three identifiers for two requests and nothing at all is yielded.  In
    general, once a crawl has yielded anything, or has recorded an
    identifier without requesting it, it yields nothing more, whatever
    listings and answers follow. *)
Theorem last_release_missed (rt : runtime) :
  (let c := crawl_from rt (start (Sample.qa_rt rt)) Sample.one_by_one in
   map id (dispatched c) = [u "2401.00002"; u "2401.00001"]
   /\ waiting c = []
   /\ size (seen_ids (the_spider c)) = 2
   /\ map (fun it => id (meta it)) (_buffer (the_spider c)) = [u "2401.00001"]
   /\ release_due (_buffer (the_spider c)) (seen_ids (the_spider c)) = false
   /\ map r_id (emitted c) = [u "2401.00002"])
  /\ (let c := crawl_from rt (start (Sample.qa_mathph rt)) Sample.listings_first in
      map id (dispatched c) = [u "2401.00002"; u "2401.00003"]
      /\ waiting c = []
      /\ size (seen_ids (the_spider c)) = 3
      /\ map (fun it => id (meta it)) (_buffer (the_spider c))
         = [u "2401.00002"; u "2401.00003"]
      /\ release_due (_buffer (the_spider c)) (seen_ids (the_spider c)) = false
      /\ emitted c = [])
  /\ (forall env evs evs',
        let c := crawl_from rt (start (init rt env)) evs in
        emitted c <> [] \/ length (dispatched c) < size (seen_ids (the_spider c)) ->
        emitted (crawl_from rt (start (init rt env)) (evs ++ evs')) = emitted c).
Proof.
  split; [|split].
  - repeat split; vm_compute; reflexivity.
  - repeat split; vm_compute; reflexivity.
  - intros env evs evs' c H. rewrite crawl_from_app. fold c.
    apply stuck_crawl; [apply crawl_ok_init|exact H].
Qed.

(** ** The revision tag *)

Lemma resolve_version_canonical (rt : runtime) (c g : list N) (h1 : list (list N)) :
  c <> [] ->
  Re.search rt (re_canonical rt) c = Some g -> g <> u "v1" ->
  resolve_version rt {| canonical := Some c; h1_texts := h1 |} = g.
Proof.
  intros Hc Hs Hg. unfold resolve_version. simpl.
  destruct c; [congruence|]. simpl nonempty. cbv iota.
  rewrite Hs. now rewrite bool_decide_eq_false_2.
Qed.

Lemma resolve_version_heading (rt : runtime) (resp : abs_response) (g : list N) :
  match canonical resp with
  | Some c => Re.search rt (re_canonical rt) c = None
  | None => True
  end ->
  Re.search rt (re_h1 rt) (join (u " ") (h1_texts resp)) = Some g ->
  resolve_version rt resp = g.
Proof.
  intros Hc Hh. unfold resolve_version.
  destruct (canonical resp) as [c|].
  - rewrite Hc. destruct (nonempty c); simpl; now rewrite Hh.
  - simpl. now rewrite Hh.
Qed.

Lemma resolve_version_default (rt : runtime) (resp : abs_response) :
  match canonical resp with
  | Some c => Re.search rt (re_canonical rt) c = None
  | None => True
  end ->
  Re.search rt (re_h1 rt) (join (u " ") (h1_texts resp)) = None ->
  resolve_version rt resp = u "v1".
Proof.
  intros Hc Hh. unfold resolve_version.
  destruct (canonical resp) as [c|].
  - rewrite Hc. destruct (nonempty c); simpl; now rewrite Hh.
  - simpl. now rewrite Hh.
Qed.

(** C4, the input on which the claim fails.  The canonical link ends in
    the tag v1, so the first tier succeeds; the heading is scanned all the
    same, and its word v2 is returned. *)
Theorem canonical_v1_overridden (rt : runtime) :
  canonical Sample.abs_v1_titled = Some (u "https://arxiv.org/abs/2401.00001v1")
  /\ Re.search rt (re_canonical rt) (u "https://arxiv.org/abs/2401.00001v1") = Some (u "v1")
  /\ Re.search rt (re_h1 rt) (join (u " ") (h1_texts Sample.abs_v1_titled)) = Some (u "v2")
  /\ resolve_version rt Sample.abs_v1_titled = u "v2".
Proof. repeat split; vm_compute; reflexivity. Qed.

(** ** Entries that are skipped, and the one that is not *)

(** An entry without a usable link, or whose joined link carries no
    identifier of the expected shape, changes nothing and produces
    nothing, wherever it stands in the list block: the scan gives the
    result it gives without that entry. *)
Lemma malformed_entry_skipped
    (rt : runtime) (targets : gset (list N)) (resp : response) (prio : Z)
    (sec : list N * Z) (e : dt_elem * dd_elem) :
  malformed rt resp e.1 ->
  (forall seen, parse_entry rt targets resp prio sec seen e = Scan seen [] None)
  /\ (forall seen es1 es2,
        parse_entries rt targets resp prio sec seen (es1 ++ e :: es2)
        = parse_entries rt targets resp prio sec seen (es1 ++ es2))
  /\ (forall seen dts dds bs,
        parse_blocks rt targets resp prio sec seen (DL (e.1 :: dts) (e.2 :: dds) :: bs)
        = parse_blocks rt targets resp prio sec seen (DL dts dds :: bs)).
Proof.
  intros H. apply malformed_entry_id in H.
  assert (H1 : forall seen, parse_entry rt targets resp prio sec seen e
                            = Scan seen [] None)
    by (intros; now apply parse_entry_skipped).
  assert (H2 : forall seen es,
             parse_entries rt targets resp prio sec seen (e :: es)
             = parse_entries rt targets resp prio sec seen es).
  { intros seen es. rewrite parse_entries_cons, H1. unfold and_then. simpl.
    now destruct (parse_entries rt targets resp prio sec seen es). }
  split; [exact H1|]. split.
  - intros seen es1 es2. rewrite !parse_entries_app. cbv zeta. now rewrite H2.
  - intros seen dts dds bs. destruct e as [dt dd].
    rewrite !parse_blocks_cons_DL. cbn [fst snd].
    change (zip (dt :: dts) (dd :: dds)) with ((dt, dd) :: zip dts dds).
    now rewrite (H2 seen (zip dts dds)).
Qed.

(** An entry on whose link [urljoin] raises ends the loop: nothing behind
    it is scanned. *)
Lemma unjoinable_entry_aborts
    (rt : runtime) (targets : gset (list N)) (resp : response) (prio : Z)
    (sec : list N * Z) (e : dt_elem * dd_elem) :
  unjoinable resp e.1 ->
  (forall seen es,
      parse_entries rt targets resp prio sec seen (e :: es)
      = Scan seen [] (Some In_urljoin))
  /\ (forall seen es1 es2,
        raised (parse_entries rt targets resp prio sec seen es1) = None ->
        parse_entries rt targets resp prio sec seen (es1 ++ e :: es2)
        = let r1 := parse_entries rt targets resp prio sec seen es1 in
          Scan (seen_after r1) (produced r1) (Some In_urljoin))
  /\ (forall seen dts dds bs,
        parse_blocks rt targets resp prio sec seen (DL (e.1 :: dts) (e.2 :: dds) :: bs)
        = Scan seen [] (Some In_urljoin)).
Proof.
  intros H. apply (unjoinable_entry_id rt) in H.
  assert (H1 : forall seen es,
             parse_entries rt targets resp prio sec seen (e :: es)
             = Scan seen [] (Some In_urljoin)).
  { intros seen es. rewrite parse_entries_cons.
    now rewrite (parse_entry_raised _ _ _ _ _ _ _ H). }
  split; [exact H1|]. split.
  - intros seen es1 es2 Hno. rewrite parse_entries_app. cbv zeta.
    rewrite Hno, H1. simpl. now rewrite app_nil_r.
  - intros seen dts dds bs. destruct e as [dt dd].
    rewrite parse_blocks_cons_DL. cbn [fst snd].
    change (zip (dt :: dts) (dd :: dds)) with ((dt, dd) :: zip dts dds).
    now rewrite H1.
Qed.

(** Why the inner loop raises: out of [urljoin] only at an entry whose
    link cannot be joined, out of [follow] only at an entry that passes
    the category test and for whose link no request can be built; and it
    does raise when some entry has a link that cannot be joined. *)
Lemma parse_entries_raised (rt : runtime) targets resp prio sec seen es :
  let r := parse_entries rt targets resp prio sec seen es in
  (raised r = Some In_urljoin -> exists e, e ∈ es /\ unjoinable resp e.1)
  /\ (raised r = Some In_follow ->
      exists e, e ∈ es /\ unfollowable rt resp e.1
                /\ passes_category_test rt targets e.2)
  /\ ((exists e, e ∈ es /\ unjoinable resp e.1) -> raised r <> None).
Proof.
  cbv zeta. revert seen. induction es as [|e es IH]; intros seen.
  { simpl. split; [discriminate|]. split; [discriminate|].
    intros (e & H & _). inversion H. }
  rewrite parse_entries_cons. unfold and_then.
  destruct (raised (parse_entry rt targets resp prio sec seen e)) as [f|] eqn:R1.
  - rewrite R1. split; [|split].
    + intros [= ->]. apply parse_entry_raises in R1.
      exists e. split; [left|]. now apply (unjoinable_entry_id rt).
    + intros [= ->]. apply parse_entry_raises_follow in R1 as (a & i & E & _ & Hw & Hf).
      exists e. split; [left|]. split; [exists a, i; auto|].
      now apply wanted_spec in Hw.
    + intros _. discriminate.
  - simpl.
    destruct (IH (seen_after (parse_entry rt targets resp prio sec seen e)))
      as (H1 & H2 & H3).
    split; [|split].
    + intros H. destruct (H1 H) as (e0 & Hin & Hu).
      exists e0. split; [now right|exact Hu].
    + intros H. destruct (H2 H) as (e0 & Hin & Hu).
      exists e0. split; [now right|exact Hu].
    + intros (e0 & Hin & Hu). apply elem_of_cons in Hin as [->|Hin].
      * apply (unjoinable_entry_id rt) in Hu.
        apply (parse_entry_raises rt targets resp prio sec seen) in Hu. congruence.
      * apply H3. eauto.
Qed.

Lemma parse_blocks_raised (rt : runtime) targets resp prio sec seen bs :
  let r := parse_blocks rt targets resp prio sec seen bs in
  (raised r = Some In_urljoin ->
   exists e, e ∈ block_entries bs /\ unjoinable resp e.1)
  /\ (raised r = Some In_follow ->
      exists e, e ∈ block_entries bs /\ unfollowable rt resp e.1
                /\ passes_category_test rt targets e.2)
  /\ ((exists e, e ∈ block_entries bs /\ unjoinable resp e.1) -> raised r <> None).
Proof.
  cbv zeta. revert sec seen.
  induction bs as [|[texts|dts dds] bs IH]; intros sec seen.
  { simpl. split; [discriminate|]. split; [discriminate|].
    intros (e & H & _). inversion H. }
  { simpl. apply IH. }
  rewrite parse_blocks_cons_DL, block_entries_DL. unfold and_then.
  destruct (parse_entries_raised rt targets resp prio sec seen (zip dts dds))
    as (E1 & E2 & E3). cbv zeta in E1, E2, E3.
  destruct (raised (parse_entries rt targets resp prio sec seen (zip dts dds)))
    as [f|] eqn:R1.
  - rewrite R1. split; [|split].
    + intros H. destruct (E1 H) as (e & Hin & Hu).
      exists e. split; [apply elem_of_app; now left|exact Hu].
    + intros H. destruct (E2 H) as (e & Hin & Hu).
      exists e. split; [apply elem_of_app; now left|exact Hu].
    + intros _. discriminate.
  - simpl.
    destruct (IH sec (seen_after (parse_entries rt targets resp prio sec seen
                                    (zip dts dds)))) as (H1 & H2 & H3).
    split; [|split].
    + intros H. destruct (H1 H) as (e & Hin & Hu).
      exists e. split; [apply elem_of_app; now right|exact Hu].
    + intros H. destruct (H2 H) as (e & Hin & Hu).
      exists e. split; [apply elem_of_app; now right|exact Hu].
    + intros (e & Hin & Hu). apply elem_of_app in Hin as [Hin|Hin].
      * exfalso. apply E3; eauto.
      * apply H3. eauto.
Qed.

(** [parse] raises out of [urljoin] only when an entry of the page has a
    link that cannot be joined, and it does raise when one has. *)
Lemma parse_raises_spec (rt : runtime) (sp : spider) (resp : response) :
  (parse_raises rt sp resp = Some In_urljoin ->
   exists e, e ∈ page_entries resp /\ unjoinable resp e.1)
  /\ (parse_raises rt sp resp = Some In_follow ->
      exists e, e ∈ page_entries resp /\ unfollowable rt resp e.1
                /\ passes_category_test rt (target_categories sp) e.2)
  /\ ((exists e, e ∈ page_entries resp /\ unjoinable resp e.1) ->
      parse_raises rt sp resp <> None).
Proof.
  exact (parse_blocks_raised rt (target_categories sp) resp
           (priority (source_cat rt resp)) (u "other", 3%Z) (seen_ids sp)
           (dlpage resp)).
Qed.

(** C10, the input on which the claim fails.  The link of the first
    entry has no identifier of the expected shape; [response.urljoin]
    raises on it, before the shape is looked at.  [parse] ends with that
    exception, and the well-formed entry behind it is not scanned: nothing
    is requested and nothing recorded.  With a linkless entry in the same
    place the scan goes on and requests the second entry, which is what
    the two [continue] branches do for every entry whose link can be
    joined; and whenever some entry's link cannot be joined, [parse]
    raises, out of [urljoin] at that entry unless it was left before. *)
Theorem unjoinable_link_aborts_scan (rt : runtime) :
  let bad := u "//[/abs/2401.0000" in
  let sp := Sample.qa_rt rt in
  (entry_href Sample.unjoinable_entry.1 = Some bad
   /\ Re.search rt re_id bad = None
   /\ urljoin Sample.page_unjoinable bad = None
   /\ parse_raises rt sp Sample.page_unjoinable = Some In_urljoin
   /\ parse rt sp Sample.page_unjoinable = (sp, []))
  /\ (malformed rt Sample.page_linkless Sample.broken_entry.1
      /\ parse_raises rt sp Sample.page_linkless = None
      /\ map id (requests (parse rt sp Sample.page_linkless).2) = [u "2401.00002"])
  /\ (forall targets resp prio sec e,
        malformed rt resp e.1 ->
        forall seen es,
          parse_entries rt targets resp prio sec seen (e :: es)
          = parse_entries rt targets resp prio sec seen es)
  /\ (forall targets resp prio sec e,
        unjoinable resp e.1 ->
        forall seen es,
          parse_entries rt targets resp prio sec seen (e :: es)
          = Scan seen [] (Some In_urljoin))
  /\ (forall sp' resp,
        (parse_raises rt sp' resp = Some In_urljoin ->
         exists e, e ∈ page_entries resp /\ unjoinable resp e.1)
        /\ ((exists e, e ∈ page_entries resp /\ unjoinable resp e.1) ->
            parse_raises rt sp' resp <> None)).
Proof.
  intros bad sp. split; [|split; [|split; [|split]]].
  - repeat split; vm_compute; reflexivity.
  - split; [left; reflexivity|]. split; vm_compute; reflexivity.
  - intros targets resp prio sec e H seen es.
    destruct (malformed_entry_skipped rt targets resp prio sec e H) as (_ & H2 & _).
    exact (H2 seen [] es).
  - intros targets resp prio sec e H.
    now destruct (unjoinable_entry_aborts rt targets resp prio sec e H) as (H1 & _).
  - intros sp' resp.
    destruct (parse_raises_spec rt sp' resp) as (H1 & _ & H3). now split.
Qed.

(** ** The order of the listing visits *)












(** ** What one page does *)

Lemma parse_facts (rt : runtime) (sp : spider) (resp : response) :
  let out := (parse rt sp resp).2 in
  let seen' := seen_ids (parse rt sp resp).1 in
  seen' = seen_ids sp ∪ list_to_set (listed rt sp resp)
  /\ NoDup (map effect_id out)
  /\ (forall i, i ∈ map effect_id out -> i ∈ seen' /\ (i ∉ seen_ids sp))
  /\ (forall i, i ∈ seen' -> i ∉ seen_ids sp ->
        i ∈ map effect_id out
        \/ (parse_raises rt sp resp = Some In_follow
            /\ last (listed rt sp resp) = Some i))
  /\ (parse_raises rt sp resp = Some In_follow ->
      exists i, last (listed rt sp resp) = Some i /\ (i ∉ seen_ids sp)
                /\ (i ∉ map effect_id out))
  /\ map effect_id out `sublist_of` listed rt sp resp.
Proof. exact (parse_exact rt sp resp). Qed.

Lemma requests_sublist_effects (out : list effect) :
  map id (requests out) `sublist_of` map effect_id out.
Proof.
  induction out as [|[a m|i c t] out IH]; simpl.
  - constructor.
  - now constructor.
  - now constructor.
Qed.

(** A scan of entries that did not end in [follow], done again when all
    it recorded is recorded: nothing is produced, and it ends as it did
    the first time. *)
Lemma rescan_entries (rt : runtime) targets resp prio sec seen2 es :
  forall seen,
    let r := parse_entries rt targets resp prio sec seen es in
    raised r <> Some In_follow -> seen_after r ⊆ seen2 ->
    forall sec',
      parse_entries rt targets resp prio sec' seen2 es = Scan seen2 [] (raised r).
Proof.
  induction es as [|e es IH]; intros seen; cbv zeta; [reflexivity|].
  rewrite parse_entries_cons. intros Hr Hsub sec'. rewrite parse_entries_cons.
  pose proof (parse_entries_ok rt targets resp prio sec
                (seen_after (parse_entry rt targets resp prio sec seen e)) es)
    as (Hgrow & _).
  destruct (entry_id rt resp e.1) as [| |a i] eqn:E.
  - rewrite (parse_entry_skipped rt targets resp prio sec seen e E) in Hr, Hsub |- *.
    rewrite (parse_entry_skipped rt targets resp prio sec' seen2 e E).
    unfold and_then in *. simpl in *.
    rewrite (IH seen Hr Hsub sec'). reflexivity.
  - rewrite (parse_entry_raised rt targets resp prio sec seen e E).
    now rewrite (parse_entry_raised rt targets resp prio sec' seen2 e E).
  - assert (Hi : i ∈ seen_after (parse_entry rt targets resp prio sec seen e)).
    { destruct (parse_entry_requests rt targets resp prio sec seen e) as (_ & _ & H).
      now apply (H a i). }
    assert (Hnone : raised (parse_entry rt targets resp prio sec seen e) = None).
    { destruct (raised (parse_entry rt targets resp prio sec seen e)) as [[|]|] eqn:R;
        [| |reflexivity].
      - apply parse_entry_raises in R. congruence.
      - exfalso. apply Hr. unfold and_then. now rewrite R. }
    unfold and_then in Hr, Hsub |- *. rewrite Hnone in *. simpl in Hr, Hsub.
    rewrite (parse_entry_seen rt targets resp prio sec' seen2 e a i E)
      by set_solver. simpl.
    rewrite (IH _ Hr Hsub sec'). reflexivity.
Qed.

Lemma rescan_blocks (rt : runtime) targets resp prio seen2 bs :
  forall sec seen,
    let r := parse_blocks rt targets resp prio sec seen bs in
    raised r <> Some In_follow -> seen_after r ⊆ seen2 ->
    forall sec',
      parse_blocks rt targets resp prio sec' seen2 bs = Scan seen2 [] (raised r).
Proof.
  induction bs as [|[texts|dts dds] bs IH]; intros sec seen; cbv zeta.
  - reflexivity.
  - simpl. intros Hr Hsub sec'. now apply (IH (heading_section rt texts) seen).
  - rewrite parse_blocks_cons_DL. intros Hr Hsub sec'.
    rewrite parse_blocks_cons_DL. unfold and_then in *.
    pose proof (parse_blocks_ok rt targets resp prio sec
                  (seen_after (parse_entries rt targets resp prio sec seen
                                 (zip dts dds))) bs) as (Hgrow & _).
    destruct (raised (parse_entries rt targets resp prio sec seen (zip dts dds)))
      as [f|] eqn:R1.
    + simpl in Hr, Hsub.
      rewrite (rescan_entries rt targets resp prio sec seen2 (zip dts dds) seen
                 Hr Hsub sec').
      now rewrite R1.
    + simpl in Hr, Hsub.
      rewrite (rescan_entries rt targets resp prio sec seen2 (zip dts dds) seen)
        by (first [rewrite R1; discriminate | set_solver]).
      rewrite R1. simpl.
      now rewrite (IH sec _ Hr Hsub sec').
Qed.

(** An identifier that is read is the identifier of an entry. *)
Lemma entry_ids_origin (rt : runtime) targets resp seen es i :
  i ∈ entry_ids rt targets resp seen es ->
  exists e a, e ∈ es /\ entry_id rt resp e.1 = Found a i.
Proof.
  revert seen. induction es as [|e es IH]; intros seen Hi; [inversion Hi|].
  cbn [entry_ids] in Hi.
  assert (Hrest : forall s, i ∈ entry_ids rt targets resp s es ->
            exists e0 a, e0 ∈ e :: es /\ entry_id rt resp e0.1 = Found a i).
  { intros s H. apply IH in H as (e0 & a & Hin & E).
    exists e0, a. split; [now right|exact E]. }
  destruct (entry_id rt resp e.1) as [| |a j] eqn:E.
  - now apply (Hrest seen).
  - inversion Hi.
  - apply elem_of_cons in Hi as [->|Hi].
    + exists e, a. split; [left|exact E].
    + destruct (stops_at rt targets resp seen e); [inversion Hi|].
      now apply (Hrest (seen ∪ {[j]})).
Qed.

(** A scan that no exception ends reads the identifier of every entry
    that has one. *)
Lemma entry_ids_all (rt : runtime) targets resp prio sec seen es :
  raised (parse_entries rt targets resp prio sec seen es) = None ->
  forall e a i,
    e ∈ es -> entry_id rt resp e.1 = Found a i ->
    i ∈ entry_ids rt targets resp seen es.
Proof.
  revert seen. induction es as [|e0 es IH]; intros seen Hr e a i Hin E.
  { inversion Hin. }
  rewrite parse_entries_cons in Hr. unfold and_then in Hr.
  rewrite (entry_ids_cons rt targets resp prio sec).
  destruct (raised (parse_entry rt targets resp prio sec seen e0)) eqn:R1.
  { rewrite R1 in Hr. discriminate. }
  simpl in Hr. apply elem_of_app. apply elem_of_cons in Hin as [->|Hin].
  - left. rewrite entry_ids_one, E. left.
  - right. now apply (IH _ Hr e a i).
Qed.

Lemma listed_all (rt : runtime) (sp : spider) (resp : response) :
  parse_raises rt sp resp = None ->
  forall e a i,
    e ∈ page_entries resp -> entry_id rt resp e.1 = Found a i ->
    i ∈ listed rt sp resp.
Proof.
  unfold parse_raises, scan_page, listed, page_entries.
  generalize (u "other", 3%Z) (seen_ids sp).
  induction (dlpage resp) as [|[texts|dts dds] bs IH]; intros sec seen Hr e a i Hin E.
  { inversion Hin. }
  { simpl in *. now apply (IH _ _ Hr e a i). }
  rewrite parse_blocks_cons_DL in Hr. rewrite block_entries_DL in Hin |- *.
  rewrite (entry_ids_app rt (target_categories sp) resp
             (priority (source_cat rt resp)) sec).
  unfold and_then in Hr.
  destruct (raised (parse_entries rt (target_categories sp) resp
                      (priority (source_cat rt resp)) sec seen (zip dts dds)))
    eqn:R1.
  { rewrite R1 in Hr. discriminate. }
  simpl in Hr. apply elem_of_app. apply elem_of_app in Hin as [Hin|Hin].
  - left. now apply (entry_ids_all _ _ _ _ _ _ _ R1 e a i).
  - right. now apply (IH _ _ Hr e a i).
Qed.

(** X1.  After [parse], [seen_ids] is what it was together with every
    identifier read from the page, followed or not; nothing else is added
    and nothing is removed.  The identifiers read are identifiers of
    entries of the page, and those of all its entries when no exception
    ends [parse]. *)
Theorem seen_after_parse (rt : runtime) (sp : spider) (resp : response) :
  seen_ids (parse rt sp resp).1 = seen_ids sp ∪ list_to_set (listed rt sp resp)
  /\ target_categories (parse rt sp resp).1 = target_categories sp
  /\ start_urls (parse rt sp resp).1 = start_urls sp
  /\ _buffer (parse rt sp resp).1 = _buffer sp
  /\ (forall i, i ∈ listed rt sp resp ->
        exists e a, e ∈ page_entries resp /\ entry_id rt resp e.1 = Found a i)
  /\ (parse_raises rt sp resp = None ->
      forall e a i,
        e ∈ page_entries resp -> entry_id rt resp e.1 = Found a i ->
        i ∈ listed rt sp resp).
Proof.
  split; [apply (parse_facts rt sp resp)|].
  repeat (split; [reflexivity|]).
  split; [intros i; apply entry_ids_origin|apply listed_all].
Qed.

(** X2.  The requests and debug messages of one [parse] are about the
    identifiers it adds to [seen_ids], one effect for one identifier.
    Unless [parse] is left by an exception out of [response.follow],
    every identifier added has its effect: it is followed or logged,
    never both and never twice, and [seen_ids] grows by the number of
    effects.  When [parse] is left that way, the last identifier read is
    the one added without an effect. *)
Theorem effects_match_new_ids (rt : runtime) (sp : spider) (resp : response) :
  let out := (parse rt sp resp).2 in
  let seen' := seen_ids (parse rt sp resp).1 in
  NoDup (map effect_id out)
  /\ (forall i, i ∈ map effect_id out -> i ∈ seen' /\ (i ∉ seen_ids sp))
  /\ (parse_raises rt sp resp <> Some In_follow ->
      (forall i, i ∈ map effect_id out <-> i ∈ seen' /\ (i ∉ seen_ids sp))
      /\ size seen' = size (seen_ids sp) + length out)
  /\ (parse_raises rt sp resp = Some In_follow ->
      exists i0,
        last (listed rt sp resp) = Some i0
        /\ (forall i, i ∈ seen' /\ (i ∉ seen_ids sp)
                      <-> i ∈ map effect_id out \/ i = i0)
        /\ (i0 ∉ map effect_id out)
        /\ size seen' = size (seen_ids sp) + length out + 1).
Proof.
  intros out seen'.
  destruct (parse_facts rt sp resp) as (Hs & Hn & Hi & Hj & Hf & _).
  fold out in Hn, Hi, Hj, Hf. fold seen' in Hs, Hi, Hj.
  assert (Hsub : seen_ids sp ⊆ seen') by (rewrite Hs; apply union_subseteq_l).
  split; [exact Hn|]. split; [exact Hi|]. split.
  - intros Hr.
    assert (Hiff : forall i, i ∈ map effect_id out <-> i ∈ seen' /\ (i ∉ seen_ids sp)).
    { intros i. split; [apply Hi|]. intros [H1 H2].
      destruct (Hj i H1 H2) as [H|[H _]]; [exact H|contradiction]. }
    split; [exact Hiff|].
    rewrite <- (length_map effect_id out). now apply size_new_ids.
  - intros Hr. destruct (Hf Hr) as (i0 & Hl & H1 & H2).
    assert (Hin : i0 ∈ seen').
    { rewrite Hs. apply elem_of_union_r, elem_of_list_to_set.
      now apply last_Some_elem_of. }
    assert (Hiff : forall i, i ∈ seen' /\ (i ∉ seen_ids sp)
                             <-> i ∈ map effect_id out \/ i = i0).
    { intros i. split.
      - intros [Ha Hb]. destruct (Hj i Ha Hb) as [H|[_ H]]; [now left|].
        right. congruence.
      - intros [H| ->]; [now apply Hi|]. now split. }
    exists i0. split; [exact Hl|]. split; [exact Hiff|]. split; [exact H2|].
    rewrite (size_new_ids (seen_ids sp) seen' (i0 :: map effect_id out)).
    + simpl. rewrite length_map. lia.
    + now constructor.
    + intros i. rewrite elem_of_cons, Hiff. tauto.
    + exact Hsub.
Qed.

(** X3.  A page yields no effect and leaves the spider as it is exactly
    when every identifier read from it is already in [seen_ids]; in
    particular a page parsed a second time does nothing, unless the
    first time [parse] was left by an exception out of
    [response.follow]. *)
Theorem silent_page (rt : runtime) (sp : spider) (resp : response) :
  (parse rt sp resp = (sp, []) <->
     forall i, i ∈ listed rt sp resp -> i ∈ seen_ids sp)
  /\ (parse_raises rt sp resp <> Some In_follow ->
      parse rt (parse rt sp resp).1 resp = ((parse rt sp resp).1, [])).
Proof.
  split.
  - destruct (parse_facts rt sp resp) as (Hs & Hn & Hi & _).
    split.
    + intros Heq i Hl. rewrite Heq in Hs. simpl in Hs. rewrite Hs.
      apply elem_of_union_r. now apply elem_of_list_to_set.
    + intros Hall.
      assert (Hseen : seen_ids (parse rt sp resp).1 = seen_ids sp).
      { rewrite Hs. apply set_eq. intros i.
        rewrite elem_of_union, elem_of_list_to_set.
        specialize (Hall i). tauto. }
      assert (Hout : (parse rt sp resp).2 = []).
      { destruct ((parse rt sp resp).2) as [|e out] eqn:E; [reflexivity|].
        exfalso. destruct (Hi (effect_id e)) as [H1 H2]; [left|].
        apply H2. now rewrite <- Hseen. }
      rewrite (surjective_pairing (parse rt sp resp)), Hout. f_equal.
      transitivity (with_seen sp (seen_ids (parse rt sp resp).1));
        [reflexivity|].
      rewrite Hseen. apply with_seen_same.
  - intros Hr. rewrite (parse_unfold rt (parse rt sp resp).1). cbv zeta.
    rewrite (rescan_blocks rt (target_categories sp) resp
               (priority (source_cat rt resp)) (seen_ids (parse rt sp resp).1)
               (dlpage resp) (u "other", 3%Z) (seen_ids sp)); auto.
Qed.

(** X4.  The requests of a page carry distinct identifiers and come in
    the order in which these identifiers are read from the page. *)
Theorem requests_in_page_order (rt : runtime) (sp : spider) (resp : response) :
  map id (requests (parse rt sp resp).2) `sublist_of` listed rt sp resp
  /\ NoDup (map id (requests (parse rt sp resp).2)).
Proof.
  destruct (parse_facts rt sp resp) as (_ & Hn & _ & _ & _ & Hl).
  pose proof (requests_sublist_effects (parse rt sp resp).2) as Hsub.
  split; [now transitivity (map effect_id (parse rt sp resp).2)|].
  eapply sublist_NoDup; eauto.
Qed.

(** ** Links, identifiers and revision tags *)

Lemma contains_nonempty (old s : list N) :
  old <> [] -> contains old s = true -> s <> [].
Proof. destruct old; [congruence|]. destruct s; simpl; [discriminate|congruence]. Qed.

Lemma head_omap_Some {A B : Type} (f : A -> option B) (l : list A) (y : B) :
  head (omap f l) = Some y -> exists x, x ∈ l /\ f x = Some y.
Proof.
  induction l as [|x l IH]; simpl; [discriminate|].
  destruct (f x) as [y'|] eqn:E; simpl.
  - intros [= <-]. exists x. split; [left|exact E].
  - intros H. destruct (IH H) as (x' & Hx & Hf). exists x'. split; [now right|exact Hf].
Qed.

Lemma head_omap_None {A B : Type} (f : A -> option B) (l : list A) :
  head (omap f l) = None -> forall x, x ∈ l -> f x = None.
Proof.
  induction l as [|x l IH]; simpl; intros H x' Hx'; [inversion Hx'|].
  destruct (f x) as [y'|] eqn:E; simpl in H; [discriminate|].
  apply elem_of_cons in Hx' as [->|Hx']; auto.
Qed.

(** X5.  The link taken from an entry is never empty and is the [href]
    of one of its anchors, either one titled Abstract or one whose [href]
    contains [/abs/]; and an entry with an anchor whose [href] contains
    [/abs/] always has a link. *)
Theorem entry_href_sound (dt : dt_elem) :
  (forall h, entry_href dt = Some h ->
     h <> []
     /\ exists a, a ∈ dt_anchors dt /\ a_href a = Some h
          /\ (a_title a = Some (u "Abstract") \/ contains (u "/abs/") h = true))
  /\ (forall a h, a ∈ dt_anchors dt -> a_href a = Some h ->
        contains (u "/abs/") h = true -> is_Some (entry_href dt)).
Proof.
  unfold entry_href. split.
  - intros h.
    destruct (truthy (css_title_abstract dt)) eqn:Ht.
    + rewrite Ht. intros Hh. rewrite Hh in Ht. simpl in Ht.
      split; [now destruct h|].
      apply head_omap_Some in Hh as (a & Ha & Hf).
      exists a. split; [exact Ha|]. case_bool_decide; [auto|discriminate].
    + destruct (truthy (css_href_abs dt)) eqn:Ha; [|discriminate].
      intros Hh. rewrite Hh in Ha. simpl in Ha.
      split; [now destruct h|].
      apply head_omap_Some in Hh as (a & Hin & Hf).
      exists a. split; [exact Hin|].
      destruct (a_href a) as [h'|]; [|discriminate].
      destruct (contains (u "/abs/") h') eqn:Hc; [|discriminate].
      injection Hf as ->. auto.
  - intros a h Ha Hh Hc.
    destruct (truthy (css_title_abstract dt)) eqn:Ht.
    + rewrite Ht. destruct (css_title_abstract dt); [eauto|discriminate].
    + destruct (css_href_abs dt) as [h'|] eqn:E.
      * apply head_omap_Some in E as (a' & _ & Hf).
        destruct (a_href a') as [h''|]; [|discriminate].
        destruct (contains (u "/abs/") h'') eqn:Hc'; [|discriminate].
        injection Hf as ->.
        assert (Hne : h' <> []) by (eapply contains_nonempty; eauto; discriminate).
        simpl. destruct h'; [congruence|]. simpl. eauto.
      * exfalso. pose proof (head_omap_None _ _ E a Ha) as Hn.
        simpl in Hn. rewrite Hh, Hc in Hn. discriminate.
Qed.

Lemma is_arxiv_id_length (i : list N) : is_arxiv_id i -> length i = 10.
Proof.
  intros (a & b & -> & Ha & Hb & _).
  rewrite !length_app. simpl. lia.
Qed.

Lemma entry_id_inv (rt : runtime) (resp : response) (dt : dt_elem)
    (abs_url arxiv_id : list N) :
  entry_id rt resp dt = Found abs_url arxiv_id ->
  is_arxiv_id arxiv_id
  /\ (exists pre post, abs_url = pre ++ u "/abs/" ++ arxiv_id ++ post)
  /\ exists h, entry_href dt = Some h /\ urljoin resp h = Some abs_url.
Proof.
  unfold entry_id. destruct (entry_href dt) as [h|]; [|discriminate].
  destruct (urljoin resp h) as [a|] eqn:J; [|discriminate].
  destruct (Re.search rt re_id a) as [g|] eqn:E; [|discriminate].
  intros [= <- <-].
  apply search_inv in E as (pre & suf & rest & Hu & Hm).
  apply match_re_id in Hm as [-> Hid]. eauto 10.
Qed.

(** X6.  The identifier of an entry has the shape of four digits, a dot
    and five digits, hence ten characters, and it stands in the absolute
    link right after [/abs/]; the absolute link is what [urljoin]
    returned for the entry's link. *)
Theorem entry_id_shape (rt : runtime) (resp : response) (dt : dt_elem)
    (abs_url arxiv_id : list N) :
  entry_id rt resp dt = Found abs_url arxiv_id ->
  is_arxiv_id arxiv_id
  /\ length arxiv_id = 10
  /\ (exists pre post, abs_url = pre ++ u "/abs/" ++ arxiv_id ++ post)
  /\ (exists h, entry_href dt = Some h /\ urljoin resp h = Some abs_url).
Proof.
  intros E. destruct (entry_id_inv _ _ _ _ _ E) as (Hid & Hurl & Hh).
  split; [exact Hid|]. split; [now apply is_arxiv_id_length|].
  split; [exact Hurl|exact Hh].
Qed.

Lemma entry_id_shape_witness :
  let rt := Sample.plain_runtime in
  entry_id rt Sample.page_qa (Sample.entry "2401.00002" "(math.QA)").1
    = Found (u "https://arxiv.org/abs/2401.00002") (u "2401.00002")
  /\ is_arxiv_id (u "2401.00002").
Proof.
  intros rt.
  assert (E : entry_id rt Sample.page_qa (Sample.entry "2401.00002" "(math.QA)").1
              = Found (u "https://arxiv.org/abs/2401.00002") (u "2401.00002"))
    by (vm_compute; reflexivity).
  split; [exact E|]. exact (proj1 (entry_id_shape _ _ _ _ _ E)).
Defined.

Lemma revision_tag_v1 (rt : runtime) : is_revision_tag rt (u "v1").
Proof. exists (u "1"). repeat split. discriminate. Qed.

Lemma search_re_h1 (rt : runtime) (h g : list N) :
  Re.search rt (re_h1 rt) h = Some g ->
  is_revision_tag rt g /\ exists pre post, h = pre ++ g ++ post.
Proof.
  intros E. apply search_inv in E as (pre & suf & rest & -> & Hm).
  apply match_re_h1 in Hm as [-> Hg]. eauto.
Qed.

Lemma search_re_canonical (rt : runtime) (c g : list N) :
  Re.search rt (re_canonical rt) c = Some g ->
  is_revision_tag rt g
  /\ exists pre rest, c = pre ++ g ++ rest /\ Re.at_end rest = true.
Proof.
  intros E. apply search_inv in E as (pre & suf & rest & -> & Hm).
  apply match_re_canonical in Hm as (Hg & Hend & a & b & _ & _ & _ & _ & ->).
  split; [exact Hg|]. exists (pre ++ u "/abs/" ++ a ++ u "." ++ b), rest.
  split; [now rewrite <- !app_assoc|exact Hend].
Qed.

Lemma resolve_version_cases (rt : runtime) (resp : abs_response) :
  resolve_version rt resp = u "v1"
  \/ (exists c, canonical resp = Some c
                /\ Re.search rt (re_canonical rt) c = Some (resolve_version rt resp))
  \/ Re.search rt (re_h1 rt) (join (u " ") (h1_texts resp))
     = Some (resolve_version rt resp).
Proof.
  unfold resolve_version.
  destruct (canonical resp) as [c|]; simpl.
  - destruct (nonempty c).
    + destruct (Re.search rt (re_canonical rt) c) as [g|] eqn:E.
      * case_bool_decide as Hv; [subst g|].
        -- destruct (Re.search rt (re_h1 rt) _) as [g'|]; [right; right|left]; reflexivity.
        -- right. left. eauto.
      * simpl. destruct (Re.search rt (re_h1 rt) _) as [g'|]; [right; right|left]; reflexivity.
    + simpl. destruct (Re.search rt (re_h1 rt) _) as [g'|]; [right; right|left]; reflexivity.
  - destruct (Re.search rt (re_h1 rt) _) as [g'|]; [right; right|left]; reflexivity.
Qed.

Lemma resolve_version_tag (rt : runtime) (resp : abs_response) :
  is_revision_tag rt (resolve_version rt resp).
Proof.
  destruct (resolve_version_cases rt resp) as [->|[(c & _ & E)|E]].
  - apply revision_tag_v1.
  - now apply search_re_canonical in E as [H _].
  - now apply search_re_h1 in E as [H _].
Qed.

(** X7.  Whatever the detail page holds, the revision is the letter v
    followed by one or more characters of the class [\d]; and it is
    never made up: it is v1, or it ends the canonical link (a final line
    feed apart), or it occurs in the heading text. *)
Theorem revision_is_a_tag (rt : runtime) (resp : abs_response) :
  let v := resolve_version rt resp in
  is_revision_tag rt v
  /\ (v = u "v1"
      \/ (exists c pre rest,
            canonical resp = Some c /\ c = pre ++ v ++ rest
            /\ Re.at_end rest = true)
      \/ (exists pre post, join (u " ") (h1_texts resp) = pre ++ v ++ post)).
Proof.
  intros v. split; [apply resolve_version_tag|].
  destruct (resolve_version_cases rt resp) as [H|[(c & Hc & E)|E]]; [now left| |].
  - right. left. apply search_re_canonical in E as (_ & pre & rest & H1 & H2).
    exists c, pre, rest. auto.
  - right. right. now apply search_re_h1 in E as [_ H].
Qed.

(** ** From the start URL back to the category *)

Lemma plus_loop_greedy (p : N -> bool)
    (k : option N -> list N -> list N -> option Re.result)
    (inside : bool) (w rest cap : list N) (res : Re.result) :
  w <> [] -> all_chars p w = true ->
  match rest with c :: _ => p c = false | [] => True end ->
  k (last_of None w) rest (takes inside w cap) = Some res ->
  Re.plus_loop p k inside (w ++ rest) cap = Some res.
Proof.
  revert cap. induction w as [|c w IH]; intros cap Hne Hall Hrest Hk;
    [congruence|].
  simpl in Hall. apply andb_true_iff in Hall as [Hc Hall].
  cbn [app]. simpl. rewrite Hc.
  destruct w as [|d w].
  - cbn [app].
    assert (Hnone : Re.plus_loop p k inside rest (Re.push inside c cap) = None).
    { destruct rest as [|e rest]; simpl; [reflexivity|now rewrite Hrest]. }
    rewrite Hnone. exact Hk.
  - assert (Hrec : Re.plus_loop p k inside ((d :: w) ++ rest)
                      (Re.push inside c cap) = Some res).
    { apply IH; [discriminate|exact Hall|exact Hrest|].
      rewrite takes_push. exact Hk. }
    now rewrite Hrec.
Qed.

Lemma search_at_miss (rt : runtime) (r : Re.regex) (prev : option N) (c : N)
    (s : list N) :
  Re.match_here rt r prev (c :: s) = None ->
  Re.search_at rt r prev (c :: s) = Re.search_at rt r (Some c) s.
Proof. intros H. simpl. now rewrite H. Qed.

Lemma search_at_hit (rt : runtime) (r : Re.regex) (prev : option N) (s : list N)
    (m : Re.result) :
  Re.match_here rt r prev s = Some m -> Re.search_at rt r prev s = Some m.
Proof. intros H. destruct s; simpl; now rewrite H. Qed.

Lemma search_listing_url (rt : runtime) (cat : list N) :
  cat <> [] ->
  all_chars (fun c => negb (c =? ord "/")%N) cat = true ->
  Re.search rt re_list (listing_url cat) = Some cat.
Proof.
  intros Hne Hall. unfold Re.search, listing_url.
  change (u "https://arxiv.org/list/" ++ cat ++ u "/new")
    with (u "https://arxiv.org" ++ u "/list/" ++ cat ++ u "/new").
  cbn [u list_ascii_of_string map app].
  repeat (rewrite search_at_miss by reflexivity).
  rewrite (search_at_hit _ _ _ _ (cat, [])); [reflexivity|].
  unfold Re.match_here. simpl.
  apply plus_loop_greedy; auto.
Qed.

(** X8.  For a category code that is not empty and has no slash, the
    page fetched from its start URL is attributed to that very code: the
    code read back from the URL is the code, and every request made from
    the page carries the code's priority. *)
Theorem start_url_gives_priority
    (rt : runtime) (cat : list N) (sp : spider) (resp : response) :
  cat <> [] ->
  all_chars (fun c => negb (c =? ord "/")%N) cat = true ->
  url resp = listing_url cat ->
  source_cat rt resp = cat
  /\ forall m, m ∈ requests (parse rt sp resp).2 -> cat_priority m = priority cat.
Proof.
  intros Hne Hall Hurl.
  assert (Hcat : source_cat rt resp = cat).
  { unfold source_cat. rewrite Hurl. now rewrite search_listing_url. }
  split; [exact Hcat|]. intros m Hm.
  destruct (parse_ok rt sp resp) as [(_ & _ & H & _) _].
  destruct (H m Hm) as (_ & _ & _ & Hp & _). now rewrite Hp, Hcat.
Qed.

Lemma start_url_gives_priority_witness :
  let rt := Sample.plain_runtime in
  url Sample.page_qa = listing_url (u "math.QA")
  /\ source_cat rt Sample.page_qa = u "math.QA".
Proof.
  intros rt.
  assert (Hu : url Sample.page_qa = listing_url (u "math.QA")) by reflexivity.
  split; [exact Hu|].
  refine (proj1 (start_url_gives_priority rt (u "math.QA") (Sample.qa_rt rt)
                   Sample.page_qa _ _ Hu)); [discriminate|reflexivity].
Defined.

(** ** Declared codes *)

Lemma all_chars_append (p : N -> bool) (a b : list N) :
  all_chars p (a ++ b) = all_chars p a && all_chars p b.
Proof. apply forallb_app. Qed.

Lemma findall_code_shape (rt : runtime) (text g : list N) :
  In g (Re.findall rt re_code text) -> is_code g.
Proof.
  unfold Re.findall. intros H.
  apply findall_at_inv in H as (prev & suf & rest & Hm).
  now apply match_re_code in Hm as [_ Hg].
Qed.

Lemma code_has_dot (g : list N) :
  is_code g -> all_chars (fun c => negb (c =? ord ".")%N) g = false.
Proof.
  intros (w & a & b & -> & _). rewrite all_chars_append. simpl.
  apply andb_false_r.
Qed.

Lemma paper_categories_codes (rt : runtime) (text c : list N) :
  c ∈ paper_categories_of rt text -> is_code c.
Proof.
  unfold paper_categories_of, categories_in_paper.
  rewrite elem_of_list_to_set, list_elem_of_In.
  apply findall_code_shape.
Qed.

(** X9.  A target code without a dot, such as math-ph, is never among
    the declared codes, which all have one: with only such targets no
    entry that has a subject text is ever followed. *)
Theorem dotless_targets_never_match (rt : runtime) (targets : gset (list N)) :
  (forall t, t ∈ targets -> all_chars (fun c => negb (c =? ord ".")%N) t = true) ->
  (forall text, paper_categories_of rt text ∩ targets = ∅)
  /\ (forall text, text <> [] -> wanted rt targets text = false)
  /\ (forall resp prio sec seen e,
        subjects_text_of rt e.2 <> [] ->
        requests (produced (parse_entry rt targets resp prio sec seen e)) = [])
  /\ (forall resp prio sec seen e m,
        m ∈ requests (produced (parse_entry rt targets resp prio sec seen e)) ->
        categories m = []).
Proof.
  intros Ht.
  assert (H1 : forall text, paper_categories_of rt text ∩ targets = ∅).
  { intros text. apply set_eq. intros c.
    rewrite elem_of_intersection. split; [|intros Hc; now apply not_elem_of_empty in Hc].
    intros [Hc Hin]. apply paper_categories_codes, code_has_dot in Hc.
    rewrite (Ht c Hin) in Hc. discriminate. }
  assert (H2 : forall text, text <> [] -> wanted rt targets text = false).
  { intros text Hne. apply wanted_false. auto. }
  assert (H3 : forall resp prio sec seen e,
             subjects_text_of rt e.2 <> [] ->
             requests (produced (parse_entry rt targets resp prio sec seen e)) = []).
  { intros resp prio sec seen e Hne.
    destruct (entry_id rt resp e.1) as [| |a i] eqn:E.
    { now rewrite (parse_entry_skipped _ _ _ _ _ _ _ E). }
    { now rewrite (parse_entry_raised _ _ _ _ _ _ _ E). }
    destruct (decide (i ∈ seen)) as [Hi|Hi].
    { now rewrite (parse_entry_seen _ _ _ _ _ _ _ _ _ E Hi). }
    now rewrite (parse_entry_unwanted _ _ _ _ _ _ _ _ _ E Hi (H2 _ Hne)). }
  split; [exact H1|]. split; [exact H2|]. split; [exact H3|].
  intros resp prio sec seen e m Hm.
  destruct (subjects_text_of rt e.2) as [|c t] eqn:Et.
  - apply requests_elem in Hm as (a0 & Hm).
    apply parse_entry_origin in Hm as (a & i & _ & _ & [[Hx _]|[Hx _]]);
      [|discriminate].
    injection Hx as _ ->. unfold stub_of. simpl. now rewrite Et.
  - rewrite H3 in Hm; [inversion Hm|]. now rewrite Et.
Qed.

Lemma dotless_targets_never_match_witness :
  let rt := Sample.plain_runtime in
  (forall t, t ∈ ({[u "math-ph"]} : gset (list N)) ->
     all_chars (fun c => negb (c =? ord ".")%N) t = true)
  /\ wanted rt {[u "math-ph"]} (u "Subjects: Mathematical Physics (math-ph)") = false.
Proof.
  intros rt.
  assert (H : forall t, t ∈ ({[u "math-ph"]} : gset (list N)) ->
                all_chars (fun c => negb (c =? ord ".")%N) t = true).
  { intros t Ht. apply elem_of_singleton in Ht. subst t. reflexivity. }
  split; [exact H|].
  apply (dotless_targets_never_match rt {[u "math-ph"]} H). discriminate.
Defined.

(** ** Well-formed stubs and records *)

Lemma heading_section_states (rt : runtime) (texts : list (list N)) :
  heading_section rt texts ∈ section_states.
Proof.
  unfold heading_section, section_states.
  repeat match goal with |- context [if ?b then _ else _] => destruct b end;
    set_solver.
Qed.

Lemma stub_of_ok (rt : runtime) (targets : gset (list N)) (resp : response)
    (cat : list N) (sec : list N * Z) (e : dt_elem * dd_elem) (a i : list N) :
  entry_id rt resp e.1 = Found a i ->
  wanted rt targets (subjects_text_of rt e.2) = true ->
  sec ∈ section_states ->
  stub_ok targets (stub_of rt (priority cat) sec a i e.2).
Proof.
  intros E Hw Hsec. destruct (entry_id_inv _ _ _ _ _ E) as (Hid & Hurl & _).
  unfold stub_ok, stub_of. simpl.
  split; [exact Hid|]. split; [exact Hurl|]. split; [reflexivity|].
  split; [now destruct sec|].
  destruct (nonempty (subjects_text_of rt e.2)) eqn:Hne.
  - split; [apply list_of_set_NoDup|]. split.
    + apply Forall_forall. intros c Hc. apply list_of_set_elem in Hc.
      apply list_elem_of_In in Hc. now apply findall_code_shape in Hc.
    + split; [|eauto]. right.
      apply wanted_spec in Hw as [Hw|Hw].
      * apply set_choose_L in Hw as [c Hc].
        apply elem_of_intersection in Hc as [Hc1 Hc2].
        exists c. split; [|exact Hc2].
        apply list_of_set_elem. unfold paper_categories_of in Hc1.
        now apply elem_of_list_to_set in Hc1.
      * rewrite Hw in Hne. discriminate.
  - split; [constructor|]. split; [constructor|]. split; [now left|eauto].
Qed.

Lemma and_then_requests (P : meta_item -> Prop) (r1 r2 : scan) :
  Forall P (requests (produced r1)) -> Forall P (requests (produced r2)) ->
  Forall P (requests (produced (and_then r1 r2))).
Proof.
  intros H1 H2. unfold and_then. destruct (raised r1); [exact H1|].
  simpl. rewrite requests_app. now apply Forall_app.
Qed.

Section StubsOk.
Variables (rt : runtime) (targets : gset (list N)) (resp : response) (cat : list N).

Lemma parse_entry_stubs sec seen e :
  sec ∈ section_states ->
  Forall (stub_ok targets)
    (requests (produced (parse_entry rt targets resp (priority cat) sec seen e))).
Proof.
  intros Hsec.
  destruct (entry_id rt resp e.1) as [| |a i] eqn:E.
  { rewrite (parse_entry_skipped _ _ _ _ _ _ _ E). constructor. }
  { rewrite (parse_entry_raised _ _ _ _ _ _ _ E). constructor. }
  destruct (decide (i ∈ seen)) as [Hi|Hi].
  { rewrite (parse_entry_seen _ _ _ _ _ _ _ _ _ E Hi). constructor. }
  destruct (wanted rt targets (subjects_text_of rt e.2)) eqn:Hw;
    [destruct (follow resp a) eqn:Hf|].
  - rewrite (parse_entry_wanted _ _ _ _ _ _ _ _ _ E Hi Hw Hf). simpl.
    constructor; [|constructor]. now apply (stub_of_ok _ _ resp).
  - rewrite (parse_entry_unfollowed _ _ _ _ _ _ _ _ _ E Hi Hw Hf). constructor.
  - rewrite (parse_entry_unwanted _ _ _ _ _ _ _ _ _ E Hi Hw). constructor.
Qed.

Lemma parse_entries_stubs sec seen es :
  sec ∈ section_states ->
  Forall (stub_ok targets)
    (requests (produced (parse_entries rt targets resp (priority cat) sec seen es))).
Proof.
  intros Hsec. revert seen. induction es as [|e es IH]; intros seen.
  - constructor.
  - rewrite parse_entries_cons.
    apply and_then_requests; [now apply parse_entry_stubs|apply IH].
Qed.

Lemma parse_blocks_stubs sec seen bs :
  sec ∈ section_states ->
  Forall (stub_ok targets)
    (requests (produced (parse_blocks rt targets resp (priority cat) sec seen bs))).
Proof.
  revert sec seen. induction bs as [|[texts|dts dds] bs IH]; intros sec seen Hsec.
  - constructor.
  - simpl. apply IH, heading_section_states.
  - rewrite parse_blocks_cons_DL.
    apply and_then_requests; [now apply parse_entries_stubs|now apply IH].
Qed.
End StubsOk.

Lemma parse_stubs (rt : runtime) (sp : spider) (resp : response) :
  Forall (stub_ok (target_categories sp)) (requests (parse rt sp resp).2).
Proof.
  rewrite parse_unfold. cbv zeta. simpl.
  apply parse_blocks_stubs. unfold section_states. set_solver.
Qed.

Lemma strip_keys_ok (rt : runtime) (targets : gset (list N)) (it : item) :
  stub_ok targets (meta it) -> is_revision_tag rt (version it) ->
  record_ok rt targets (strip_keys it).
Proof.
  intros (H1 & H2 & H3 & H4 & H5 & H6 & H7 & _) Hv.
  unfold record_ok, strip_keys. simpl.
  repeat (split; [assumption|]).
  split; [|auto].
  unfold section_states in H4.
  repeat (apply elem_of_cons in H4 as [H4|H4];
          [injection H4 as -> _; set_solver|]).
  inversion H4.
Qed.

(** The invariant on the three stores of a crawl. *)
Lemma stores_ok_step (rt : runtime) (T : gset (list N)) (c : crawl) (ev : event) :
  target_categories (the_spider c) = T ->
  Forall (stub_ok T) (waiting c) ->
  Forall (fun it => stub_ok T (meta it) /\ is_revision_tag rt (version it))
    (_buffer (the_spider c)) ->
  Forall (record_ok rt T) (emitted c) ->
  let c' := step rt c ev in
  target_categories (the_spider c') = T
  /\ Forall (stub_ok T) (waiting c')
  /\ Forall (fun it => stub_ok T (meta it) /\ is_revision_tag rt (version it))
       (_buffer (the_spider c'))
  /\ Forall (record_ok rt T) (emitted c').
Proof.
  intros HT Hw Hb He. destruct ev as [resp|k resp]; cbv zeta.
  - rewrite step_listing. cbv zeta. cbn [the_spider waiting emitted].
    pose proof (parse_stubs rt (the_spider c) resp) as Hs. rewrite HT in Hs.
    split; [exact HT|]. split; [now apply Forall_app|]. auto.
  - destruct (waiting c !! k) as [m|] eqn:E.
    2:{ rewrite (step_detail_idle _ _ _ _ E). auto. }
    rewrite (step_detail _ _ _ _ _ E). cbv zeta. rewrite parse_abs_batch.
    cbv zeta.
    assert (Hm : stub_ok T m) by (eapply Forall_lookup_1; eauto).
    assert (Hbuf : Forall (fun it => stub_ok T (meta it)
                                     /\ is_revision_tag rt (version it))
                     (_buffer (the_spider c) ++ [Item m (resolve_version rt resp)])).
    { apply Forall_app. split; [exact Hb|].
      constructor; [|constructor]. split; [exact Hm|apply resolve_version_tag]. }
    destruct (release_due _ _); simpl.
    + split; [exact HT|]. split; [now apply Forall_delete|].
      split; [constructor|]. apply Forall_app. split; [exact He|].
      rewrite <- (sort_items_Permutation _) in Hbuf.
      apply Forall_fmap. eapply Forall_impl; [exact Hbuf|].
      intros it [? ?]. now apply strip_keys_ok.
    + split; [exact HT|]. split; [now apply Forall_delete|].
      split; [exact Hbuf|]. now rewrite app_nil_r.
Qed.

Lemma stores_ok_crawl (rt : runtime) (T : gset (list N)) (c : crawl)
    (evs : list event) :
  target_categories (the_spider c) = T ->
  Forall (stub_ok T) (waiting c) ->
  Forall (fun it => stub_ok T (meta it) /\ is_revision_tag rt (version it))
    (_buffer (the_spider c)) ->
  Forall (record_ok rt T) (emitted c) ->
  Forall (stub_ok T) (waiting (crawl_from rt c evs))
  /\ Forall (record_ok rt T) (emitted (crawl_from rt c evs)).
Proof.
  revert c. induction evs as [|ev evs IH]; intros c HT Hw Hb He; [auto|].
  rewrite crawl_from_cons.
  destruct (stores_ok_step rt T c ev HT Hw Hb He) as (? & ? & ? & ?).
  now apply IH.
Qed.

(** X10.  Every record a crawl yields is well formed: its identifier
    has the shape dddd.ddddd and stands right after [/abs/] in its abs
    link, its pdf link is the abs link with [/abs/] replaced by [/pdf/],
    its section is one of new, cross, repl and other, its declared codes
    are distinct, have the shape of a code and are either none or
    include a target category, and its revision is v followed by
    characters of the class [\d].  The same holds of every request still
    waiting. *)
Theorem emitted_records_well_formed
    (rt : runtime) (env : option (list N)) (evs : list event) :
  let c := crawl_from rt (start (init rt env)) evs in
  Forall (record_ok rt (target_categories (init rt env))) (emitted c)
  /\ Forall (stub_ok (target_categories (init rt env))) (waiting c).
Proof.
  intros c.
  destruct (stores_ok_crawl rt (target_categories (init rt env))
              (start (init rt env))
              evs eq_refl (List.Forall_nil _) (List.Forall_nil _)
              (List.Forall_nil _)) as [Hw He].
  split; [exact He|exact Hw].
Qed.

(** ** Where the requests are *)

(** X11.  At every moment of a crawl each request made so far is in
    exactly one place: still waiting, in the buffer, or yielded.  No
    answer loses or doubles an item, and there are never more requests
    than recorded identifiers. *)
Theorem requests_conserved (rt : runtime) (env : option (list N)) (evs : list event) :
  let c := crawl_from rt (start (init rt env)) evs in
  Permutation (in_flight c) (map id (dispatched c))
  /\ NoDup (in_flight c)
  /\ length (waiting c) + length (_buffer (the_spider c)) + length (emitted c)
     = length (dispatched c)
  /\ length (dispatched c) <= size (seen_ids (the_spider c)).
Proof.
  intros c. pose proof (crawl_ok_init rt env evs) as Hok. fold c in Hok.
  pose proof (in_flight_length c Hok) as Hlen.
  destruct Hok as (Hnd & _ & Hperm & Hle).
  split; [exact Hperm|]. split; [now rewrite Hperm|]. auto.
Qed.

(** X12.  An answer releases the buffer exactly when it answers the only
    request still waiting, nothing was yielded before, and every recorded
    identifier was requested.  The release then yields every request made
    so far and leaves nothing waiting or buffered. *)
Theorem release_fires_iff (rt : runtime) (env : option (list N)) (evs : list event)
    (k : nat) (resp : abs_response) (m : meta_item) :
  let c := crawl_from rt (start (init rt env)) evs in
  waiting c !! k = Some m ->
  (batch_of rt c (Detail k resp) <> [] <->
     emitted c = [] /\ length (waiting c) = 1
     /\ length (dispatched c) = size (seen_ids (the_spider c)))
  /\ (batch_of rt c (Detail k resp) <> [] ->
      let c' := step rt c (Detail k resp) in
      waiting c' = [] /\ _buffer (the_spider c') = []
      /\ Permutation (map r_id (emitted c')) (map id (dispatched c'))).
Proof.
  intros c E. pose proof (crawl_ok_init rt env evs) as Hok. fold c in Hok.
  pose proof (in_flight_length c Hok) as Hlen.
  assert (Hle : length (dispatched c) <= size (seen_ids (the_spider c)))
    by apply Hok.
  assert (Hw : 1 <= length (waiting c)) by (apply lookup_lt_Some in E; lia).
  assert (Hb : batch_of rt c (Detail k resp) <> [] <->
               release_due (_buffer (the_spider c) ++ [Item m (resolve_version rt resp)])
                 (seen_ids (the_spider c)) = true).
  { simpl. rewrite E, parse_abs_batch. cbv zeta.
    destruct (release_due _ _) eqn:Hr; simpl.
    - split; [reflexivity|]. intros _ Hnil.
      apply (f_equal (@length _)) in Hnil.
      rewrite length_map, (Permutation_length (sort_items_Permutation _)),
        length_app in Hnil.
      simpl in Hnil. lia.
    - split; [congruence|discriminate]. }
  assert (Hiff : batch_of rt c (Detail k resp) <> [] <->
                 emitted c = [] /\ length (waiting c) = 1
                 /\ length (dispatched c) = size (seen_ids (the_spider c))).
  { rewrite Hb. unfold release_due. rewrite Nat.leb_le, length_app. simpl.
    split.
    - intros H. destruct (emitted c) as [|r l]; simpl in *; [|lia].
      repeat split; lia.
    - intros (He & H1 & H2). rewrite He in Hlen. simpl in Hlen. lia. }
  split; [exact Hiff|].
  intros Hfire c'. pose proof (crawl_ok_step rt c (Detail k resp) Hok) as Hok'.
  fold c' in Hok'.
  destruct (proj1 Hiff Hfire) as (He & H1 & _).
  assert (Hw' : waiting c' = []).
  { subst c'. rewrite (step_detail rt _ _ _ _ E). simpl.
    apply nil_length_inv. rewrite length_delete by eauto. lia. }
  assert (Hbuf : _buffer (the_spider c') = []).
  { subst c'. rewrite (step_detail rt _ _ _ _ E). simpl. rewrite parse_abs_batch.
    cbv zeta. apply Hb in Hfire. now rewrite Hfire. }
  split; [exact Hw'|]. split; [exact Hbuf|].
  destruct Hok' as (_ & _ & Hperm & _). unfold in_flight in Hperm.
  now rewrite Hw', Hbuf in Hperm.
Qed.

Lemma release_fires_iff_witness :
  let rt := Sample.plain_runtime in
  let evs := [Listing Sample.page_qa; Listing Sample.page_rt;
              Detail 1 Sample.bare_abs] in
  let c := crawl_from rt (start (init rt (Some (u "math.RT,math.QA")))) evs in
  (exists m, waiting c !! 0 = Some m)
  /\ map r_id (emitted (step rt c (Detail 0 Sample.bare_abs)))
     = [(u "2401.00002"); (u "2401.00001")]
  /\ waiting (step rt c (Detail 0 Sample.bare_abs)) = [].
Proof.
  intros rt evs c.
  destruct (waiting c !! 0) as [m|] eqn:E; [|vm_compute in E; discriminate].
  split; [eauto|]. split; [vm_compute; reflexivity|].
  refine (proj1 (proj2 (release_fires_iff rt (Some (u "math.RT,math.QA")) evs 0
                          Sample.bare_abs m E) _)).
  vm_compute. discriminate.
Defined.

(** ** The category list *)

Section Strip.
Variable rt : runtime.

Lemma lstrip_first s : blank_edge rt (first_char (lstrip rt s)) = false.
Proof.
  induction s as [|c s IH]; simpl; [reflexivity|].
  destruct (is_space rt c) eqn:E; [exact IH|]. simpl. exact E.
Qed.

Lemma rstrip_cases c s :
  rstrip rt (c :: s) = []
  \/ exists r, rstrip rt (c :: s) = (c :: r).
Proof.
  simpl. destruct (rstrip rt s); [|eauto].
  destruct (is_space rt c); eauto.
Qed.

Lemma rstrip_first s :
  rstrip rt s = [] \/ first_char (rstrip rt s) = first_char s.
Proof.
  destruct s as [|c s]; [now left|].
  destruct (rstrip_cases c s) as [->|[r ->]]; auto.
Qed.

Lemma rstrip_last s : blank_edge rt (last_of None (rstrip rt s)) = false.
Proof.
  induction s as [|c s IH]; simpl; [reflexivity|].
  destruct (rstrip rt s) as [|d r].
  - destruct (is_space rt c) eqn:E; simpl; [reflexivity|exact E].
  - exact IH.
Qed.

Lemma strip_trimmed s : trimmed rt (strip rt s).
Proof.
  unfold trimmed, strip. split; [|apply rstrip_last].
  destruct (rstrip_first (lstrip rt s)) as [-> | ->]; [reflexivity|].
  apply lstrip_first.
Qed.

Lemma lstrip_fixed s : blank_edge rt (first_char s) = false -> lstrip rt s = s.
Proof. destruct s as [|c s]; simpl; [reflexivity|]. now intros ->. Qed.

Lemma rstrip_fixed s : blank_edge rt (last_of None s) = false -> rstrip rt s = s.
Proof.
  induction s as [|c s IH]; [reflexivity|].
  destruct s as [|d s].
  - simpl. now intros ->.
  - intros H. change (rstrip rt ((c :: d :: s)))
      with (match rstrip rt (d :: s) with
            | [] => if is_space rt c then [] else [c]
            | r => (c :: r)
            end).
    now rewrite IH.
Qed.

Lemma strip_fixed s : trimmed rt s -> strip rt s = s.
Proof.
  intros [H1 H2]. unfold strip. rewrite (lstrip_fixed s H1).
  now apply rstrip_fixed.
Qed.

Lemma all_chars_lstrip p s : all_chars p s = true -> all_chars p (lstrip rt s) = true.
Proof.
  induction s as [|c s IH]; simpl; [reflexivity|].
  intros H. destruct (is_space rt c); [|exact H].
  apply andb_true_iff in H as [_ H]. auto.
Qed.

Lemma all_chars_rstrip p s : all_chars p s = true -> all_chars p (rstrip rt s) = true.
Proof.
  induction s as [|c s IH]; simpl; [reflexivity|].
  intros H. apply andb_true_iff in H as [Hc H]. specialize (IH H).
  destruct (rstrip rt s).
  - destruct (is_space rt c); simpl; [reflexivity|now rewrite Hc].
  - simpl in *. now rewrite Hc, IH.
Qed.

Lemma all_chars_strip p s : all_chars p s = true -> all_chars p (strip rt s) = true.
Proof. intros H. unfold strip. now apply all_chars_rstrip, all_chars_lstrip. Qed.

Lemma split_no_sep sep s piece :
  In piece (split sep s) ->
  all_chars (fun c => negb ((c =? sep)%N)) piece = true.
Proof.
  revert piece. induction s as [|c s IH]; simpl; intros piece.
  - now intros [<-|[]].
  - destruct ((c =? sep)%N) eqn:E.
    + intros [<-|H]; [reflexivity|auto].
    + destruct (split sep s) as [|h t].
      * intros [<-|[]]. simpl. now rewrite E.
      * intros [<-|H].
        -- simpl. rewrite E. simpl. apply IH. now left.
        -- apply IH. now right.
Qed.
End Strip.

Lemma parse_categories_elem (rt : runtime) (categories c : list N) :
  In c (parse_categories rt categories) <->
  exists piece, In piece (split (ord ",") categories)
                /\ strip rt piece <> [] /\ c = strip rt piece.
Proof.
  unfold parse_categories. rewrite in_map_iff. split.
  - intros (piece & <- & H). apply filter_In in H as [H1 H2].
    exists piece. split; [exact H1|]. split; [|reflexivity].
    destruct (strip rt piece); [discriminate|discriminate].
  - intros (piece & H1 & H2 & ->). exists piece. split; [reflexivity|].
    apply filter_In. split; [exact H1|].
    destruct (strip rt piece); [congruence|reflexivity].
Qed.

(** X13.  Every category code taken from the input is non-empty, has no
    white space at either end (stripping it again changes nothing) and
    holds no comma; it is in the target set and its listing URL is among
    the start URLs. *)
Theorem category_codes_clean (rt : runtime) (categories c : list N) :
  In c (parse_categories rt categories) ->
  c <> []
  /\ trimmed rt c
  /\ strip rt c = c
  /\ all_chars (fun x => negb ((x =? ord ",")%N)) c = true
  /\ c ∈ target_categories (init rt (Some categories))
  /\ In (listing_url c) (start_urls (init rt (Some categories))).
Proof.
  intros Hc.
  assert (Hs : In c (sort_by_int priority (parse_categories rt categories)))
    by now apply isort_In.
  apply parse_categories_elem in Hc as (piece & Hp & Hne & ->).
  split; [exact Hne|]. split; [apply strip_trimmed|].
  split; [apply strip_fixed, strip_trimmed|].
  split; [apply all_chars_strip; now apply (split_no_sep _ categories)|].
  split.
  - simpl. now apply elem_of_list_to_set, list_elem_of_In.
  - simpl. now apply in_map.
Qed.

Lemma category_codes_clean_witness :
  let rt := Sample.plain_runtime in
  In (u "math.QA") (parse_categories rt (u " math.RT , math.QA ,"))
  /\ trimmed rt (u "math.QA")
  /\ In (listing_url (u "math.QA"))
       (start_urls (init rt (Some (u " math.RT , math.QA ,")))).
Proof.
  intros rt.
  assert (H : In (u "math.QA") (parse_categories rt (u " math.RT , math.QA ,")))
    by (vm_compute; auto).
  pose proof (category_codes_clean _ _ _ H) as (_ & H2 & _ & _ & _ & H6).
  split; [exact H|]. split; [exact H2|exact H6].
Defined.

(** X14.  When [CATEGORIES] is set, the spider has no start URL, and an
    empty target set, exactly when every comma-separated piece of it is
    white space; the default category is used only when the variable is
    not set at all. *)
Theorem blank_categories (rt : runtime) (categories : list N) :
  (start_urls (init rt (Some categories)) = [] <->
     forall piece, In piece (split (ord ",") categories) ->
                   strip rt piece = [])
  /\ (start_urls (init rt (Some categories)) = [] ->
      target_categories (init rt (Some categories)) = ∅)
  /\ length (start_urls (init rt (Some categories)))
     = length (List.filter (fun c => nonempty (strip rt c))
                 (split (ord ",") categories))
  /\ start_urls (init rt None) = [listing_url (u "cs.CV")].
Proof.
  assert (Hlen : length (start_urls (init rt (Some categories)))
                 = length (List.filter (fun c => nonempty (strip rt c))
                             (split (ord ",") categories))).
  { simpl. unfold sort_by_int, parse_categories.
    now rewrite length_map, isort_length, length_map. }
  assert (Hnil : start_urls (init rt (Some categories)) = [] <->
                 parse_categories rt categories = []).
  { split.
    - intros H. rewrite H in Hlen. unfold parse_categories.
      destruct (List.filter _ _); [reflexivity|discriminate].
    - intros H. simpl. now rewrite H. }
  split; [|split; [|split; [exact Hlen|reflexivity]]].
  - rewrite Hnil. split.
    + intros H piece Hp.
      destruct (strip rt piece) eqn:E; [reflexivity|]. exfalso.
      assert (Hin : In (strip rt piece) (parse_categories rt categories)).
      { apply parse_categories_elem. exists piece. rewrite E. now repeat split. }
      now rewrite H in Hin.
    + intros H. destruct (parse_categories rt categories) as [|c l] eqn:E;
        [reflexivity|]. exfalso.
      assert (Hin : In c (parse_categories rt categories)) by (rewrite E; now left).
      apply parse_categories_elem in Hin as (piece & Hp & Hne & _).
      now apply Hne, H.
  - intros H. apply Hnil in H. simpl. now rewrite H.
Qed.

(** ** Entries without a partner *)

(** X15.  A list block is read pairwise: a [<dt>] beyond the last
    [<dd>], or a [<dd>] beyond the last [<dt>], is not read at all, so a
    block with no [<dd>] or no [<dt>] contributes nothing. *)
Theorem unpaired_entries_ignored
    (rt : runtime) (targets : gset (list N)) (resp : response) (prio : Z)
    (sec : list N * Z) (seen : gset (list N)) (dts : list dt_elem)
    (dds : list dd_elem) (bs : list block) :
  parse_blocks rt targets resp prio sec seen (DL dts dds :: bs)
  = parse_blocks rt targets resp prio sec seen
      (DL (take (length dds) dts) (take (length dts) dds) :: bs)
  /\ parse_blocks rt targets resp prio sec seen (DL dts [] :: bs)
     = parse_blocks rt targets resp prio sec seen bs
  /\ parse_blocks rt targets resp prio sec seen (DL [] dds :: bs)
     = parse_blocks rt targets resp prio sec seen bs.
Proof.
  split; [|split].
  - rewrite !parse_blocks_cons_DL.
    now rewrite (zip_with_take_both pair dts dds).
  - rewrite parse_blocks_cons_DL.
    rewrite (zip_with_nil_r pair dts). unfold and_then. simpl.
    now destruct (parse_blocks rt targets resp prio sec seen bs).
  - rewrite parse_blocks_cons_DL. unfold and_then. simpl.
    now destruct (parse_blocks rt targets resp prio sec seen bs).
Qed.

(** ** The pdf link *)

Lemma starts_with_append_long (old x y : list N) :
  length old <= length x ->
  starts_with old (x ++ y) = starts_with old x.
Proof.
  revert x. induction old as [|a old IH]; intros x Hlen; [now destruct x|].
  destruct x as [|b x]; [simpl in Hlen; lia|].
  simpl. destruct (a =? b)%N; [|reflexivity].
  apply IH. simpl in Hlen. lia.
Qed.

Lemma contains_cons_false (old : list N) (c : N) (s : list N) :
  contains old (c :: s) = false ->
  starts_with old (c :: s) = false /\ contains old s = false.
Proof. simpl. intros H. now apply orb_false_iff in H. Qed.

Lemma replace_from_absent (old new s : list N) :
  contains old s = false -> replace_from old new s 0 = s.
Proof.
  induction s as [|c s IH]; [reflexivity|].
  intros H. apply contains_cons_false in H as [H1 H2].
  cbn [replace_from]. rewrite H1. now rewrite IH.
Qed.

Lemma starts_with_abs_extend (c : N) (pre tail : list N) :
  starts_with (u "/abs/") (c :: pre ++ u "/abs") = false ->
  starts_with (u "/abs/") (c :: pre ++ u "/abs/" ++ tail) = false.
Proof.
  intros H. etransitivity; [|exact H].
  assert (E : c :: pre ++ u "/abs/" ++ tail
              = (c :: pre ++ u "/abs") ++ (u "/" ++ tail)).
  { cbn [app]. f_equal. rewrite <- app_assoc. reflexivity. }
  rewrite E. apply starts_with_append_long.
  simpl. rewrite length_app. simpl. lia.
Qed.

Lemma replace_abs_first (pre tail : list N) :
  contains (u "/abs/") (pre ++ u "/abs") = false ->
  replace (u "/abs/") (u "/pdf/") (pre ++ u "/abs/" ++ tail)
  = pre ++ u "/pdf/" ++ replace (u "/abs/") (u "/pdf/") tail.
Proof.
  unfold replace. induction pre as [|c pre IH]; intros H.
  - cbn [app].
    assert (Hp : starts_with (u "/abs/") (u "/abs/" ++ tail) = true) by reflexivity.
    change (u "/abs/" ++ tail) with (ord "/" :: (u "abs/" ++ tail)) in *.
    cbn [replace_from]. rewrite Hp. reflexivity.
  - cbn [app] in H. apply contains_cons_false in H as [H1 H2].
    cbn [app replace_from].
    rewrite (starts_with_abs_extend c pre tail H1). now rewrite IH.
Qed.

(** X16.  When [/abs/] occurs in the abs link only once, the pdf link
    of a stub is the abs link with that one segment turned into [/pdf/]:
    what stands before and after it is kept as it is. *)
Theorem pdf_link_of_abs_link (rt : runtime) (prio : Z) (sec : list N * Z)
    (pre tail arxiv_id : list N) (dd : dd_elem) :
  contains (u "/abs/") (pre ++ u "/abs") = false ->
  contains (u "/abs/") tail = false ->
  pdf (stub_of rt prio sec (pre ++ u "/abs/" ++ tail) arxiv_id dd)
  = pre ++ u "/pdf/" ++ tail.
Proof.
  intros H1 H2. unfold stub_of. cbn [pdf].
  rewrite (replace_abs_first pre tail H1).
  unfold replace. now rewrite (replace_from_absent _ _ tail H2).
Qed.

Lemma pdf_link_of_abs_link_witness :
  let rt := Sample.plain_runtime in
  contains (u "/abs/") (u "https://arxiv.org" ++ u "/abs") = false
  /\ contains (u "/abs/") (u "2401.00002") = false
  /\ pdf (stub_of rt 0 (u "new", 0%Z) (u "https://arxiv.org/abs/2401.00002")
            (u "2401.00002") (Dd []))
     = u "https://arxiv.org/pdf/2401.00002".
Proof.
  intros rt.
  assert (H1 : contains (u "/abs/") (u "https://arxiv.org" ++ u "/abs") = false)
    by reflexivity.
  assert (H2 : contains (u "/abs/") (u "2401.00002") = false) by reflexivity.
  split; [exact H1|]. split; [exact H2|].
  exact (pdf_link_of_abs_link rt 0 (u "new", 0%Z) (u "https://arxiv.org")
           (u "2401.00002") (u "2401.00002") (Dd []) H1 H2).
Defined.

(** ** The order of the start URLs *)

Lemma listing_url_inj (a b : list N) : listing_url a = listing_url b -> a = b.
Proof.
  unfold listing_url. intros H.
  apply app_inv_head in H. now apply app_inv_tail in H.
Qed.

Lemma sorted_lookup {A : Type} (R : A -> A -> Prop) (l : list A) (i j : nat)
    (x y : A) :
  StronglySorted R l -> i < j -> l !! i = Some x -> l !! j = Some y -> R x y.
Proof.
  intros Hs. revert i j. induction Hs as [|z l Hs IH Hall]; intros i j Hij Hi Hj.
  - discriminate.
  - destruct j as [|j]; [lia|]. destruct i as [|i].
    + injection Hi as ->. rewrite List.Forall_forall in Hall.
      apply Hall. apply list_elem_of_In. eapply list_elem_of_lookup_2. exact Hj.
    + apply (IH i j); [lia|exact Hi|exact Hj].
Qed.

(** X17.  The listing of a category with a smaller priority number
    comes strictly earlier among the start URLs than the listing of any
    category with a larger one, wherever they stand in the input; so the
    math.QA listing comes before the math.RT listing, and both before the
    listing of any other category. *)
Theorem start_urls_respect_priority
    (rt : runtime) (env : option (list N)) (a b : list N) (i j : nat) :
  (priority a < priority b)%Z ->
  start_urls (init rt env) !! i = Some (listing_url a) ->
  start_urls (init rt env) !! j = Some (listing_url b) ->
  i < j.
Proof.
  intros Hp Hi Hj. simpl in Hi, Hj.
  set (cats := sort_by_int priority (parse_categories rt (default (u "cs.CV") env))) in *.
  change (map listing_url cats) with (listing_url <$> cats) in Hi, Hj.
  apply list_lookup_fmap_Some in Hi as (a' & Ha & Hi).
  apply list_lookup_fmap_Some in Hj as (b' & Hb & Hj).
  apply listing_url_inj in Ha, Hb. subst a' b'.
  assert (Hs : StronglySorted (fun x y => (priority x <=? priority y)%Z = true) cats)
    by (apply isort_sorted; [apply by_int_total|apply by_int_trans]).
  destruct (Nat.lt_trichotomy i j) as [H|[H|H]]; [exact H| |].
  - subst j. rewrite Hi in Hj. injection Hj as ->. lia.
  - pose proof (sorted_lookup _ _ _ _ _ _ Hs H Hj Hi) as Hle.
    apply Z.leb_le in Hle. lia.
Qed.

Lemma start_urls_respect_priority_witness :
  let rt := Sample.plain_runtime in
  (priority (u "math.QA") < priority (u "math.RT"))%Z
  /\ start_urls (init rt (Some (u "math.RT,math.QA"))) !! 0
     = Some (listing_url (u "math.QA"))
  /\ start_urls (init rt (Some (u "math.RT,math.QA"))) !! 1
     = Some (listing_url (u "math.RT"))
  /\ 0 < 1.
Proof.
  intros rt.
  assert (Hp : (priority (u "math.QA") < priority (u "math.RT"))%Z) by reflexivity.
  assert (H0 : start_urls (init rt (Some (u "math.RT,math.QA"))) !! 0
               = Some (listing_url (u "math.QA"))) by reflexivity.
  assert (H1 : start_urls (init rt (Some (u "math.RT,math.QA"))) !! 1
               = Some (listing_url (u "math.RT"))) by reflexivity.
  split; [exact Hp|]. split; [exact H0|]. split; [exact H1|].
  exact (start_urls_respect_priority _ _ _ _ _ _ Hp H0 H1).
Defined.

(** ** Worked examples *)

Example heading_new (rt : runtime) :
  heading_section rt [u "New submissions (showing 12 of 12 entries)"]
  = (u "new", 0%Z).
Proof. vm_compute. reflexivity. Qed.

Example heading_cross (rt : runtime) :
  heading_section rt [u "Cross submissions (showing 3 of 3 entries)"]
  = (u "cross", 1%Z)
  /\ heading_section rt [u "Cross-lists for Mon, 8 Jan 2024"] = (u "cross", 1%Z).
Proof. split; vm_compute; reflexivity. Qed.

Example heading_repl (rt : runtime) :
  heading_section rt [u "  REPLACEMENT "; u "Submissions (showing 7 of 7 entries)"]
  = (u "repl", 2%Z)
  /\ heading_section rt [u "Replacements for Mon, 8 Jan 2024"] = (u "repl", 2%Z).
Proof. split; vm_compute; reflexivity. Qed.

Example heading_other (rt : runtime) :
  heading_section rt [u "Renewed submissions"] = (u "other", 3%Z)
  /\ heading_section rt [] = (u "other", 3%Z).
Proof. split; vm_compute; reflexivity. Qed.

Example version_tiers (rt : runtime) :
  resolve_version rt
    {| canonical := Some (u "https://arxiv.org/abs/2401.00001v3");
       h1_texts := [u "Title:"; u "On v2 of the conjecture"] |} = u "v3"
  /\ resolve_version rt
       {| canonical := None; h1_texts := [u "[v2] Title:"; u "A note"] |} = u "v2"
  /\ resolve_version rt
       {| canonical := None; h1_texts := [u "Title:"; u "A note"] |} = u "v1".
Proof. repeat split; vm_compute; reflexivity. Qed.

Example codes_found (rt : runtime) :
  Re.findall rt re_code
    (u "Subjects: Quantum Algebra (math.QA); Mathematical Physics (math-ph); Representation Theory (math.RT)")
  = [u "math.QA"; u "math.RT"].
Proof. vm_compute. reflexivity. Qed.

Example start_urls_qa_first (rt : runtime) :
  start_urls (init rt (Some (u "math.RT, cs.CV ,math.QA")))
  = [u "https://arxiv.org/list/math.QA/new"; u "https://arxiv.org/list/math.RT/new";
     u "https://arxiv.org/list/cs.CV/new"].
Proof. vm_compute. reflexivity. Qed.

(** Both listings parsed before the answers arrive, the answers in
    reverse order: one release, the math.QA entry first. *)
Example both_listings_then_answers (rt : runtime) :
  let c := crawl_from rt (start (Sample.qa_rt rt))
             [Listing Sample.page_qa; Listing Sample.page_rt;
              Detail 1 Sample.bare_abs; Detail 0 Sample.bare_abs] in
  map (fun r => (r_id r, r_section r, r_version r)) (emitted c)
  = [(u "2401.00002", u "new", u "v1"); (u "2401.00001", u "new", u "v1")]
  /\ _buffer (the_spider c) = [].
Proof. split; vm_compute; reflexivity. Qed.

Example newest_first_within_section :
  let it (i : string) r p := {| meta := {| id := u i; section := []; abs := [];
                                pdf := []; categories := [];
                                cat_priority := p; section_rank := r |};
                     version := u "v1" |} in
  map (fun x => id (meta x))
    (sort_items [it "2401.00002"%string 0%Z 0%Z; it "2401.00007"%string 2%Z 0%Z;
                 it "2401.00010"%string 0%Z 0%Z; it "2401.00001"%string 0%Z 1%Z;
                 it "2401.00005"%string 1%Z 0%Z])
  = [u "2401.00010"; u "2401.00002"; u "2401.00005"; u "2401.00007";
     u "2401.00001"].
Proof. vm_compute. reflexivity. Qed.

(** Outside ASCII the runtime decides.  With the tables of Unicode, a
    subject node that holds only a no-break space is no subject text,
    so the entry is followed with no declared codes; an accented letter
    in front of a phrase is a word character, so the phrase does not
    count; an Arabic-Indic digit is a digit of a revision tag; and a
    no-break space around a category code is stripped. *)
Example no_break_space_subject :
  let rt := Sample.unicode_runtime in
  let e := (Dt [Anchor (Some (u "Abstract")) (Some (u "/abs/2401.00002"))],
            Dd [[160%N]]) in
  subjects_text_of rt e.2 = []
  /\ map (fun m => (id m, categories m))
       (requests (produced (parse_entry rt {[u "math.QA"]} Sample.page_qa 0
                              (u "new", 0%Z) ∅ e)))
     = [(u "2401.00002", [])].
Proof. split; vm_compute; reflexivity. Qed.

Example accented_heading :
  heading_section Sample.unicode_runtime [233%N :: u "new submissions"]
  = (u "other", 3%Z)
  /\ heading_section Sample.unicode_runtime [201%N :: u "new submissions"]
     = (u "other", 3%Z)
  /\ heading_section Sample.unicode_runtime [u "New submissions for "; [201%N]]
     = (u "new", 0%Z).
Proof. repeat split; vm_compute; reflexivity. Qed.

Example arabic_indic_revision :
  resolve_version Sample.unicode_runtime
    {| canonical := None; h1_texts := [[118%N; 1635%N]] |}
  = [118%N; 1635%N].
Proof. vm_compute. reflexivity. Qed.

Example no_break_space_category :
  parse_categories Sample.unicode_runtime (u "cs.CV,math.QA" ++ [160%N])
  = [u "cs.CV"; u "math.QA"]
  /\ start_urls (init Sample.unicode_runtime (Some [160%N])) = [].
Proof. split; vm_compute; reflexivity. Qed.

(** A link for which no request can be built.  [urljoin] returns a
    [mailto:] link as it is; it holds an identifier of the expected
    shape, which is recorded; the entry passes the category test, and
    building the request raises.  Nothing is requested, and the entry
    behind it is not scanned.  Parsed again, the page skips the recorded
    identifier and requests that entry. *)
Example unrequestable_link (rt : runtime) :
  let sp := Sample.qa_rt rt in
  Sample.join_arxiv (u "math.QA") (u "mailto:list/abs/2401.00006")
  = Some (u "mailto:list/abs/2401.00006")
  /\ parse_raises rt sp Sample.page_mail = Some In_follow
  /\ (parse rt sp Sample.page_mail).2 = []
  /\ listed rt sp Sample.page_mail = [u "2401.00006"]
  /\ elements (seen_ids (parse rt sp Sample.page_mail).1) = [u "2401.00006"]
  /\ parse_raises rt (parse rt sp Sample.page_mail).1 Sample.page_mail = None
  /\ map id (requests (parse rt (parse rt sp Sample.page_mail).1 Sample.page_mail).2)
     = [u "2401.00002"].
Proof. repeat split; vm_compute; reflexivity. Qed.
